(** * Midterm markets chart: the time-series pipeline of
      [src/KalshiMarketPriceChart.tsx]

    A shallow embedding of the numeric helpers of the chart component
    (binary searches over sorted timestamps, range clipping, candlestick
    normalisation, the seat projection and the approval aggregation) and
    the properties the specification states about them.

    Modelling conventions.
    - Timestamps are integer milliseconds ([Z]).  Array indices and the
      loop variables [lo], [hi], [mid], [best] are [Z] as well, because the
      source lets [hi] and [best] reach [-1].
    - Prices, seat counts and percentages are exact rationals ([Q]); the
      rounding of IEEE doubles is not modelled.  The non-finite doubles
      appear only where the source tests for them, as [JsNumber].
    - A [while] loop is a [Fixpoint] on a fuel argument; running out of
      fuel is the outcome [OutOfFuel], reading a property of [undefined]
      is the outcome [TypeError]. *)

From Stdlib Require Import String Ascii.
From Stdlib Require Import ZArith QArith Qabs Qminmax Qround List Bool Lia Lqa.
From Stdlib Require Import Sorting.Sorted Sorting.Permutation.
Import ListNotations.

Local Open Scope Z_scope.

(* ================================================================== *)
(** * Part I: the embedding *)
(* ================================================================== *)

(** ** Outcomes of a call *)

Inductive result (A : Type) : Type :=
| Value (a : A)
| TypeError
| OutOfFuel.

Arguments Value {A} a.
Arguments TypeError {A}.
Arguments OutOfFuel {A}.

Definition bind {A B : Type} (r : result A) (k : A -> result B) : result B :=
  match r with
  | Value a => k a
  | TypeError => TypeError
  | OutOfFuel => OutOfFuel
  end.

Notation "x <- r ;; k" := (bind r (fun x => k))
  (at level 61, r at next level, right associativity).

(** ** JavaScript numbers at the places where the source tests them *)

Inductive JsNumber : Type :=
| NaN
| Infinity (negative : bool)
| Finite (q : Q).

(** [Number.isFinite] *)
Definition isFinite (n : JsNumber) : bool :=
  match n with
  | Finite _ => true
  | _ => false
  end.

(** ** Data model (lines 196-256)

    Each record lives in a module of its own so that the fields keep the
    names they have in the source. *)

Module Candle.
Record t : Type := mk {
  timestamp : Z;
  open : Q;
  high : Q;
  low : Q;
  close : Q;
  updates : JsNumber
}.
End Candle.
Abbreviation Candle := Candle.t.

Module ProjectionPoint.
Record t : Type := mk {
  timestamp : Z;
  value : Q
}.
End ProjectionPoint.
Abbreviation ProjectionPoint := ProjectionPoint.t.

(** [T extends { timestamp: number }] *)
Class Timestamped (T : Type) : Type := timestamp : T -> Z.

#[export] Instance Timestamped_Candle : Timestamped Candle := Candle.timestamp.
#[export] Instance Timestamped_ProjectionPoint : Timestamped ProjectionPoint :=
  ProjectionPoint.timestamp.
#[export] Instance Timestamped_number : Timestamped Z := fun t => t.

Record TimeRange : Type := mkRange {
  startMs : Z;
  endMs : Z
}.

(** The precondition of the three searches: the array is sorted ascending
    by timestamp.  [ascending] allows equal neighbours. *)
Definition ascending {T : Type} `{Timestamped T} (xs : list T) : Prop :=
  StronglySorted (fun a b => timestamp a <= timestamp b) xs.

Definition strictly_ascending {T : Type} `{Timestamped T} (xs : list T) : Prop :=
  StronglySorted (fun a b => timestamp a < timestamp b) xs.

(** ** Arrays *)

(** [xs[i]]: [undefined] ([None]) outside [0 .. length-1]. *)
Definition index {A : Type} (xs : list A) (i : Z) : option A :=
  if i <? 0 then None else nth_error xs (Z.to_nat i).

Definition len {A : Type} (xs : list A) : Z := Z.of_nat (length xs).

(** Comparisons of a possibly [undefined] number with a number:
    [undefined] compares false with everything. *)
Definition strict_eq (v : option Z) (t : Z) : bool :=
  match v with
  | Some x => x =? t
  | None => false
  end.

Definition less_than (v : option Z) (t : Z) : bool :=
  match v with
  | Some x => x <? t
  | None => false
  end.

(** [Math.abs(xs[i] - target)], [NaN] ([None]) when [xs[i]] is [undefined]. *)
Definition distance (v : option Z) (target : Z) : option Z :=
  option_map (fun x => Z.abs (x - target)) v.

Definition dist_less (a b : option Z) : bool :=
  match a, b with
  | Some x, Some y => x <? y
  | _, _ => false
  end.

(** ** clipPointsToRange (lines 416-422) *)

Definition in_range {T : Type} `{Timestamped T} (range : TimeRange) (p : T) : bool :=
  (timestamp p >=? startMs range) && (timestamp p <=? endMs range).

Definition clipPointsToRange {T : Type} `{Timestamped T}
    (points : list T) (range : option TimeRange) : list T :=
  match range with
  | None => points
  | Some r => filter (in_range r) points
  end.

(** ** The bisection loop of nearestIndexByTimestamp (lines 459-465) *)

Inductive Outcome : Type :=
| Returned (mid : Z)
| Exited (lo hi : Z).

Fixpoint nearestIndex_loop (fuel : nat) (timestamps : list Z) (target lo hi : Z)
    : result Outcome :=
  if lo <=? hi then
    match fuel with
    | O => OutOfFuel
    | S fuel' =>
        let mid := (lo + hi) / 2 in
        let value := index timestamps mid in
        if strict_eq value target then Value (Returned mid)
        else if less_than value target
             then nearestIndex_loop fuel' timestamps target (mid + 1) hi
             else nearestIndex_loop fuel' timestamps target lo (mid - 1)
    end
  else Value (Exited lo hi).

(** nearestIndexByTimestamp (lines 454-470).  The loop is given
    [timestamps.length] iterations. *)
Definition nearestIndexByTimestamp (timestamps : list Z) (target : Z) : result Z :=
  if len timestamps =? 0 then Value 0
  else
    o <- nearestIndex_loop (length timestamps) timestamps target 0 (len timestamps - 1) ;;
    match o with
    | Returned mid => Value mid
    | Exited lo _ =>
        if lo <=? 0 then Value 0
        else if lo >=? len timestamps then Value (len timestamps - 1)
        else if dist_less (distance (index timestamps lo) target)
                          (distance (index timestamps (lo - 1)) target)
             then Value lo
             else Value (lo - 1)
    end.

(** ** nearestPointByTimestamp (lines 424-440) *)

Fixpoint nearestPoint_loop (fuel : nat) (points : list ProjectionPoint)
    (targetTs lo hi : Z) : result Outcome :=
  if lo <=? hi then
    match fuel with
    | O => OutOfFuel
    | S fuel' =>
        let mid := (lo + hi) / 2 in
        match index points mid with
        | None => TypeError
        | Some p =>
            let ts := ProjectionPoint.timestamp p in
            if ts =? targetTs then Value (Returned mid)
            else if ts <? targetTs
                 then nearestPoint_loop fuel' points targetTs (mid + 1) hi
                 else nearestPoint_loop fuel' points targetTs lo (mid - 1)
        end
    end
  else Value (Exited lo hi).

(** [points[i]] where the source goes on to read [.timestamp] or returns
    the element of a non-empty array. *)
Definition element {A : Type} (xs : list A) (i : Z) : result A :=
  match index xs i with
  | Some x => Value x
  | None => TypeError
  end.

Definition nearestPointByTimestamp (points : list ProjectionPoint) (targetTs : Z)
    : result (option ProjectionPoint) :=
  if len points =? 0 then Value None
  else
    o <- nearestPoint_loop (length points) points targetTs 0 (len points - 1) ;;
    match o with
    | Returned mid => Value (index points mid)
    | Exited lo _ =>
        if lo <=? 0 then Value (index points 0)
        else if lo >=? len points then Value (index points (len points - 1))
        else
          a <- element points lo ;;
          b <- element points (lo - 1) ;;
          if Z.abs (ProjectionPoint.timestamp a - targetTs) <? Z.abs (ProjectionPoint.timestamp b - targetTs)
          then Value (Some a)
          else Value (Some b)
    end.

(** ** findCloseAtOrBefore (lines 472-488) *)

Fixpoint findClose_loop (fuel : nat) (candles : list Candle)
    (targetTs lo hi best : Z) : result Z :=
  if lo <=? hi then
    match fuel with
    | O => OutOfFuel
    | S fuel' =>
        let mid := (lo + hi) / 2 in
        c <- element candles mid ;;
        if Candle.timestamp c <=? targetTs
        then findClose_loop fuel' candles targetTs (mid + 1) hi mid
        else findClose_loop fuel' candles targetTs lo (mid - 1) best
    end
  else Value best.

Definition findCloseAtOrBefore (candles : list Candle) (targetTs : Z)
    : result (option Q) :=
  if len candles =? 0 then Value None
  else
    best <- findClose_loop (length candles) candles targetTs 0 (len candles - 1) (-1) ;;
    if best <? 0 then Value None
    else c <- element candles best ;; Value (Some (Candle.close c)).

(** The specification's "last close at-or-before [T]" read off the array
    without a search: the close of the last candle, in array order, whose
    timestamp is at most [T]. *)
Fixpoint lastCloseAtOrBefore (candles : list Candle) (T : Z) : option Q :=
  match candles with
  | [] => None
  | c :: rest =>
      match lastCloseAtOrBefore rest T with
      | Some q => Some q
      | None => if Candle.timestamp c <=? T then Some (Candle.close c) else None
      end
  end.

(** ** [Number(string)]

    The StringToNumber conversion of ECMAScript on ASCII text: optional
    white space around an optionally signed decimal literal, [Infinity],
    or an unsigned binary, octal or hexadecimal integer literal; the empty
    string is [0]; anything else is [NaN].  The mathematical value is kept
    exact below the overflow threshold of a double. *)

Definition isStrWhiteSpaceChar (c : ascii) : bool :=
  let n := nat_of_ascii c in
  ((9 <=? n) && (n <=? 13) || (n =? 32))%nat.

Fixpoint skipWhiteSpace (s : list ascii) : list ascii :=
  match s with
  | c :: rest => if isStrWhiteSpaceChar c then skipWhiteSpace rest else s
  | [] => []
  end.

Definition trimWhiteSpace (s : list ascii) : list ascii :=
  rev (skipWhiteSpace (rev (skipWhiteSpace s))).

Definition digitValue (c : ascii) : option Z :=
  let n := Z.of_nat (nat_of_ascii c) in
  if (48 <=? n) && (n <=? 57) then Some (n - 48)
  else if (97 <=? n) && (n <=? 102) then Some (n - 87)
  else if (65 <=? n) && (n <=? 70) then Some (n - 55)
  else None.

(** The longest prefix of digits of the radix: its value, its length and
    the text after it. *)
Fixpoint readDigits (radix : Z) (s : list ascii) (acc : Z) (count : nat)
    : Z * nat * list ascii :=
  match s with
  | c :: rest =>
      match digitValue c with
      | Some d =>
          if d <? radix then readDigits radix rest (acc * radix + d) (S count)
          else (acc, count, s)
      | None => (acc, count, s)
      end
  | [] => (acc, count, s)
  end.

Definition isChar (c : ascii) (a b : string) : bool :=
  String.eqb (String c EmptyString) a || String.eqb (String c EmptyString) b.

Definition exponentPart (s : list ascii) : option Z :=
  match s with
  | [] => Some 0
  | c :: rest =>
      if isChar c "e" "E" then
        let '(sign, body) :=
          match rest with
          | d :: r => if isChar d "+" "+" then (1, r)
                      else if isChar d "-" "-" then (-1, r)
                      else (1, rest)
          | [] => (1, rest)
          end in
        match readDigits 10 body 0 0 with
        | (v, S _, []) => Some (sign * v)
        | _ => None
        end
      else None
  end.

Definition scale (mantissa : Q) (exponent : option Z) : option JsNumber :=
  match exponent with
  | Some e => Some (Finite (mantissa * (10 # 1) ^ e))
  | None => None
  end.

Definition strUnsignedDecimalLiteral (s : list ascii) : option JsNumber :=
  if String.eqb (string_of_list_ascii s) "Infinity" then Some (Infinity false)
  else
    let '(ip, n1, r1) := readDigits 10 s 0 0 in
    match r1 with
    | c :: r2 =>
        if isChar c "." "." then
          let '(fp, n2, r3) := readDigits 10 r2 0 0 in
          if ((n1 =? 0) && (n2 =? 0))%nat then None
          else scale (inject_Z ip + inject_Z fp / (10 # 1) ^ Z.of_nat n2)
                     (exponentPart r3)
        else if (n1 =? 0)%nat then None
        else scale (inject_Z ip) (exponentPart r1)
    | [] => if (n1 =? 0)%nat then None else Some (Finite (inject_Z ip))
    end.

Definition negate (n : JsNumber) : JsNumber :=
  match n with
  | NaN => NaN
  | Infinity s => Infinity (negb s)
  | Finite q => Finite (- q)
  end.

Definition strDecimalLiteral (s : list ascii) : option JsNumber :=
  match s with
  | c :: rest =>
      if isChar c "+" "+" then strUnsignedDecimalLiteral rest
      else if isChar c "-" "-" then option_map negate (strUnsignedDecimalLiteral rest)
      else strUnsignedDecimalLiteral s
  | [] => None
  end.

Definition nonDecimalIntegerLiteral (s : list ascii) : option JsNumber :=
  match s with
  | z :: x :: digits =>
      if isChar z "0" "0" then
        let radix :=
          if isChar x "x" "X" then Some 16
          else if isChar x "o" "O" then Some 8
          else if isChar x "b" "B" then Some 2
          else None in
        match radix with
        | Some r =>
            match readDigits r digits 0 0 with
            | (v, S _, []) => Some (Finite (inject_Z v))
            | _ => None
            end
        | None => None
        end
      else None
  | _ => None
  end.

(** A magnitude of at least [2^1024 - 2^970] rounds to an infinity. *)
Definition roundToDouble (n : JsNumber) : JsNumber :=
  match n with
  | Finite q =>
      if Qle_bool (inject_Z (2 ^ 1024 - 2 ^ 970)) (Qabs q)
      then Infinity (negb (Qle_bool 0 q))
      else Finite q
  | _ => n
  end.

Definition Number (s : string) : JsNumber :=
  let text := trimWhiteSpace (list_ascii_of_string s) in
  match text with
  | [] => Finite 0
  | _ =>
      match nonDecimalIntegerLiteral text with
      | Some n => roundToDouble n
      | None =>
          match strDecimalLiteral text with
          | Some n => roundToDouble n
          | None => NaN
          end
      end
  end.

(** ** parseDollar (lines 511-515) *)

Definition parseDollar (value : option string) : option Q :=
  match value with
  | None => None
  | Some s =>
      let n := Number s in
      match n with
      | Finite q => Some q
      | _ => None
      end
  end.

(** ** normalizeCandles (lines 625-665) *)

Module Metadata.
Record t : Type := mk {
  points_requested : option Q;
  points_returned : option Q;
  start : option Q;
  end_ : option Q
}.
End Metadata.

Module PriceResponse.
Record t : Type := mk {
  marketId : string;
  candles : list Candle;
  metadata : option Metadata.t
}.
End PriceResponse.
Abbreviation PriceResponse := PriceResponse.t.

(** An absent field, or one that is not of the declared JSON type, is
    [None]. *)
Module KalshiCandlestickField.
Record t : Type := mk {
  open : option Q;
  high : option Q;
  low : option Q;
  close : option Q;
  open_dollars : option string;
  high_dollars : option string;
  low_dollars : option string;
  close_dollars : option string
}.
End KalshiCandlestickField.
Abbreviation KalshiCandlestickField := KalshiCandlestickField.t.

Module KalshiCandlestick.
Record t : Type := mk {
  end_period_ts : option Z;
  price : option KalshiCandlestickField;
  yes_bid : option KalshiCandlestickField;
  volume : option Q;
  volume_fp : option string
}.
End KalshiCandlestick.
Abbreviation KalshiCandlestick := KalshiCandlestick.t.

Module KalshiCandlestickResponse.
Record t : Type := mk {
  ticker : option string;
  candlesticks : option (list KalshiCandlestick)
}.
End KalshiCandlestickResponse.
Abbreviation KalshiCandlestickResponse := KalshiCandlestickResponse.t.

(** [PriceResponse | KalshiCandlestickResponse], told apart by
    ['candles' in data]. *)
Inductive Response : Type :=
| HasCandles (data : PriceResponse)
| Candlesticks (data : KalshiCandlestickResponse).

(** [a ?? b] *)
Definition nullish {A : Type} (a b : option A) : option A :=
  match a with
  | Some x => Some x
  | None => b
  end.

(** [typeof n === 'number' ? n / 100 : null] *)
Definition centsToDollars (n : option Q) : option Q :=
  match n with
  | Some cents => Some (cents / 100)%Q
  | None => None
  end.

(** [c.volume ?? Number(c.volume_fp ?? 0)] *)
Definition updatesOf (c : KalshiCandlestick) : JsNumber :=
  match KalshiCandlestick.volume c with
  | Some v => Finite v
  | None =>
      match KalshiCandlestick.volume_fp c with
      | Some s => Number s
      | None => Finite 0
      end
  end.

(** The callback of [.map] at lines 631-658. *)
Definition normalizeCandlestick (c : KalshiCandlestick) : option Candle :=
  match nullish (KalshiCandlestick.price c) (KalshiCandlestick.yes_bid c) with
  | None => None
  | Some source =>
      let open := nullish (parseDollar (KalshiCandlestickField.open_dollars source))
                          (centsToDollars (KalshiCandlestickField.open source)) in
      let high := nullish (parseDollar (KalshiCandlestickField.high_dollars source))
                          (centsToDollars (KalshiCandlestickField.high source)) in
      let low := nullish (parseDollar (KalshiCandlestickField.low_dollars source))
                         (centsToDollars (KalshiCandlestickField.low source)) in
      let close := nullish (parseDollar (KalshiCandlestickField.close_dollars source))
                           (centsToDollars (KalshiCandlestickField.close source)) in
      match open, high, low, close, KalshiCandlestick.end_period_ts c with
      | Some o, Some h, Some l, Some cl, Some ts =>
          Some (Candle.mk (ts * 1000) o h l cl (updatesOf c))
      | _, _, _, _, _ => None
      end
  end.

(** [.filter((c) => c !== null)] *)
Fixpoint nonNull {A : Type} (xs : list (option A)) : list A :=
  match xs with
  | [] => []
  | Some x :: rest => x :: nonNull rest
  | None :: rest => nonNull rest
  end.

(** [a || b] on a string that may be absent or empty. *)
Definition orElse (a : option string) (b : string) : string :=
  match a with
  | Some s => if String.eqb s "" then b else s
  | None => b
  end.

Definition normalizeCandles (data : Response) (marketId : string) : PriceResponse :=
  match data with
  | HasCandles r => r
  | Candlesticks k =>
      let candlesticks :=
        match KalshiCandlestickResponse.candlesticks k with
        | Some l => l
        | None => []
        end in
      PriceResponse.mk
        (orElse (KalshiCandlestickResponse.ticker k) marketId)
        (nonNull (map normalizeCandlestick candlesticks))
        None
  end.

(** The four price components of a candlestick, to state a property of
    any one of them. *)
Inductive Component : Type := Open | High | Low | Close.

Definition dollarsField (k : Component) (source : KalshiCandlestickField)
    : option string :=
  match k with
  | Open => KalshiCandlestickField.open_dollars source
  | High => KalshiCandlestickField.high_dollars source
  | Low => KalshiCandlestickField.low_dollars source
  | Close => KalshiCandlestickField.close_dollars source
  end.

Definition centsField (k : Component) (source : KalshiCandlestickField)
    : option Q :=
  match k with
  | Open => KalshiCandlestickField.open source
  | High => KalshiCandlestickField.high source
  | Low => KalshiCandlestickField.low source
  | Close => KalshiCandlestickField.close source
  end.

Definition component (k : Component) (c : Candle) : Q :=
  match k with
  | Open => Candle.open c
  | High => Candle.high c
  | Low => Candle.low c
  | Close => Candle.close c
  end.

(** The expression the source evaluates for each of the four components:
    [parseDollar(source.k_dollars) ?? (typeof source.k === 'number' ?
    source.k / 100 : null)]. *)
Definition resolved (k : Component) (source : KalshiCandlestickField) : option Q :=
  nullish (parseDollar (dollarsField k source)) (centsToDollars (centsField k source)).

(** ** [Array.prototype.sort] with [(a, b) => a.timestamp - b.timestamp]

    The sort is stable; it is modelled by a stable insertion sort. *)

Fixpoint insertByTimestamp {T : Type} `{Timestamped T} (x : T) (sorted : list T)
    : list T :=
  match sorted with
  | [] => [x]
  | y :: rest =>
      if timestamp x <=? timestamp y then x :: y :: rest
      else y :: insertByTimestamp x rest
  end.

Definition sortByTimestamp {T : Type} `{Timestamped T} (xs : list T) : list T :=
  fold_right insertByTimestamp [] xs.

(** ** fetchExpectedSeatsProjection, after the fetches (lines 776-800) *)

(** An element of [candleResults]: [{ ...m, candles: data.candles }]. *)
Module SeatMarket.
Record t : Type := mk {
  ticker : string;
  seats : Q;
  candles : list Candle
}.
End SeatMarket.
Abbreviation SeatMarket := SeatMarket.t.

(** [Array.from(new Set(xs))]: first occurrences, in insertion order. *)
Definition uniqueInOrder (xs : list Z) : list Z :=
  fold_left (fun seen x => if existsb (Z.eqb x) seen then seen else seen ++ [x]) xs [].

Definition baseTimestamps (referenceTimestamps : option (list Z))
    (candleResults : list SeatMarket) : list Z :=
  match referenceTimestamps with
  | Some (t :: rest) => t :: rest
  | _ =>
      sortByTimestamp
        (uniqueInOrder
           (flat_map (fun r => map Candle.timestamp (SeatMarket.candles r))
                     candleResults))
  end.

(** [x > 0] on numbers. *)
Definition positive (x : Q) : bool := negb (Qle_bool x 0).

(** The inner loop (lines 789-794), from given accumulators. *)
Fixpoint accumulate (candleResults : list SeatMarket) (ts : Z)
    (weighted totalProb : Q) : result (Q * Q) :=
  match candleResults with
  | [] => Value (weighted, totalProb)
  | market :: rest =>
      p <- findCloseAtOrBefore (SeatMarket.candles market) ts ;;
      match p with
      | None => accumulate rest ts weighted totalProb
      | Some p =>
          accumulate rest ts
            (weighted + SeatMarket.seats market * p)%Q (totalProb + p)%Q
      end
  end.

(** The outer loop (lines 786-798), from the points pushed so far. *)
Fixpoint projectionLoop (candleResults : list SeatMarket) (timestamps : list Z)
    (points : list ProjectionPoint) : result (list ProjectionPoint) :=
  match timestamps with
  | [] => Value points
  | ts :: rest =>
      sums <- accumulate candleResults ts 0%Q 0%Q ;;
      let '(weighted, totalProb) := sums in
      if positive totalProb
      then projectionLoop candleResults rest
             (points ++ [ProjectionPoint.mk ts (weighted / totalProb)%Q])
      else projectionLoop candleResults rest points
  end.

Definition expectedSeatsPoints (candleResults : list SeatMarket)
    (referenceTimestamps : option (list Z)) : result (list ProjectionPoint) :=
  projectionLoop candleResults (baseTimestamps referenceTimestamps candleResults) [].

(** The sums of the specification: a market with no candle at or before
    [T] contributes nothing. *)
Definition sumQ (xs : list Q) : Q := fold_right Qplus 0%Q xs.

Definition priceAt (T : Z) (market : SeatMarket) : option Q :=
  lastCloseAtOrBefore (SeatMarket.candles market) T.

Definition sumOfPrices (markets : list SeatMarket) (T : Z) : Q :=
  sumQ (map (fun m => match priceAt T m with
                      | Some p => p
                      | None => 0%Q
                      end) markets).

Definition sumOfWeightedSeats (markets : list SeatMarket) (T : Z) : Q :=
  sumQ (map (fun m => match priceAt T m with
                      | Some p => (SeatMarket.seats m * p)%Q
                      | None => 0%Q
                      end) markets).

(** ** UTC calendar arithmetic of [Date]

    Days are counted from 1970-01-01; the conversions between a day number
    and a proleptic Gregorian date are the ones ECMAScript prescribes,
    written with 400-year eras. *)

Definition msPerDay : Z := 86400000.

Definition Day (t : Z) : Z := t / msPerDay.

(** (year, month 1..12, day of month 1..31) of a day number *)
Definition civilFromDays (days : Z) : Z * Z * Z :=
  let z := days + 719468 in
  let era := z / 146097 in
  let doe := z - era * 146097 in
  let yoe := (doe - doe / 1460 + doe / 36524 - doe / 146096) / 365 in
  let doy := doe - (365 * yoe + yoe / 4 - yoe / 100) in
  let mp := (5 * doy + 2) / 153 in
  let d := doy - (153 * mp + 2) / 5 + 1 in
  let m := if mp <? 10 then mp + 3 else mp - 9 in
  let y := yoe + era * 400 in
  (if m <=? 2 then y + 1 else y, m, d).

Definition daysFromCivil (y m d : Z) : Z :=
  let y' := if m <=? 2 then y - 1 else y in
  let era := y' / 400 in
  let yoe := y' - era * 400 in
  let doy := (153 * (if 2 <? m then m - 3 else m + 9) + 2) / 5 + d - 1 in
  let doe := yoe * 365 + yoe / 4 - yoe / 100 + doy in
  era * 146097 + doe - 719468.

Definition getUTCFullYear (t : Z) : Z := fst (fst (civilFromDays (Day t))).
Definition getUTCMonth (t : Z) : Z := snd (fst (civilFromDays (Day t))) - 1.
Definition getUTCDate (t : Z) : Z := snd (civilFromDays (Day t)).

(** [Date.UTC(year, month, date)]: a year in [0 .. 99] stands for
    [1900 + year]; the time within the day is zero. *)
Definition Date_UTC (year month date : Z) : Z :=
  let yr := if (0 <=? year) && (year <=? 99) then 1900 + year else year in
  let ym := yr + month / 12 in
  let mn := month mod 12 in
  (daysFromCivil ym (mn + 1) 1 + date - 1) * msPerDay.

(** ** fetchTrumpApprovalProjection, from [raw] on (lines 825-854) *)

Module Bucket.
Record t : Type := mk {
  sum : Q;
  count : Z
}.
End Bucket.
Abbreviation Bucket := Bucket.t.

(** A [Map<number, V>]: entries in insertion order, one per key. *)
Definition Map_get {V : Type} (m : list (Z * V)) (key : Z) : option V :=
  match find (fun e => fst e =? key) m with
  | Some e => Some (snd e)
  | None => None
  end.

Fixpoint Map_set {V : Type} (m : list (Z * V)) (key : Z) (v : V) : list (Z * V) :=
  match m with
  | [] => [(key, v)]
  | e :: rest =>
      if fst e =? key then (key, v) :: rest
      else e :: Map_set rest key v
  end.

(** Lines 828-829: the UTC midnight of the day of a poll. *)
Definition dayTsOf (p : ProjectionPoint) : Z :=
  let d := ProjectionPoint.timestamp p in
  Date_UTC (getUTCFullYear d) (getUTCMonth d) (getUTCDate d).

(** The rest of the loop body at lines 830-833. *)
Definition addToBucket (dayBuckets : list (Z * Bucket)) (p : ProjectionPoint)
    : list (Z * Bucket) :=
  let dayTs := dayTsOf p in
  let bucket :=
    match Map_get dayBuckets dayTs with
    | Some b => b
    | None => Bucket.mk 0 0
    end in
  Map_set dayBuckets dayTs
    (Bucket.mk (Bucket.sum bucket + ProjectionPoint.value p)%Q (Bucket.count bucket + 1)).

Definition dayBucketsOf (raw : list ProjectionPoint) : list (Z * Bucket) :=
  fold_left addToBucket raw [].

(** Lines 836-841. *)
Definition dailyOf (raw : list ProjectionPoint) : list ProjectionPoint :=
  sortByTimestamp
    (map (fun e => ProjectionPoint.mk (fst e)
                     (Bucket.sum (snd e) / inject_Z (Bucket.count (snd e)))%Q)
         (dayBucketsOf raw)).

Definition alpha : Q := 35 # 100.

(** The loop at lines 849-852, from a given [ema] and the points pushed
    so far. *)
Fixpoint smoothLoop (daily : list ProjectionPoint) (ema : Q)
    (smoothed : list ProjectionPoint) : list ProjectionPoint :=
  match daily with
  | [] => smoothed
  | p :: rest =>
      let ema' := (alpha * ProjectionPoint.value p + (1 - alpha) * ema)%Q in
      smoothLoop rest ema'
        (smoothed ++ [ProjectionPoint.mk (ProjectionPoint.timestamp p)
                        (Qmax 0 (Qmin 100 ema'))])
  end.

(** Lines 843-854: what the function returns for a given [daily]. *)
Definition smoothDaily (daily : list ProjectionPoint) : result (list ProjectionPoint) :=
  if len daily <=? 2 then Value daily
  else
    first <- element daily 0 ;;
    Value (smoothLoop daily (ProjectionPoint.value first) []).

Definition approvalPoints (raw : list ProjectionPoint) : result (list ProjectionPoint) :=
  smoothDaily (dailyOf raw).

(** The smoothing as the specification words it: the accumulator starts
    at the first daily value, each step sets it to
    [0.35 * daily_i + 0.65 * ema], and the value emitted is the accumulator
    clamped to [[0, 100]]. *)
Definition clamp (x : Q) : Q :=
  if Qle_bool x 0 then 0%Q
  else if Qle_bool 100 x then 100%Q
  else x.

Fixpoint emaFrom (ema : Q) (daily : list Q) : list Q :=
  match daily with
  | [] => []
  | d :: rest =>
      let ema' := ((35 # 100) * d + (65 # 100) * ema)%Q in
      clamp ema' :: emaFrom ema' rest
  end.

Definition emaSpec (daily : list Q) : list Q :=
  match daily with
  | [] => []
  | first :: _ => emaFrom first daily
  end.

(** ** Subsequences, for the statement about clipping *)

Inductive Subsequence {A : Type} : list A -> list A -> Prop :=
| Subsequence_nil : Subsequence [] []
| Subsequence_keep (x : A) (s l : list A) :
    Subsequence s l -> Subsequence (x :: s) (x :: l)
| Subsequence_skip (x : A) (s l : list A) :
    Subsequence s l -> Subsequence s (x :: l).

(** ** Sample data for the examples of Part II *)

(** A candlestick whose [open_dollars] is not numeric while [open], in
    cents, is present. *)
Definition sampleMalformedOpen : KalshiCandlestick :=
  KalshiCandlestick.mk (Some 1700000000)
    (Some (KalshiCandlestickField.mk
             (Some 55%Q) None None None
             (Some "abc"%string) (Some "0.60"%string)
             (Some "0.50"%string) (Some "0.58"%string)))
    None (Some 12%Q) None.

(** A candlestick that carries every component both ways. *)
Definition sampleBothUnits : KalshiCandlestick :=
  KalshiCandlestick.mk (Some 1700003600)
    (Some (KalshiCandlestickField.mk
             (Some 55%Q) (Some 61%Q) (Some 49%Q) (Some 57%Q)
             (Some "0.56"%string) (Some "0.60"%string)
             (Some "0.50"%string) (Some "0.58"%string)))
    None None (Some "7.00"%string).

Definition sampleCandle (ts : Z) (close : Q) : Candle :=
  Candle.mk ts close close close close (Finite 0).

(** Two seat markets quoted 0.3 and 0.7 at timestamp 1000, for 10 and 20
    seats. *)
Definition sampleBasket : list SeatMarket :=
  [SeatMarket.mk "SEATS-10" 10 [sampleCandle 1000 (3 # 10)];
   SeatMarket.mk "SEATS-20" 20 [sampleCandle 1000 (7 # 10)]].

(** One seat market whose history arrives newest first: a candle at 2000
    followed by a candle at 1000, both closing at 0.5. *)
Definition sampleUnsortedBasket : list SeatMarket :=
  [SeatMarket.mk "SEATS-10" 10
     [sampleCandle 2000 (1 # 2); sampleCandle 1000 (1 # 2)]].

(** ** The range of the primary series (lines 1106-1109) *)

Definition marketRange (candles : list Candle) : result (option TimeRange) :=
  if len candles =? 0 then Value None
  else
    first <- element candles 0 ;;
    last <- element candles (len candles - 1) ;;
    Value (Some (mkRange (Candle.timestamp first) (Candle.timestamp last))).

(** ** Timeframes (lines 194, 382-414) *)

(** ['1D' | '7D' | '30D' | 'ALL' | 'CUSTOM'] *)
Inductive Timeframe : Type := D1 | D7 | D30 | ALL | CUSTOM.

Module TimeframeConfig.
Record t : Type := mk {
  points : Z;
  startMs : option Z;
  periodInterval : Z
}.
End TimeframeConfig.

Definition TIMEFRAME_CONFIG (timeframe : Timeframe) : TimeframeConfig.t :=
  match timeframe with
  | D1 => TimeframeConfig.mk 50 (Some (24 * 60 * 60 * 1000)) 60
  | D7 => TimeframeConfig.mk 100 (Some (7 * 24 * 60 * 60 * 1000)) 60
  | D30 => TimeframeConfig.mk 150 (Some (30 * 24 * 60 * 60 * 1000)) 1440
  | ALL => TimeframeConfig.mk 200 (Some (365 * 24 * 60 * 60 * 1000)) 1440
  | CUSTOM => TimeframeConfig.mk 250 None 60
  end.

(** inferCustomPeriodInterval (lines 401-406) *)
Definition inferCustomPeriodInterval (startMs endMs : Z) : Z :=
  let span := Z.max 0 (endMs - startMs) in
  if span <=? 36 * 60 * 60 * 1000 then 1
  else if span <=? 21 * 24 * 60 * 60 * 1000 then 60
  else 1440.

(** [cfg.startMs ?? 365 * 24 * 60 * 60 * 1000] *)
Definition lookback (cfg : TimeframeConfig.t) : Z :=
  match TimeframeConfig.startMs cfg with
  | Some ms => ms
  | None => 365 * 24 * 60 * 60 * 1000
  end.

(** getTimeWindow (lines 408-414); [now] is the value of [Date.now()]. *)
Definition getTimeWindow (now : Z) (timeframe : Timeframe)
    (customRange : option TimeRange) : TimeRange :=
  match timeframe, customRange with
  | CUSTOM, Some r => r
  | ALL, _ => mkRange 0 now
  | _, _ => mkRange (now - lookback (TIMEFRAME_CONFIG timeframe)) now
  end.

(** The query of the candlestick request of fetchMarketPrices
    (lines 698-708, 715-717). *)
Module CandlestickQuery.
Record t : Type := mk {
  start_ts : Z;
  end_ts : Z;
  period_interval : Z
}.
End CandlestickQuery.

Definition candlestickQuery (nowMs : Z) (timeframe : Timeframe)
    (customRange : option TimeRange) : CandlestickQuery.t :=
  let config := TIMEFRAME_CONFIG timeframe in
  let startMs' :=
    match timeframe, customRange with
    | CUSTOM, Some r => startMs r
    | _, _ => nowMs - lookback config
    end in
  let endMs' :=
    match timeframe, customRange with
    | CUSTOM, Some r => endMs r
    | _, _ => nowMs
    end in
  let startSec := startMs' / 1000 in
  let endSec := endMs' / 1000 in
  let periodInterval :=
    match timeframe, customRange with
    | CUSTOM, Some r => inferCustomPeriodInterval (startMs r) (endMs r)
    | _, _ => TimeframeConfig.periodInterval config
    end in
  CandlestickQuery.mk startSec endSec periodInterval.

(** ** inferSeriesTicker (lines 517-521) *)

(** [s.indexOf(c)] for a one-character [c]: the first position, or [-1]. *)
Fixpoint indexOf (s : string) (c : ascii) : Z :=
  match s with
  | EmptyString => -1
  | String a rest =>
      if Ascii.eqb a c then 0
      else let i := indexOf rest c in
           if i <? 0 then -1 else i + 1
  end.

(** [s.slice(0, n)] for [0 <= n] *)
Definition sliceTo (s : string) (n : Z) : string := substring 0 (Z.to_nat n) s.

Definition inferSeriesTicker (marketId : string) : option string :=
  let firstDash := indexOf marketId "-" in
  if firstDash <=? 0 then None
  else Some (sliceTo marketId firstDash).

(** ** The series of a candlestick request (fetchMarketPrices, lines 677, 684-696) *)

(** [s.includes(sub)] *)
Definition includes (s sub : string) : bool :=
  match String.index 0%nat sub s with
  | Some _ => true
  | None => false
  end.

(** [Boolean(s)] for a string that may be absent *)
Definition truthy (s : option string) : bool :=
  match s with
  | Some t => negb (String.eqb t "")
  | None => false
  end.

Definition isKalshi (seriesTicker : option string) (normalizedBase : string) : bool :=
  truthy seriesTicker
  || includes normalizedBase "kalshi.com"
  || includes normalizedBase "kalshi.co"
  || includes normalizedBase "/trade-api"
  || includes normalizedBase "/kalshi-api"
  || includes normalizedBase "/api/kalshi".

(** [seriesTicker || inferSeriesTicker(marketId)]; [None] is the case in
    which the function throws "Kalshi mode requires seriesTicker ...". *)
Definition resolvedSeries (seriesTicker : option string) (marketId : string)
    : option string :=
  if truthy seriesTicker then seriesTicker
  else match inferSeriesTicker marketId with
       | Some s => if String.eqb s "" then None else Some s
       | None => None
       end.

(** ** Custom comparison overlays (lines 338-355, 1161-1191, 2380-2396)

    [trim] and [toUpperCase] stand for the two string methods; every
    handler is run on the state the previous one left. *)

Module CustomCompareMarket.
Record t : Type := mk {
  id : string;
  ticker : string;
  seriesTicker : string;
  label : string;
  colorTop : string;
  colorBottom : string;
  enabled : bool
}.
End CustomCompareMarket.
Abbreviation CustomCompareMarket := CustomCompareMarket.t.

Definition CUSTOM_OVERLAY_COLORS : list (string * string) :=
  [("#38bdf8", "#0ea5e9"); ("#a3e635", "#65a30d"); ("#fda4af", "#e11d48");
   ("#fcd34d", "#d97706"); ("#c4b5fd", "#7c3aed"); ("#5eead4", "#0f766e")]%string.

Module CompareState.
Record t : Type := mk {
  compareTickerInput : string;
  compareInputError : option string;
  customCompareMarkets : list CustomCompareMarket
}.
End CompareState.
Abbreviation CompareState := CompareState.t.

Definition initialCompareState : CompareState := CompareState.mk "" None [].

Definition withError (st : CompareState) (message : string) : CompareState :=
  CompareState.mk (CompareState.compareTickerInput st) (Some message)
                  (CompareState.customCompareMarkets st).

Definition addCustomCompareMarket (trim toUpperCase : string -> string)
    (st : CompareState) : result CompareState :=
  let markets := CompareState.customCompareMarkets st in
  let ticker := toUpperCase (trim (CompareState.compareTickerInput st)) in
  if String.eqb ticker "" then
    Value (withError st "Enter a Kalshi ticker (example: CONTROLS-2026-D).")
  else if existsb (fun m => String.eqb (CustomCompareMarket.ticker m) ticker) markets then
    Value (withError st "That market is already added.")
  else
    let invalid :=
      withError st "Ticker format is invalid. Expected format like SERIES-... ." in
    match inferSeriesTicker ticker with
    | None => Value invalid
    | Some derivedSeries =>
        if String.eqb derivedSeries "" then Value invalid
        else
          color <- element CUSTOM_OVERLAY_COLORS
                     (len markets mod len CUSTOM_OVERLAY_COLORS) ;;
          Value (CompareState.mk "" None
                   (markets ++ [CustomCompareMarket.mk ticker ticker derivedSeries
                                  (ticker ++ " Market") (fst color) (snd color) true]))
    end.

(** The handlers of the text input, of an overlay's checkbox and of its
    remove button. *)
Definition typeCompareTicker (value : string) (st : CompareState) : CompareState :=
  CompareState.mk value None (CompareState.customCompareMarkets st).

Definition toggleCompareMarket (overlayId : string) (checked : bool)
    (st : CompareState) : CompareState :=
  CompareState.mk (CompareState.compareTickerInput st) (CompareState.compareInputError st)
    (map (fun m =>
            if String.eqb (CustomCompareMarket.id m) overlayId
            then CustomCompareMarket.mk
                   (CustomCompareMarket.id m) (CustomCompareMarket.ticker m)
                   (CustomCompareMarket.seriesTicker m) (CustomCompareMarket.label m)
                   (CustomCompareMarket.colorTop m) (CustomCompareMarket.colorBottom m)
                   checked
            else m)
         (CompareState.customCompareMarkets st)).

Definition removeCompareMarket (overlayId : string) (st : CompareState) : CompareState :=
  CompareState.mk (CompareState.compareTickerInput st) (CompareState.compareInputError st)
    (filter (fun m => negb (String.eqb (CustomCompareMarket.id m) overlayId))
            (CompareState.customCompareMarkets st)).

Inductive CompareEvent : Type :=
| TypeTicker (value : string)
| AddMarket
| ToggleMarket (overlayId : string) (checked : bool)
| RemoveMarket (overlayId : string).

Definition compareStep (trim toUpperCase : string -> string)
    (st : CompareState) (e : CompareEvent) : result CompareState :=
  match e with
  | TypeTicker value => Value (typeCompareTicker value st)
  | AddMarket => addCustomCompareMarket trim toUpperCase st
  | ToggleMarket overlayId checked => Value (toggleCompareMarket overlayId checked st)
  | RemoveMarket overlayId => Value (removeCompareMarket overlayId st)
  end.

Fixpoint compareRun (trim toUpperCase : string -> string)
    (st : CompareState) (events : list CompareEvent) : result CompareState :=
  match events with
  | [] => Value st
  | e :: rest =>
      st' <- compareStep trim toUpperCase st e ;;
      compareRun trim toUpperCase st' rest
  end.

(** What every overlay in the list satisfies. *)
Definition wellFormedOverlay (m : CustomCompareMarket) : Prop :=
  CustomCompareMarket.id m = CustomCompareMarket.ticker m /\
  inferSeriesTicker (CustomCompareMarket.ticker m)
    = Some (CustomCompareMarket.seriesTicker m) /\
  CustomCompareMarket.seriesTicker m <> ""%string /\
  CustomCompareMarket.label m = (CustomCompareMarket.ticker m ++ " Market")%string /\
  In (CustomCompareMarket.colorTop m, CustomCompareMarket.colorBottom m)
     CUSTOM_OVERLAY_COLORS.

(** The invariant of the overlay list. *)
Definition compareInvariant (st : CompareState) : Prop :=
  NoDup (map CustomCompareMarket.id (CompareState.customCompareMarkets st)) /\
  Forall wellFormedOverlay (CompareState.customCompareMarkets st).

(** ** Checking the calendar conversions over one 400-year era

    [civilRoundTripAt doe] holds when the date computed for day [doe],
    counted from 0000-03-01, has a month in [1 .. 12], a day in
    [1 .. 31], and converts back to the same day number. *)
Definition civilRoundTripAt (doe : Z) : bool :=
  let '(y, m, d) := civilFromDays (doe - 719468) in
  (1 <=? m) && (m <=? 12) && (1 <=? d) && (d <=? 31)
  && (daysFromCivil y m d =? doe - 719468).

(** [civilRoundTripFrom n doe]: the check at [doe], [doe + 1], ..., for
    [n] days. *)
Fixpoint civilRoundTripFrom (n : nat) (doe : Z) : bool :=
  match n with
  | O => true
  | S k => civilRoundTripAt doe && civilRoundTripFrom k (doe + 1)
  end.

(** The polls of one day, their sum and their number. *)
Definition pollsOfDay (raw : list ProjectionPoint) (dayTs : Z) : list ProjectionPoint :=
  filter (fun p => dayTsOf p =? dayTs) raw.

Definition daySum (raw : list ProjectionPoint) (dayTs : Z) : Q :=
  sumQ (map ProjectionPoint.value (pollsOfDay raw dayTs)).

Definition dayCount (raw : list ProjectionPoint) (dayTs : Z) : Z :=
  len (pollsOfDay raw dayTs).

(** What the buckets hold once the polls [raw] have been put in. *)
Definition bucketsMatch (dayBuckets : list (Z * Bucket)) (raw : list ProjectionPoint)
    : Prop :=
  forall dayTs,
    match Map_get dayBuckets dayTs with
    | Some b =>
        (Bucket.sum b == daySum raw dayTs)%Q /\
        Bucket.count b = dayCount raw dayTs /\ 0 < Bucket.count b
    | None => dayCount raw dayTs = 0
    end.

(** ** Drag selection (lines 1231-1299) *)

Module DragSelection.
Record t : Type := mk {
  startIndex : Z;
  endIndex : Z
}.
End DragSelection.

Module DragState.
Record t : Type := mk {
  isDragging : bool;
  dragSelection : option DragSelection.t
}.
End DragState.
Abbreviation DragState := DragState.t.

Definition initialDragState : DragState := DragState.mk false None.

(** getIndexFromClientX (lines 1231-1245).  [pointer] is the timestamp
    the x scale gives for the pointer position, [None] when the chart,
    its area or its scale is missing or the value is not finite. *)
Definition getIndexFromClientX (timestamps : list Z) (pointer : option Z)
    : result (option Z) :=
  if len timestamps =? 0 then Value None
  else
    match pointer with
    | None => Value None
    | Some ts => i <- nearestIndexByTimestamp timestamps ts ;; Value (Some i)
    end.

Definition startDrag (timestamps : list Z) (pointer : option Z) (st : DragState)
    : result DragState :=
  index <- getIndexFromClientX timestamps pointer ;;
  match index with
  | None => Value st
  | Some i => Value (DragState.mk true (Some (DragSelection.mk i i)))
  end.

Definition moveDrag (timestamps : list Z) (pointer : option Z) (st : DragState)
    : result DragState :=
  if negb (DragState.isDragging st) then Value st
  else
    index <- getIndexFromClientX timestamps pointer ;;
    match index with
    | None => Value st
    | Some i =>
        Value (DragState.mk (DragState.isDragging st)
                 (match DragState.dragSelection st with
                  | Some prev => Some (DragSelection.mk (DragSelection.startIndex prev) i)
                  | None => None
                  end))
    end.

Definition endDrag (st : DragState) : DragState := DragState.mk false None.

Inductive DragEvent : Type :=
| StartDrag (pointer : option Z)
| MoveDrag (pointer : option Z)
| EndDrag.

Definition dragStep (timestamps : list Z) (st : DragState) (e : DragEvent)
    : result DragState :=
  match e with
  | StartDrag pointer => startDrag timestamps pointer st
  | MoveDrag pointer => moveDrag timestamps pointer st
  | EndDrag => Value (endDrag st)
  end.

Fixpoint dragRun (timestamps : list Z) (st : DragState) (events : list DragEvent)
    : result DragState :=
  match events with
  | [] => Value st
  | e :: rest => st' <- dragStep timestamps st e ;; dragRun timestamps st' rest
  end.

(** selectionRange (lines 1266-1272) *)
Module SelectionRange.
Record t : Type := mk {
  start : Z;
  end_ : Z
}.
End SelectionRange.

Definition selectionRange (dragSelection : option DragSelection.t) (candlesLength : Z)
    : option SelectionRange.t :=
  match dragSelection with
  | None => None
  | Some d =>
      let start := Z.min (DragSelection.startIndex d) (DragSelection.endIndex d) in
      let end_ := Z.max (DragSelection.startIndex d) (DragSelection.endIndex d) in
      if (start <? 0) || (end_ >=? candlesLength) then None
      else Some (SelectionRange.mk start end_)
  end.

(** [xs.slice(from, to)] *)
Definition relativeIndex {A : Type} (xs : list A) (i : Z) : Z :=
  if i <? 0 then Z.max (len xs + i) 0 else Z.min i (len xs).

Definition slice {A : Type} (xs : list A) (from to : Z) : list A :=
  let k := relativeIndex xs from in
  let final := relativeIndex xs to in
  firstn (Z.to_nat (Z.max (final - k) 0)) (skipn (Z.to_nat k) xs).

(** [a + b] on numbers that may be [NaN] or infinite *)
Definition jsAdd (a b : JsNumber) : JsNumber :=
  match a, b with
  | NaN, _ | _, NaN => NaN
  | Infinity s, Infinity s' => if Bool.eqb s s' then Infinity s else NaN
  | Infinity s, Finite _ | Finite _, Infinity s => Infinity s
  | Finite x, Finite y => Finite (x + y)
  end.

(** selectionSummary (lines 1274-1299) *)
Module SelectionSummary.
Record t : Type := mk {
  startTs : Z;
  endTs : Z;
  startPrice : Q;
  endPrice : Q;
  deltaPoints : Q;
  relativeChange : option Q;
  volume : JsNumber;
  candleCount : Z;
  durationMs : Z
}.
End SelectionSummary.

Definition selectionSummary (range : option SelectionRange.t) (candles : list Candle)
    : option SelectionSummary.t :=
  match range with
  | None => None
  | Some r =>
      match index candles (SelectionRange.start r), index candles (SelectionRange.end_ r) with
      | Some startCandle, Some endCandle =>
          let startPrice := (Candle.close startCandle * 100)%Q in
          let endPrice := (Candle.close endCandle * 100)%Q in
          let deltaPoints := (endPrice - startPrice)%Q in
          let relativeChange :=
            if Qeq_bool startPrice 0 then None
            else Some (deltaPoints / startPrice * 100)%Q in
          let volume :=
            fold_left (fun sum c => jsAdd sum (Candle.updates c))
                      (slice candles (SelectionRange.start r) (SelectionRange.end_ r + 1))
                      (Finite 0) in
          Some (SelectionSummary.mk
                  (Candle.timestamp startCandle) (Candle.timestamp endCandle)
                  startPrice endPrice deltaPoints relativeChange volume
                  (SelectionRange.end_ r - SelectionRange.start r + 1)
                  (Z.max 0 (Candle.timestamp endCandle - Candle.timestamp startCandle)))
      | _, _ => None
      end
  end.

(** The selection kept while dragging over a chart of [n] candles. *)
Definition dragInvariant (n : Z) (st : DragState) : Prop :=
  match DragState.dragSelection st with
  | Some d =>
      DragState.isDragging st = true /\
      0 <= DragSelection.startIndex d < n /\ 0 <= DragSelection.endIndex d < n
  | None => DragState.isDragging st = false
  end.

(** ** Axis bounds of the overlays (lines 1745-1770) *)

(** [Math.min(...values)] and [Math.max(...values)] of [v :: rest] *)
Definition minOf (v : Q) (rest : list Q) : Q := fold_left Qmin rest v.
Definition maxOf (v : Q) (rest : list Q) : Q := fold_left Qmax rest v.

(** ['seats' | 'percent'] *)
Module ProjectionMode.
Inductive t : Type := seats | percent.
End ProjectionMode.
Abbreviation ProjectionMode := ProjectionMode.t.

Definition isSeats (mode : option ProjectionMode) : bool :=
  match mode with
  | Some ProjectionMode.seats => true
  | _ => false
  end.

Module IntegerBounds.
Record t : Type := mk {
  min : Z;
  max : Z
}.
End IntegerBounds.

Module Bounds.
Record t : Type := mk {
  min : Q;
  max : Q
}.
End Bounds.

Definition projectionBounds (showProjection : bool) (projectionMode : option ProjectionMode)
    (projectionPoints : list ProjectionPoint) : option IntegerBounds.t :=
  if negb (showProjection && isSeats projectionMode && (0 <? len projectionPoints))
  then None
  else
    match map ProjectionPoint.value projectionPoints with
    | [] => None
    | v :: rest =>
        let min := minOf v rest in
        let max := maxOf v rest in
        let pad := Qmax 1 ((max - min) * (12 # 100)) in
        Some (IntegerBounds.mk (Qfloor (min - pad)) (Qceiling (max + pad)))
    end.

Definition sp500Bounds (showSp500 : bool) (sp500Points : list ProjectionPoint)
    : option IntegerBounds.t :=
  if negb (showSp500 && (0 <? len sp500Points)) then None
  else
    match map ProjectionPoint.value sp500Points with
    | [] => None
    | v :: rest =>
        let min := minOf v rest in
        let max := maxOf v rest in
        let pad := Qmax 20 ((max - min) * (8 # 100)) in
        Some (IntegerBounds.mk (Qfloor (min - pad)) (Qceiling (max + pad)))
    end.

Definition unemploymentBounds (showUnemployment : bool)
    (unemploymentPoints : list ProjectionPoint) : option Bounds.t :=
  if negb (showUnemployment && (0 <? len unemploymentPoints)) then None
  else
    match map ProjectionPoint.value unemploymentPoints with
    | [] => None
    | v :: rest =>
        let min := minOf v rest in
        let max := maxOf v rest in
        let pad := Qmax (2 # 10) ((max - min) * (18 # 100)) in
        Some (Bounds.mk (Qmax 0 (min - pad)) (max + pad))
    end.

(** ** The intro animation (lines 1301-1314) *)

Definition revealedEndIndex (candlesLength : Z) (revealProgress : Q) : Z :=
  if candlesLength <=? 1 then candlesLength - 1
  else if Qle_bool (995 # 1000) revealProgress then candlesLength - 1
  else Z.max 1 (Qfloor (revealProgress * inject_Z (candlesLength - 1))).

(** [revealProgress < 0.995] *)
Definition showIntroDraw (revealProgress : Q) : bool :=
  negb (Qle_bool (995 # 1000) revealProgress).

Module HeadPoint.
Record t : Type := mk {
  ts : Z;
  price : Q
}.
End HeadPoint.

Definition introHeadPoint (candles : list Candle) (revealProgress : Q)
    : option HeadPoint.t :=
  if len candles =? 0 then None
  else if negb (showIntroDraw revealProgress) then None
  else
    let i := Z.max 0 (Z.min (revealedEndIndex (len candles) revealProgress)
                            (len candles - 1)) in
    match index candles i with
    | Some c => Some (HeadPoint.mk (Candle.timestamp c) (Candle.close c * 100)%Q)
    | None => None
    end.

(** ** The seat markets of an event (lines 240-243, 756-767) *)

Module KalshiEventMarket.
Record t : Type := mk {
  ticker : string;
  custom_strike : option (list (string * string))
}.
End KalshiEventMarket.
Abbreviation KalshiEventMarket := KalshiEventMarket.t.

(** [obj[key]] on a [Record<string, string>], given as its entries *)
Definition property (obj : list (string * string)) (key : string) : option string :=
  match find (fun e => String.eqb (fst e) key) obj with
  | Some e => Some (snd e)
  | None => None
  end.

(** [m.custom_strike?.Seats ?? m.custom_strike?.seats] *)
Definition seatRawOf (m : KalshiEventMarket) : option string :=
  nullish
    (match KalshiEventMarket.custom_strike m with
     | Some strike => property strike "Seats"
     | None => None
     end)
    (match KalshiEventMarket.custom_strike m with
     | Some strike => property strike "seats"
     | None => None
     end).

Module SeatStrike.
Record t : Type := mk {
  ticker : string;
  seats : Q
}.
End SeatStrike.
Abbreviation SeatStrike := SeatStrike.t.

(** The callback of [.map] at lines 757-761. *)
Definition seatStrikeOf (m : KalshiEventMarket) : option SeatStrike :=
  let seats :=
    match seatRawOf m with
    | Some seatRaw => Number seatRaw
    | None => NaN
    end in
  match seats with
  | Finite q => Some (SeatStrike.mk (KalshiEventMarket.ticker m) q)
  | _ => None
  end.

(** [.sort((a, b) => a.seats - b.seats)], stable *)
Fixpoint insertBySeats (x : SeatStrike) (sorted : list SeatStrike) : list SeatStrike :=
  match sorted with
  | [] => [x]
  | y :: rest =>
      if Qle_bool (SeatStrike.seats x) (SeatStrike.seats y) then x :: y :: rest
      else y :: insertBySeats x rest
  end.

Definition sortBySeats (xs : list SeatStrike) : list SeatStrike :=
  fold_right insertBySeats [] xs.

(** Lines 756-767; [None] is the case in which the function throws
    "No seat-strike markets found for this event.". *)
Definition seatMarkets (markets : option (list KalshiEventMarket))
    : option (list SeatStrike) :=
  let all := match markets with
             | Some l => l
             | None => []
             end in
  let sorted := sortBySeats (nonNull (map seatStrikeOf all)) in
  if len sorted =? 0 then None else Some sorted.

(** ** The observations of a FRED series (lines 258-265, 874-883)

    [Date_parse s] stands for [new Date(s).getTime()], [None] when that
    is [NaN]. *)

Module FredObservation.
Record t : Type := mk {
  date : string;
  value : string
}.
End FredObservation.
Abbreviation FredObservation := FredObservation.t.

Definition fredPoint (Date_parse : string -> option Z) (o : FredObservation)
    : option ProjectionPoint :=
  let ts := Date_parse (FredObservation.date o ++ "T00:00:00Z")%string in
  let v := Number (FredObservation.value o) in
  match ts, v with
  | Some t, Finite q => Some (ProjectionPoint.mk t q)
  | _, _ => None
  end.

Definition fredPoints (Date_parse : string -> option Z)
    (observations : option (list FredObservation)) : list ProjectionPoint :=
  let all := match observations with
             | Some l => l
             | None => []
             end in
  sortByTimestamp (nonNull (map (fredPoint Date_parse) all)).

(** ** The polls kept by fetchTrumpApprovalProjection (lines 267-273, 812-823)

    [toLowerCase] stands for the string method. *)

Module PollAnswer.
Record t : Type := mk {
  choice : option string;
  percent : option Q
}.
End PollAnswer.

Module Poll.
Record t : Type := mk {
  date : option string;
  end_date : option string;
  answers : option (list PollAnswer.t)
}.
End Poll.

(** [a || b] on strings that may be absent *)
Definition firstTruthy (a b : option string) : option string :=
  if truthy a then a else if truthy b then b else None.

(** The callback of [.map] at lines 813-821. *)
Definition rawPollPoint (Date_parse : string -> option Z) (toLowerCase : string -> string)
    (window : TimeRange) (poll : Poll.t) : option ProjectionPoint :=
  match firstTruthy (Poll.date poll) (Poll.end_date poll) with
  | None => None
  | Some dateString =>
      match Date_parse dateString with
      | None => None
      | Some ts =>
          if (ts <? startMs window) || (ts >? endMs window) then None
          else
            let answers := match Poll.answers poll with
                           | Some l => l
                           | None => []
                           end in
            let isApprove (a : PollAnswer.t) :=
              String.eqb (toLowerCase (match PollAnswer.choice a with
                                       | Some c => if String.eqb c "" then ""%string else c
                                       | None => ""%string
                                       end)) "approve" in
            match find isApprove answers with
            | None => None
            | Some approve =>
                match PollAnswer.percent approve with
                | Some percent => Some (ProjectionPoint.mk ts percent)
                | None => None
                end
            end
      end
  end.

Definition rawPolls (Date_parse : string -> option Z) (toLowerCase : string -> string)
    (window : TimeRange) (polls : option (list Poll.t)) : list ProjectionPoint :=
  let all := match polls with
             | Some l => l
             | None => []
             end in
  sortByTimestamp (nonNull (map (rawPollPoint Date_parse toLowerCase window) all)).

(** fetchTrumpApprovalProjection from the parsed response on
    (lines 810-854). *)
Definition trumpApprovalPoints (Date_parse : string -> option Z)
    (toLowerCase : string -> string) (now : Z) (timeframe : Timeframe)
    (customRange : option TimeRange) (polls : option (list Poll.t))
    : result (list ProjectionPoint) :=
  approvalPoints
    (rawPolls Date_parse toLowerCase (getTimeWindow now timeframe customRange) polls).

(** ** Timeframe and custom range of the chart (lines 909-912, 1198-1203,
       2653, 2705-2710)

    [now] is the value of [Date.now()] when the effect runs; the two
    arguments of [ApplyRange] are the times parsed from the two drafts,
    [None] when not finite. *)

Module RangeState.
Record t : Type := mk {
  timeframe : Timeframe;
  customRangeApplied : option TimeRange
}.
End RangeState.
Abbreviation RangeState := RangeState.t.

Definition initialRangeState : RangeState := RangeState.mk D7 None.

(** The effect at lines 1198-1203. *)
Definition defaultCustomRange (now : Z) (st : RangeState) : RangeState :=
  match RangeState.timeframe st, RangeState.customRangeApplied st with
  | CUSTOM, None =>
      RangeState.mk CUSTOM (Some (mkRange (now - 14 * 24 * 60 * 60 * 1000) now))
  | _, _ => st
  end.

(** The click handler at lines 2705-2710. *)
Definition applyCustomRange (start end_ : option Z) (st : RangeState) : RangeState :=
  match start, end_ with
  | Some s, Some e =>
      if s >=? e then st
      else RangeState.mk (RangeState.timeframe st) (Some (mkRange s e))
  | _, _ => st
  end.

Inductive RangeEvent : Type :=
| SetTimeframe (tf : Timeframe)
| ApplyRange (start end_ : option Z).

Definition rangeStep (now : Z) (st : RangeState) (e : RangeEvent) : RangeState :=
  defaultCustomRange now
    match e with
    | SetTimeframe tf => RangeState.mk tf (RangeState.customRangeApplied st)
    | ApplyRange start end_ => applyCustomRange start end_ st
    end.

(** Events paired with the clock reading at which they are handled. *)
Fixpoint rangeRun (st : RangeState) (events : list (Z * RangeEvent)) : RangeState :=
  match events with
  | [] => st
  | (now, e) :: rest => rangeRun (rangeStep now st e) rest
  end.

Definition rangeInvariant (st : RangeState) : Prop :=
  (RangeState.timeframe st = CUSTOM -> RangeState.customRangeApplied st <> None) /\
  forall r, RangeState.customRangeApplied st = Some r -> startMs r < endMs r.

(** ** hexToRgb (lines 163-169), on ASCII text *)

(** [s.replace('#', '')]: the first ['#'] removed *)
Fixpoint removeFirst (c : ascii) (s : list ascii) : list ascii :=
  match s with
  | [] => []
  | a :: rest => if Ascii.eqb a c then rest else a :: removeFirst c rest
  end.

(** The double nearest to an integer: 53 significant bits, ties to even,
    an infinity from [2^1024] on. *)
Definition roundInteger (n : Z) : JsNumber :=
  let m := Z.abs n in
  let e := Z.log2 m in
  let r :=
    if e <=? 52 then m
    else
      let shift := e - 52 in
      let q := Z.shiftr m shift in
      let rest := m - Z.shiftl q shift in
      let half := Z.shiftl 1 (shift - 1) in
      let q' := if (half <? rest) || ((rest =? half) && Z.odd q) then q + 1 else q in
      Z.shiftl q' shift in
  if 2 ^ 1024 <=? r then Infinity (n <? 0)
  else Finite (inject_Z (Z.sgn n * r)).

(** [Number.parseInt(s, 16)] *)
Definition parseInt16 (s : list ascii) : JsNumber :=
  let t := skipWhiteSpace s in
  let '(sign, unsigned) :=
    match t with
    | c :: rest => if isChar c "-" "-" then (-1, rest)
                   else if isChar c "+" "+" then (1, rest)
                   else (1, t)
    | [] => (1, t)
    end in
  let digits :=
    match unsigned with
    | z :: x :: rest => if isChar z "0" "0" && isChar x "x" "X" then rest else unsigned
    | _ => unsigned
    end in
  match readDigits 16 digits 0 0 with
  | (_, O, _) => NaN
  | (v, S _, _) => roundInteger (sign * v)
  end.

(** The conversion applied by [>>] and [&] to their left operand. *)
Definition ToInt32 (n : JsNumber) : Z :=
  match n with
  | Finite q =>
      let int := if Qle_bool 0 q then Qfloor q else Qceiling q in
      let m := int mod 2 ^ 32 in
      if 2 ^ 31 <=? m then m - 2 ^ 32 else m
  | _ => 0
  end.

Definition hexToRgb (hex : string) : Z * Z * Z :=
  let clean := removeFirst "#" (list_ascii_of_string hex) in
  let full := if (length clean =? 3)%nat
              then flat_map (fun c => [c; c]) clean
              else clean in
  let n := parseInt16 full in
  if negb (isFinite n) then (148, 163, 184)
  else (Z.land (Z.shiftr (ToInt32 n) 16) 255,
        Z.land (Z.shiftr (ToInt32 n) 8) 255,
        Z.land (ToInt32 n) 255).

(** A colour written the usual way, to state what [hexToRgb] reads back. *)
Definition hexDigit (d : Z) : ascii :=
  ascii_of_nat (Z.to_nat (if d <? 10 then 48 + d else 87 + d)).

Definition twoHex (n : Z) : list ascii := [hexDigit (n / 16); hexDigit (n mod 16)].

Definition cssHex (r g b : Z) : string :=
  string_of_list_ascii ("#"%char :: twoHex r ++ twoHex g ++ twoHex b).

(** ** The query forwarded by the proxy handlers
       (src/unnamed/part_000 and part_001, buildTargetUrl and handler)

    [url.searchParams] is the list of its name-value pairs; it is empty
    for the URL built from the base and the encoded path.  A query is the
    list [Object.entries(req.query)]. *)

Inductive QueryValue : Type :=
| QueryNull
| QueryString (s : string)
| QueryArray (values : list string).

Definition SearchParams : Type := list (string * string).

(** [searchParams.get(name)] *)
Definition searchParams_get (params : SearchParams) (name : string) : option string :=
  match find (fun e => String.eqb (fst e) name) params with
  | Some e => Some (snd e)
  | None => None
  end.

(** [searchParams.append(name, value)] *)
Definition searchParams_append (params : SearchParams) (name value : string)
    : SearchParams :=
  params ++ [(name, value)].

(** [searchParams.set(name, value)]: the first pair of that name takes
    the value and the other pairs of that name go; without such a pair
    the new one is appended. *)
Fixpoint searchParams_set (params : SearchParams) (name value : string)
    : SearchParams :=
  match params with
  | [] => [(name, value)]
  | e :: rest =>
      if String.eqb (fst e) name
      then (name, value) :: filter (fun e' => negb (String.eqb (fst e') name)) rest
      else e :: searchParams_set rest name value
  end.

(** The body of the loop over the entries of the query. *)
Definition forwardEntry (params : SearchParams) (entry : string * QueryValue)
    : SearchParams :=
  let '(key, value) := entry in
  if String.eqb key "path" then params
  else
    match value with
    | QueryNull => params
    | QueryArray values =>
        fold_left (fun ps v => searchParams_append ps key v) values params
    | QueryString s => searchParams_set params key s
    end.

Definition forwardQuery (query : list (string * QueryValue)) : SearchParams :=
  fold_left forwardEntry query [].

(** The handler of part_000: the server's key is set when
    [url.searchParams.get('api_key')], the first value of that name, is
    missing or empty, and [process.env.FRED_API_KEY] is a non-empty
    string. *)
Definition withServerKey (FRED_API_KEY : option string) (params : SearchParams)
    : SearchParams :=
  if negb (truthy (searchParams_get params "api_key")) && truthy FRED_API_KEY
  then match FRED_API_KEY with
       | Some key => searchParams_set params "api_key" key
       | None => params
       end
  else params.

Definition fredQuery (FRED_API_KEY : option string) (query : list (string * QueryValue))
    : SearchParams :=
  withServerKey FRED_API_KEY (forwardQuery query).

(* ================================================================== *)
(** * Part II: properties *)
(* ================================================================== *)

(** ** Arrays *)

Lemma index_Some_iff {A : Type} (xs : list A) (i : Z) :
  (exists x, index xs i = Some x) <-> 0 <= i < len xs.
Proof.
  unfold index, len. destruct (Z.ltb_spec i 0) as [Hneg | Hpos].
  - split; [intros [x Hx]; discriminate | lia].
  - split.
    + intros [x Hx].
      assert (Hlt : (Z.to_nat i < length xs)%nat)
        by (apply nth_error_Some; congruence).
      lia.
    + intros [_ Hlt].
      destruct (nth_error xs (Z.to_nat i)) as [x |] eqn:E; [eauto |].
      apply nth_error_None in E. lia.
Qed.

Lemma index_in_range {A : Type} (xs : list A) (i : Z) :
  0 <= i < len xs -> exists x, index xs i = Some x.
Proof. apply index_Some_iff. Qed.

(** ** Termination and bounds of the bisection loop *)

Lemma nearestIndex_loop_runs (timestamps : list Z) (target : Z) :
  forall (fuel : nat) (lo hi : Z),
    hi + 1 - lo <= Z.of_nat fuel ->
    0 <= lo <= hi + 1 -> hi < len timestamps ->
    exists o, nearestIndex_loop fuel timestamps target lo hi = Value o /\
      match o with
      | Returned mid => lo <= mid <= hi
      | Exited lo' hi' => lo <= lo' /\ hi' <= hi /\ lo' = hi' + 1
      end.
Proof.
  induction fuel as [| fuel IH]; intros lo hi Hfuel Hlo Hhi; simpl.
  - destruct (Z.leb_spec lo hi); [lia |].
    eexists; split; [reflexivity | simpl; lia].
  - destruct (Z.leb_spec lo hi) as [Hle | Hgt].
    + assert (Hmid : lo <= (lo + hi) / 2 <= hi).
      { split; [apply Z.div_le_lower_bound | apply Z.div_le_upper_bound]; lia. }
      destruct (strict_eq _ target).
      * eexists; split; [reflexivity | exact Hmid].
      * destruct (less_than _ target).
        -- destruct (IH ((lo + hi) / 2 + 1) hi) as [o [Ho Hb]]; try lia.
           exists o; split; [exact Ho |].
           destruct o; lia.
        -- destruct (IH lo ((lo + hi) / 2 - 1)) as [o [Ho Hb]]; try lia.
           exists o; split; [exact Ho |].
           destruct o; lia.
    + eexists; split; [reflexivity | simpl; lia].
Qed.

(** A larger budget does not change the outcome of a loop that finished. *)
Lemma nearestIndex_loop_more_fuel (timestamps : list Z) (target : Z) :
  forall (fuel fuel' : nat) (lo hi : Z) (o : Outcome),
    (fuel <= fuel')%nat ->
    nearestIndex_loop fuel timestamps target lo hi = Value o ->
    nearestIndex_loop fuel' timestamps target lo hi = Value o.
Proof.
  induction fuel as [| fuel IH]; intros fuel' lo hi o Hle Hrun.
  - simpl in Hrun. destruct fuel'; simpl;
      destruct (lo <=? hi); try discriminate; exact Hrun.
  - destruct fuel' as [| fuel']; [lia |].
    simpl in *. destruct (lo <=? hi); [| exact Hrun].
    destruct (strict_eq _ target); [exact Hrun |].
    destruct (less_than _ target); apply (IH fuel'); auto; lia.
Qed.

(** C9. On every non-empty array, sorted or not, and every target the
    bisection loop of [nearestIndexByTimestamp] finishes: a budget of
    [timestamps.length] iterations is enough, and any larger budget gives
    the same outcome.  The function returns an index [i] with
    [0 <= i <= length - 1], so that [timestamps[i]] is defined. *)
Theorem nearestIndexByTimestamp_in_bounds (timestamps : list Z) (target : Z) :
  timestamps <> [] ->
  (exists o, forall fuel, (length timestamps <= fuel)%nat ->
     nearestIndex_loop fuel timestamps target 0 (len timestamps - 1) = Value o) /\
  exists i, nearestIndexByTimestamp timestamps target = Value i /\
            0 <= i <= len timestamps - 1 /\
            exists x, index timestamps i = Some x.
Proof.
  intros Hne.
  assert (Hlen : 0 < len timestamps).
  { unfold len. destruct timestamps; [congruence | simpl; lia]. }
  destruct (nearestIndex_loop_runs timestamps target (length timestamps)
              0 (len timestamps - 1)) as [o [Ho Hb]]; unfold len in *; try lia.
  split.
  { exists o. intros fuel Hfuel.
    apply (nearestIndex_loop_more_fuel timestamps target (length timestamps)); assumption. }
  assert (Hin : forall i, 0 <= i <= Z.of_nat (length timestamps) - 1 ->
            exists i', Value i = Value i' /\
              0 <= i' <= Z.of_nat (length timestamps) - 1 /\
              exists x, index timestamps i' = Some x).
  { intros i Hi. exists i. repeat split; try lia.
    apply index_in_range. unfold len. lia. }
  unfold nearestIndexByTimestamp, len.
  destruct (Z.eqb_spec (Z.of_nat (length timestamps)) 0); [lia |].
  rewrite Ho; simpl.
  destruct o as [mid | lo hi].
  - apply Hin; lia.
  - destruct (Z.leb_spec lo 0); [apply Hin; lia |].
    destruct (Z.geb_spec lo (Z.of_nat (length timestamps))); [apply Hin; lia |].
    destruct (dist_less _ _); apply Hin; lia.
Qed.

Lemma nearestIndexByTimestamp_in_bounds_witness :
  (exists o, forall fuel, (length [50; 10; 30] <= fuel)%nat ->
     nearestIndex_loop fuel [50; 10; 30] 20 0 (len [50; 10; 30] - 1) = Value o) /\
  exists i, nearestIndexByTimestamp [50; 10; 30] 20 = Value i /\
            0 <= i <= len [50; 10; 30] - 1 /\
            exists x, index [50; 10; 30] i = Some x.
Proof.
  apply (nearestIndexByTimestamp_in_bounds [50; 10; 30] 20). discriminate.
Defined.

(** ** Sorted arrays *)

Lemma index_cons {A : Type} (x : A) (xs : list A) (i : Z) :
  0 < i -> index (x :: xs) i = index xs (i - 1).
Proof.
  intros Hi. unfold index.
  destruct (Z.ltb_spec i 0); [lia |].
  destruct (Z.ltb_spec (i - 1) 0); [lia |].
  replace (Z.to_nat i) with (S (Z.to_nat (i - 1))) by lia.
  reflexivity.
Qed.

Lemma index_In {A : Type} (xs : list A) (i : Z) (x : A) :
  index xs i = Some x -> In x xs.
Proof.
  unfold index. destruct (i <? 0); [discriminate |]. apply nth_error_In.
Qed.

Lemma In_index {A : Type} (xs : list A) (x : A) :
  In x xs -> exists i, index xs i = Some x.
Proof.
  intros Hin. apply In_nth_error in Hin. destruct Hin as [n Hn].
  exists (Z.of_nat n). unfold index.
  destruct (Z.ltb_spec (Z.of_nat n) 0); [lia |].
  now rewrite Nat2Z.id.
Qed.

Lemma sorted_index {T : Type} (R : T -> T -> Prop) (xs : list T) :
  StronglySorted R xs ->
  forall i j a b, i < j -> index xs i = Some a -> index xs j = Some b -> R a b.
Proof.
  induction 1 as [| x xs Hs IH Hall]; intros i j a b Hij Ha Hb.
  - unfold index in Ha. destruct (i <? 0); [discriminate |].
    destruct (Z.to_nat i); discriminate.
  - assert (Hi : 0 <= i).
    { unfold index in Ha. destruct (Z.ltb_spec i 0); [discriminate | lia]. }
    rewrite (index_cons x xs j) in Hb by lia.
    destruct (Z.eq_dec i 0) as [-> | Hnz].
    + unfold index in Ha; simpl in Ha. injection Ha as <-.
      rewrite Forall_forall in Hall. apply Hall. eapply index_In; eauto.
    + rewrite (index_cons x xs i) in Ha by lia.
      apply (IH (i - 1) (j - 1)); auto; lia.
Qed.

Lemma ascending_index {T : Type} `{Timestamped T} (xs : list T) :
  ascending xs ->
  forall i j a b, i <= j -> index xs i = Some a -> index xs j = Some b ->
                  timestamp a <= timestamp b.
Proof.
  intros Hs i j a b Hij Ha Hb.
  destruct (Z.eq_dec i j) as [-> | Hne].
  - rewrite Ha in Hb. injection Hb as <-. lia.
  - eapply (sorted_index _ xs Hs i j); eauto; lia.
Qed.

Lemma strictly_ascending_ascending {T : Type} `{Timestamped T} (xs : list T) :
  strictly_ascending xs -> ascending xs.
Proof.
  unfold strictly_ascending, ascending.
  induction 1 as [| x xs Hs IH Hall]; constructor; auto.
  eapply Forall_impl; [| exact Hall]. simpl; intros; lia.
Qed.

(** ** The bisection loop on a sorted array *)

(** What the loop has established when it stops: an exact hit at [mid],
    or a cut [lo] with every element before it below the target and every
    element from it on above the target. *)
Lemma nearestIndex_loop_sorted (timestamps : list Z) (target : Z) :
  ascending timestamps ->
  forall (fuel : nat) (lo hi : Z),
    hi + 1 - lo <= Z.of_nat fuel ->
    0 <= lo <= hi + 1 -> hi < len timestamps ->
    (forall j x, j < lo -> index timestamps j = Some x -> x < target) ->
    (forall j x, hi < j -> index timestamps j = Some x -> target < x) ->
    exists o, nearestIndex_loop fuel timestamps target lo hi = Value o /\
      match o with
      | Returned mid => index timestamps mid = Some target
      | Exited lo' _ =>
          0 <= lo' <= len timestamps /\
          (forall j x, j < lo' -> index timestamps j = Some x -> x < target) /\
          (forall j x, lo' <= j -> index timestamps j = Some x -> target < x)
      end.
Proof.
  intros Hsorted.
  induction fuel as [| fuel IH]; intros lo hi Hfuel Hlo Hhi Hbelow Habove; simpl.
  - destruct (Z.leb_spec lo hi); [lia |].
    eexists; split; [reflexivity |]. simpl.
    repeat split; try lia; auto.
    intros j x Hj. apply Habove. lia.
  - destruct (Z.leb_spec lo hi) as [Hle | Hgt].
    + assert (Hmid : lo <= (lo + hi) / 2 <= hi).
      { split; [apply Z.div_le_lower_bound | apply Z.div_le_upper_bound]; lia. }
      set (mid := (lo + hi) / 2) in *.
      destruct (index_in_range timestamps mid) as [v Hv]; [lia |].
      rewrite Hv; simpl.
      destruct (Z.eqb_spec v target) as [-> | Hne].
      * eexists; split; [reflexivity | exact Hv].
      * destruct (Z.ltb_spec v target) as [Hlt | Hge].
        -- apply IH; try lia; auto.
           intros j x Hj Hx.
           pose proof (ascending_index timestamps Hsorted j mid x v) as Hord.
           unfold timestamp, Timestamped_number in Hord.
           assert (x <= v) by (apply Hord; auto; lia). lia.
        -- apply IH; try lia; auto.
           intros j x Hj Hx.
           pose proof (ascending_index timestamps Hsorted mid j v x) as Hord.
           unfold timestamp, Timestamped_number in Hord.
           assert (v <= x) by (apply Hord; auto; lia). lia.
    + eexists; split; [reflexivity |]. simpl.
      repeat split; try lia; auto.
      intros j x Hj. apply Habove. lia.
Qed.

Lemma nearestIndex_search (timestamps : list Z) (target : Z) :
  ascending timestamps -> timestamps <> [] ->
  exists o, nearestIndex_loop (length timestamps) timestamps target
              0 (len timestamps - 1) = Value o /\
    match o with
    | Returned mid => index timestamps mid = Some target
    | Exited lo _ =>
        0 <= lo <= len timestamps /\
        (forall j x, j < lo -> index timestamps j = Some x -> x < target) /\
        (forall j x, lo <= j -> index timestamps j = Some x -> target < x)
    end.
Proof.
  intros Hsorted Hne.
  assert (Hlen : 0 < len timestamps).
  { unfold len. destruct timestamps; [congruence | simpl; lia]. }
  apply nearestIndex_loop_sorted; auto; unfold len in *; try lia.
  - intros j x Hj Hx. unfold index in Hx.
    destruct (Z.ltb_spec j 0); [discriminate | lia].
  - intros j x Hj Hx.
    assert (0 <= j < len timestamps) by (apply index_Some_iff; eauto).
    unfold len in *; lia.
Qed.

(** C6. On a non-empty array sorted ascending, [nearestIndexByTimestamp]
    returns the index of an element at minimal absolute distance from the
    target: no element of the array is strictly closer. *)
Theorem nearestIndexByTimestamp_nearest (timestamps : list Z) (target : Z) :
  timestamps <> [] ->
  ascending timestamps ->
  exists i x,
    nearestIndexByTimestamp timestamps target = Value i /\
    index timestamps i = Some x /\
    forall j y, index timestamps j = Some y ->
                ~ Z.abs (y - target) < Z.abs (x - target).
Proof.
  intros Hne Hsorted.
  destruct (nearestIndex_search timestamps target Hsorted Hne) as [o [Ho Hpost]].
  assert (Hlen : 0 < len timestamps).
  { unfold len. destruct timestamps; [congruence | simpl; lia]. }
  pose proof (ascending_index timestamps Hsorted) as Hord.
  unfold timestamp, Timestamped_number in Hord.
  unfold nearestIndexByTimestamp.
  destruct (Z.eqb_spec (len timestamps) 0); [lia |].
  rewrite Ho; simpl.
  destruct o as [mid | lo hi].
  - exists mid, target. repeat split; auto. intros j y _. lia.
  - destruct Hpost as [Hlo [Hbelow Habove]].
    destruct (Z.leb_spec lo 0) as [Hz | Hpos].
    + destruct (index_in_range timestamps 0) as [x Hx]; [lia |].
      exists 0, x. repeat split; auto. intros j y Hy.
      assert (0 <= j < len timestamps) by (apply index_Some_iff; eauto).
      pose proof (Habove 0 x ltac:(lia) Hx).
      pose proof (Hord 0 j x y ltac:(lia) Hx Hy). lia.
    + destruct (Z.geb_spec lo (len timestamps)) as [Hend | Hmiddle].
      * destruct (index_in_range timestamps (len timestamps - 1)) as [x Hx]; [lia |].
        exists (len timestamps - 1), x. repeat split; auto. intros j y Hy.
        assert (0 <= j < len timestamps) by (apply index_Some_iff; eauto).
        pose proof (Hbelow (len timestamps - 1) x ltac:(lia) Hx).
        pose proof (Hord j (len timestamps - 1) y x ltac:(lia) Hy Hx). lia.
      * destruct (index_in_range timestamps lo) as [a Ha]; [lia |].
        destruct (index_in_range timestamps (lo - 1)) as [b Hb]; [lia |].
        rewrite Ha, Hb; simpl.
        pose proof (Habove lo a ltac:(lia) Ha).
        pose proof (Hbelow (lo - 1) b ltac:(lia) Hb).
        assert (Hfar : forall j y, index timestamps j = Some y ->
                  (y <= b /\ j < lo) \/ (a <= y /\ lo <= j)).
        { intros j y Hy. destruct (Z.lt_ge_cases j lo).
          - left. split; [apply (Hord j (lo - 1)); auto; lia | lia].
          - right. split; [apply (Hord lo j); auto; lia | lia]. }
        destruct (Z.ltb_spec (Z.abs (a - target)) (Z.abs (b - target))).
        -- exists lo, a. repeat split; auto. intros j y Hy.
           destruct (Hfar j y Hy) as [[? ?] | [? ?]]; lia.
        -- exists (lo - 1), b. repeat split; auto. intros j y Hy.
           destruct (Hfar j y Hy) as [[? ?] | [? ?]]; lia.
Qed.

Lemma nearestIndexByTimestamp_nearest_witness :
  exists i x,
    nearestIndexByTimestamp [10; 20; 40] 31 = Value i /\
    index [10; 20; 40] i = Some x /\
    forall j y, index [10; 20; 40] j = Some y ->
                ~ Z.abs (y - 31) < Z.abs (x - 31).
Proof.
  apply (nearestIndexByTimestamp_nearest [10; 20; 40] 31).
  - discriminate.
  - unfold ascending, timestamp, Timestamped_number.
    repeat constructor; lia.
Defined.

(** ** Exact ties *)

(** C1, as the specification words it, fails: on [[0; 2]] with target [1]
    both elements are at distance 1 and the function returns index 0, the
    earlier one, because the final comparison is the strict
    [|timestamps[lo] - target| < |timestamps[lo-1] - target|]. *)
Lemma nearestIndexByTimestamp_tie_later_fails :
  ~ (forall (timestamps : list Z) (target k a b : Z),
       strictly_ascending timestamps ->
       index timestamps k = Some a ->
       index timestamps (k + 1) = Some b ->
       Z.abs (a - target) = Z.abs (b - target) ->
       nearestIndexByTimestamp timestamps target = Value (k + 1)).
Proof.
  intros Hclaim.
  specialize (Hclaim [0; 2] 1 0 0 2).
  assert (Hrun : nearestIndexByTimestamp [0; 2] 1 = Value 0) by reflexivity.
  rewrite Hrun in Hclaim.
  assert (Hs : strictly_ascending [0; 2]).
  { unfold strictly_ascending, timestamp, Timestamped_number.
    repeat constructor; lia. }
  specialize (Hclaim Hs eq_refl eq_refl eq_refl).
  discriminate Hclaim.
Qed.

(** C1 (amended). On an array sorted strictly ascending, when the
    neighbours at [k] and [k+1] are exactly equidistant from the target,
    [nearestIndexByTimestamp] returns [k], the earlier index of the pair. *)
Theorem nearestIndexByTimestamp_tie_earlier
    (timestamps : list Z) (target k a b : Z) :
  strictly_ascending timestamps ->
  index timestamps k = Some a ->
  index timestamps (k + 1) = Some b ->
  Z.abs (a - target) = Z.abs (b - target) ->
  nearestIndexByTimestamp timestamps target = Value k.
Proof.
  intros Hstrict Ha Hb Htie.
  assert (Hab : a < b).
  { apply (sorted_index _ timestamps Hstrict k (k + 1) a b); auto; lia. }
  assert (Hbetween : a < target < b) by lia.
  assert (Hsorted : ascending timestamps)
    by (apply strictly_ascending_ascending; exact Hstrict).
  assert (Hk : 0 <= k < len timestamps) by (apply index_Some_iff; eauto).
  assert (Hk1 : 0 <= k + 1 < len timestamps) by (apply index_Some_iff; eauto).
  assert (Hne : timestamps <> []).
  { intros ->. unfold len in Hk; simpl in Hk. lia. }
  destruct (nearestIndex_search timestamps target Hsorted Hne) as [o [Ho Hpost]].
  pose proof (ascending_index timestamps Hsorted) as Hord.
  unfold timestamp, Timestamped_number in Hord.
  unfold nearestIndexByTimestamp.
  destruct (Z.eqb_spec (len timestamps) 0); [lia |].
  rewrite Ho; simpl.
  destruct o as [mid | lo hi].
  - exfalso. destruct (Z.le_gt_cases mid k).
    + pose proof (Hord mid k target a ltac:(lia) Hpost Ha). lia.
    + pose proof (Hord (k + 1) mid b target ltac:(lia) Hb Hpost). lia.
  - destruct Hpost as [Hlo [Hbelow Habove]].
    assert (Hcut : lo = k + 1).
    { destruct (Z.lt_trichotomy lo (k + 1)) as [Hlt | [Heq | Hgt]]; auto.
      - pose proof (Habove k a ltac:(lia) Ha). lia.
      - pose proof (Hbelow (k + 1) b ltac:(lia) Hb). lia. }
    subst lo.
    destruct (Z.leb_spec (k + 1) 0); [lia |].
    destruct (Z.geb_spec (k + 1) (len timestamps)); [lia |].
    replace (k + 1 - 1) with k by lia.
    rewrite Ha, Hb; simpl.
    destruct (Z.ltb_spec (Z.abs (b - target)) (Z.abs (a - target))); [lia |].
    reflexivity.
Qed.

Lemma nearestIndexByTimestamp_tie_earlier_witness :
  nearestIndexByTimestamp [10; 20; 30; 50] 40 = Value 2.
Proof.
  apply (nearestIndexByTimestamp_tie_earlier [10; 20; 30; 50] 40 2 30 50).
  - unfold strictly_ascending, timestamp, Timestamped_number.
    repeat constructor; lia.
  - reflexivity.
  - reflexivity.
  - reflexivity.
Defined.

(** ** findCloseAtOrBefore on a sorted array *)

Lemma findClose_loop_sorted (candles : list Candle) (targetTs : Z) :
  ascending candles ->
  forall (fuel : nat) (lo hi best : Z),
    hi + 1 - lo <= Z.of_nat fuel ->
    0 <= lo <= hi + 1 -> hi < len candles ->
    best = lo - 1 ->
    (forall j c, j < lo -> index candles j = Some c -> Candle.timestamp c <= targetTs) ->
    (forall j c, hi < j -> index candles j = Some c -> targetTs < Candle.timestamp c) ->
    exists best',
      findClose_loop fuel candles targetTs lo hi best = Value best' /\
      -1 <= best' < len candles /\
      (forall j c, j <= best' -> index candles j = Some c ->
                   Candle.timestamp c <= targetTs) /\
      (forall j c, best' < j -> index candles j = Some c ->
                   targetTs < Candle.timestamp c).
Proof.
  intros Hsorted.
  pose proof (ascending_index candles Hsorted) as Hord.
  unfold timestamp, Timestamped_Candle in Hord.
  induction fuel as [| fuel IH]; intros lo hi best Hfuel Hlo Hhi Hbest Hbelow Habove;
    simpl; destruct (Z.leb_spec lo hi) as [Hle | Hgt]; try lia.
  - exists best. split; [reflexivity |]. subst best.
    repeat split; try lia.
    + intros j c Hj. apply Hbelow. lia.
    + intros j c Hj. apply Habove. lia.
  - assert (Hmid : lo <= (lo + hi) / 2 <= hi).
    { split; [apply Z.div_le_lower_bound | apply Z.div_le_upper_bound]; lia. }
    set (mid := (lo + hi) / 2) in *.
    destruct (index_in_range candles mid) as [c Hc]; [lia |].
    unfold element. rewrite Hc; simpl.
    destruct (Z.leb_spec (Candle.timestamp c) targetTs) as [Hin | Hout].
    + apply IH; try lia; auto.
      intros j c' Hj Hc'.
      pose proof (Hord j mid c' c ltac:(lia) Hc' Hc). lia.
    + apply IH; try lia; auto.
      intros j c' Hj Hc'.
      pose proof (Hord mid j c c' ltac:(lia) Hc Hc'). lia.
  - exists best. split; [reflexivity |]. subst best.
    repeat split; try lia.
    + intros j c Hj. apply Hbelow. lia.
    + intros j c Hj. apply Habove. lia.
Qed.

(** The search returns the close at the cut [best]: everything up to
    [best] is at or before the target, everything after it is later. *)
Lemma findCloseAtOrBefore_cut (candles : list Candle) (targetTs : Z) :
  ascending candles ->
  exists best,
    findCloseAtOrBefore candles targetTs
      = Value (option_map Candle.close (index candles best)) /\
    -1 <= best < len candles /\
    (forall j c, j <= best -> index candles j = Some c ->
                 Candle.timestamp c <= targetTs) /\
    (forall j c, best < j -> index candles j = Some c ->
                 targetTs < Candle.timestamp c).
Proof.
  intros Hsorted. unfold findCloseAtOrBefore.
  destruct (Z.eqb_spec (len candles) 0) as [Hempty | Hne].
  - exists (-1). split; [reflexivity |].
    assert (Hnone : forall j (c : Candle), index candles j = Some c -> False).
    { intros j c Hc.
      assert (0 <= j < len candles) by (apply index_Some_iff; eauto). lia. }
    repeat split; try lia; intros j c _ Hc; destruct (Hnone j c Hc).
  - assert (Hlen : 0 < len candles) by (unfold len in *; lia).
    destruct (findClose_loop_sorted candles targetTs Hsorted (length candles)
                0 (len candles - 1) (-1)) as [best [Hrun [Hb [Hbelow Habove]]]];
      try (unfold len in *; lia).
    + intros j c Hj Hc. unfold index in Hc.
      destruct (Z.ltb_spec j 0); [discriminate | lia].
    + intros j c Hj Hc.
      assert (0 <= j < len candles) by (apply index_Some_iff; eauto). lia.
    + exists best. rewrite Hrun; simpl.
      split; [| repeat split; auto; lia].
      destruct (Z.ltb_spec best 0) as [Hneg | Hpos].
      * unfold index. destruct (Z.ltb_spec best 0); [reflexivity | lia].
      * destruct (index_in_range candles best) as [c Hc]; [lia |].
        unfold element. rewrite Hc. reflexivity.
Qed.

(** C5. On candles sorted ascending by timestamp, [findCloseAtOrBefore]
    returns [null] exactly when no candle has a timestamp at or before the
    target, and otherwise the close of a candle whose timestamp is the
    largest one at or before the target. *)
Theorem findCloseAtOrBefore_spec (candles : list Candle) (targetTs : Z) :
  ascending candles ->
  exists r,
    findCloseAtOrBefore candles targetTs = Value r /\
    (r = None <->
       forall c, In c candles -> ~ Candle.timestamp c <= targetTs) /\
    (forall q, r = Some q ->
       exists c, In c candles /\ Candle.close c = q /\
                 Candle.timestamp c <= targetTs /\
                 forall c', In c' candles -> Candle.timestamp c' <= targetTs ->
                            Candle.timestamp c' <= Candle.timestamp c).
Proof.
  intros Hsorted.
  destruct (findCloseAtOrBefore_cut candles targetTs Hsorted)
    as [best [Hrun [Hb [Hbelow Habove]]]].
  pose proof (ascending_index candles Hsorted) as Hord.
  unfold timestamp, Timestamped_Candle in Hord.
  eexists; split; [exact Hrun |].
  destruct (index candles best) as [c |] eqn:Hc; simpl.
  - split.
    + split; [discriminate |].
      intros Hnone. exfalso. apply (Hnone c); [eapply index_In; eauto |].
      apply (Hbelow best c); auto; lia.
    + intros q Hq. injection Hq as <-.
      exists c. repeat split.
      * eapply index_In; eauto.
      * apply (Hbelow best c); auto; lia.
      * intros c' Hin Hle.
        destruct (In_index candles c' Hin) as [j Hj].
        destruct (Z.le_gt_cases j best).
        -- apply (Hord j best c' c); auto.
        -- pose proof (Habove j c' ltac:(lia) Hj). lia.
  - split; [| discriminate].
    split; [| reflexivity].
    intros _ c Hin Hle.
    destruct (In_index candles c Hin) as [j Hj].
    assert (0 <= j < len candles) by (apply index_Some_iff; eauto).
    destruct (Z.le_gt_cases j best).
    + assert (0 <= best < len candles) by lia.
      destruct (index_in_range candles best) as [c' Hc']; [lia |]. congruence.
    + pose proof (Habove j c ltac:(lia) Hj). lia.
Qed.

Lemma findCloseAtOrBefore_spec_witness :
  exists r,
    findCloseAtOrBefore
      [sampleCandle 1000 (3 # 10); sampleCandle 2000 (4 # 10); sampleCandle 3000 (6 # 10)]
      2500 = Value r /\
    (r = None <->
       forall c,
         In c [sampleCandle 1000 (3 # 10); sampleCandle 2000 (4 # 10);
               sampleCandle 3000 (6 # 10)] ->
         ~ Candle.timestamp c <= 2500) /\
    (forall q, r = Some q ->
       exists c,
         In c [sampleCandle 1000 (3 # 10); sampleCandle 2000 (4 # 10);
               sampleCandle 3000 (6 # 10)] /\
         Candle.close c = q /\ Candle.timestamp c <= 2500 /\
         forall c',
           In c' [sampleCandle 1000 (3 # 10); sampleCandle 2000 (4 # 10);
                  sampleCandle 3000 (6 # 10)] ->
           Candle.timestamp c' <= 2500 ->
           Candle.timestamp c' <= Candle.timestamp c).
Proof.
  apply (findCloseAtOrBefore_spec
           [sampleCandle 1000 (3 # 10); sampleCandle 2000 (4 # 10);
            sampleCandle 3000 (6 # 10)] 2500).
  unfold ascending, timestamp, Timestamped_Candle.
  repeat constructor; simpl; lia.
Defined.

(** ** Clipping *)

Lemma in_range_iff {T : Type} `{Timestamped T} (r : TimeRange) (p : T) :
  in_range r p = true <-> startMs r <= timestamp p <= endMs r.
Proof.
  unfold in_range. rewrite andb_true_iff, Z.geb_le, Z.leb_le. lia.
Qed.

Lemma filter_Subsequence {A : Type} (f : A -> bool) (l : list A) :
  Subsequence (filter f l) l.
Proof.
  induction l as [| x l IH]; simpl.
  - constructor.
  - destruct (f x); constructor; exact IH.
Qed.

Lemma Subsequence_filter {A : Type} (f : A -> bool) (s l : list A) :
  Subsequence s l -> Forall (fun x => f x = true) s -> Subsequence s (filter f l).
Proof.
  induction 1 as [| x s l Hsub IH | x s l Hsub IH]; intros Hall; simpl.
  - constructor.
  - inversion Hall as [| ? ? Hx Hs]; subst. rewrite Hx.
    constructor. apply IH. exact Hs.
  - destruct (f x); [constructor |]; apply IH; exact Hall.
Qed.

(** C8. With a [null] range [clipPointsToRange] returns its argument.
    With a range it returns the points whose timestamp lies in
    [[startMs, endMs]], both ends included, in their original order: the
    result is a subsequence of the input, all of its points are in the
    range, and it contains every subsequence of in-range points. *)
Theorem clipPointsToRange_spec {T : Type} `{Timestamped T} (points : list T) :
  clipPointsToRange points None = points /\
  forall r : TimeRange,
    Subsequence (clipPointsToRange points (Some r)) points /\
    Forall (fun p => startMs r <= timestamp p <= endMs r)
           (clipPointsToRange points (Some r)) /\
    (forall p, In p (clipPointsToRange points (Some r)) <->
               In p points /\ startMs r <= timestamp p <= endMs r) /\
    forall s, Subsequence s points ->
              Forall (fun p => startMs r <= timestamp p <= endMs r) s ->
              Subsequence s (clipPointsToRange points (Some r)).
Proof.
  split; [reflexivity |].
  intros r. simpl.
  assert (Hmem : forall p, In p (filter (in_range r) points) <->
                           In p points /\ startMs r <= timestamp p <= endMs r).
  { intros p. rewrite filter_In, in_range_iff. tauto. }
  split; [apply filter_Subsequence |].
  split; [apply Forall_forall; intros p Hp; apply Hmem; exact Hp |].
  split; [exact Hmem |].
  intros s Hsub Hall. apply Subsequence_filter; [exact Hsub |].
  eapply Forall_impl; [| exact Hall].
  intros p Hp. apply in_range_iff. exact Hp.
Qed.

(** ** Candlestick normalisation *)

Lemma normalizeCandlestick_resolved (c : KalshiCandlestick) (candle : Candle) :
  normalizeCandlestick c = Some candle ->
  exists source ts,
    nullish (KalshiCandlestick.price c) (KalshiCandlestick.yes_bid c) = Some source /\
    KalshiCandlestick.end_period_ts c = Some ts /\
    Candle.timestamp candle = ts * 1000 /\
    forall k, resolved k source = Some (component k candle).
Proof.
  unfold normalizeCandlestick.
  destruct (nullish _ _) as [source |]; [| discriminate].
  destruct (nullish (parseDollar (KalshiCandlestickField.open_dollars source)) _)
    as [o |] eqn:Ho; [| discriminate].
  destruct (nullish (parseDollar (KalshiCandlestickField.high_dollars source)) _)
    as [h |] eqn:Hh; [| discriminate].
  destruct (nullish (parseDollar (KalshiCandlestickField.low_dollars source)) _)
    as [l |] eqn:Hl; [| discriminate].
  destruct (nullish (parseDollar (KalshiCandlestickField.close_dollars source)) _)
    as [cl |] eqn:Hcl; [| discriminate].
  destruct (KalshiCandlestick.end_period_ts c) as [ts |]; [| discriminate].
  intros Heq. injection Heq as <-.
  exists source, ts. repeat split.
  intros [| | |]; unfold resolved; simpl; assumption.
Qed.

Lemma normalizeCandlestick_kept (c : KalshiCandlestick)
    (source : KalshiCandlestickField) :
  nullish (KalshiCandlestick.price c) (KalshiCandlestick.yes_bid c) = Some source ->
  KalshiCandlestick.end_period_ts c <> None ->
  (forall k, resolved k source <> None) ->
  normalizeCandlestick c <> None.
Proof.
  intros Hsrc Hts Hall. unfold normalizeCandlestick. rewrite Hsrc.
  pose proof (Hall Open) as Ho. pose proof (Hall High) as Hh.
  pose proof (Hall Low) as Hl. pose proof (Hall Close) as Hc.
  unfold resolved in Ho, Hh, Hl, Hc; simpl in Ho, Hh, Hl, Hc.
  destruct (nullish (parseDollar (KalshiCandlestickField.open_dollars source)) _);
    [| congruence].
  destruct (nullish (parseDollar (KalshiCandlestickField.high_dollars source)) _);
    [| congruence].
  destruct (nullish (parseDollar (KalshiCandlestickField.low_dollars source)) _);
    [| congruence].
  destruct (nullish (parseDollar (KalshiCandlestickField.close_dollars source)) _);
    [| congruence].
  destruct (KalshiCandlestick.end_period_ts c); [discriminate | congruence].
Qed.

Lemma normalizeCandlestick_dropped (c : KalshiCandlestick)
    (source : KalshiCandlestickField) (k : Component) :
  nullish (KalshiCandlestick.price c) (KalshiCandlestick.yes_bid c) = Some source ->
  resolved k source = None ->
  normalizeCandlestick c = None.
Proof.
  intros Hsrc Hk.
  destruct (normalizeCandlestick c) as [candle |] eqn:E; [| reflexivity].
  destruct (normalizeCandlestick_resolved c candle E) as [src [ts [Hs [_ [_ Hall]]]]].
  rewrite Hsrc in Hs. injection Hs as <-.
  rewrite Hall in Hk. discriminate.
Qed.

Lemma nonNull_app {A : Type} (xs ys : list (option A)) :
  nonNull (xs ++ ys) = nonNull xs ++ nonNull ys.
Proof.
  induction xs as [| [x |] xs IH]; simpl; [reflexivity | f_equal; exact IH | exact IH].
Qed.

(** The candles of a provider response, candlestick by candlestick. *)
Lemma normalizeCandles_split (ticker : option string) (marketId : string)
    (before after : list KalshiCandlestick) (c : KalshiCandlestick) :
  PriceResponse.candles
    (normalizeCandles
       (Candlesticks (KalshiCandlestickResponse.mk ticker (Some (before ++ c :: after))))
       marketId)
  = nonNull (map normalizeCandlestick before)
    ++ match normalizeCandlestick c with
       | Some candle => [candle]
       | None => []
       end
    ++ nonNull (map normalizeCandlestick after).
Proof.
  simpl. rewrite map_app, nonNull_app. simpl.
  destruct (normalizeCandlestick c); reflexivity.
Qed.

(** C2, as the specification words it, fails: a malformed [open_dollars]
    next to a numeric [open] in cents does not drop the candlestick. *)
Lemma malformed_dollars_not_always_dropped :
  ~ (forall (c : KalshiCandlestick) (source : KalshiCandlestickField)
            (k : Component) (s : string),
       nullish (KalshiCandlestick.price c) (KalshiCandlestick.yes_bid c) = Some source ->
       dollarsField k source = Some s ->
       isFinite (Number s) = false ->
       normalizeCandlestick c = None).
Proof.
  intros Hclaim.
  specialize (Hclaim sampleMalformedOpen _ Open "abc"%string eq_refl eq_refl eq_refl).
  vm_compute in Hclaim. discriminate Hclaim.
Qed.

(** C2 (amended). When the dollar string of a component is malformed,
    [parseDollar] answers [null] for it and the component falls back to
    the cents field: without a numeric cents field the candlestick is
    dropped from the normalised output; with one, the component is the
    cents value divided by 100 and the candlestick is kept as soon as the
    other components and the period timestamp are present. *)
Theorem malformed_dollars_fall_back_to_cents
    (c : KalshiCandlestick) (source : KalshiCandlestickField)
    (k : Component) (s : string) :
  nullish (KalshiCandlestick.price c) (KalshiCandlestick.yes_bid c) = Some source ->
  dollarsField k source = Some s ->
  isFinite (Number s) = false ->
  parseDollar (Some s) = None /\
  (centsField k source = None ->
     normalizeCandlestick c = None /\
     forall ticker marketId before after,
       PriceResponse.candles
         (normalizeCandles
            (Candlesticks
               (KalshiCandlestickResponse.mk ticker (Some (before ++ c :: after))))
            marketId)
       = nonNull (map normalizeCandlestick before)
         ++ nonNull (map normalizeCandlestick after)) /\
  (forall cents, centsField k source = Some cents ->
     (forall candle, normalizeCandlestick c = Some candle ->
                     component k candle = (cents / 100)%Q) /\
     (KalshiCandlestick.end_period_ts c <> None ->
      (forall k', k' <> k -> resolved k' source <> None) ->
      normalizeCandlestick c <> None)).
Proof.
  intros Hsrc Hdollars Hmalformed.
  assert (Hparse : parseDollar (Some s) = None).
  { simpl. destruct (Number s); [reflexivity | reflexivity | discriminate]. }
  assert (Hres : resolved k source = centsToDollars (centsField k source)).
  { unfold resolved. rewrite Hdollars, Hparse. reflexivity. }
  split; [exact Hparse |]. split.
  - intros Hcents.
    assert (Hdrop : normalizeCandlestick c = None).
    { apply (normalizeCandlestick_dropped c source k Hsrc).
      rewrite Hres, Hcents. reflexivity. }
    split; [exact Hdrop |].
    intros ticker marketId before after.
    rewrite normalizeCandles_split, Hdrop. reflexivity.
  - intros cents Hcents. split.
    + intros candle Hcandle.
      destruct (normalizeCandlestick_resolved c candle Hcandle)
        as [src [ts [Hs [_ [_ Hall]]]]].
      rewrite Hsrc in Hs. injection Hs as <-.
      specialize (Hall k). rewrite Hres, Hcents in Hall. simpl in Hall.
      congruence.
    + intros Hts Hothers.
      apply (normalizeCandlestick_kept c source Hsrc Hts).
      intros k'. destruct k, k';
        try (apply Hothers; discriminate);
        rewrite Hres, Hcents; discriminate.
Qed.

Lemma malformed_dollars_fall_back_to_cents_witness :
  isFinite (Number "abc") = false /\
  parseDollar (Some "abc"%string) = None /\
  exists candle, normalizeCandlestick sampleMalformedOpen = Some candle /\
                 Candle.open candle = (55 / 100)%Q.
Proof.
  destruct (malformed_dollars_fall_back_to_cents sampleMalformedOpen _ Open "abc"%string
              eq_refl eq_refl eq_refl) as [Hparse [_ Hcents]].
  split; [reflexivity |].
  split; [exact Hparse |].
  destruct (Hcents 55%Q eq_refl) as [Hvalue _].
  eexists. split; [reflexivity |].
  apply Hvalue. reflexivity.
Defined.

(** C7, as the specification words it, fails for the same input: both
    fields are present and the normalised value is the cents value over
    100, not a value parsed from the dollar string. *)
Lemma dollars_not_always_preferred :
  ~ (forall (c : KalshiCandlestick) (source : KalshiCandlestickField)
            (k : Component) (s : string) (cents : Q) (candle : Candle),
       nullish (KalshiCandlestick.price c) (KalshiCandlestick.yes_bid c) = Some source ->
       dollarsField k source = Some s ->
       centsField k source = Some cents ->
       normalizeCandlestick c = Some candle ->
       Number s = Finite (component k candle)).
Proof.
  intros Hclaim.
  destruct (normalizeCandlestick sampleMalformedOpen) as [candle |] eqn:E;
    [| vm_compute in E; discriminate E].
  specialize (Hclaim sampleMalformedOpen _ Open "abc"%string 55%Q candle
                eq_refl eq_refl eq_refl E).
  vm_compute in Hclaim. discriminate Hclaim.
Qed.

(** C7 (amended). When a component carries both a dollar string that
    parses to a finite number and a cents field, the normalised candle
    holds the parsed dollar value for it. *)
Theorem dollars_take_precedence
    (c : KalshiCandlestick) (source : KalshiCandlestickField)
    (k : Component) (s : string) (cents dollars : Q) (candle : Candle) :
  nullish (KalshiCandlestick.price c) (KalshiCandlestick.yes_bid c) = Some source ->
  dollarsField k source = Some s ->
  centsField k source = Some cents ->
  Number s = Finite dollars ->
  normalizeCandlestick c = Some candle ->
  component k candle = dollars.
Proof.
  intros Hsrc Hdollars Hcents Hparse Hcandle.
  destruct (normalizeCandlestick_resolved c candle Hcandle)
    as [src [ts [Hs [_ [_ Hall]]]]].
  rewrite Hsrc in Hs. injection Hs as <-.
  specialize (Hall k). unfold resolved in Hall.
  rewrite Hdollars in Hall. simpl in Hall. rewrite Hparse in Hall.
  simpl in Hall. congruence.
Qed.

Lemma dollars_take_precedence_witness :
  exists dollars candle,
    Number "0.56" = Finite dollars /\ (dollars == 56 # 100)%Q /\
    normalizeCandlestick sampleBothUnits = Some candle /\
    Candle.open candle = dollars /\ ~ (Candle.open candle == 55 / 100)%Q.
Proof.
  eexists. eexists.
  split; [reflexivity |].
  split; [reflexivity |].
  split; [reflexivity |].
  split.
  - eapply (dollars_take_precedence sampleBothUnits _ Open "0.56"%string 55%Q);
      reflexivity.
  - discriminate.
Defined.

(** ** The seat projection *)

Lemma lastCloseAtOrBefore_cut (T : Z) (candles : list Candle) :
  forall best,
    -1 <= best < len candles ->
    (forall j c, j <= best -> index candles j = Some c -> Candle.timestamp c <= T) ->
    (forall j c, best < j -> index candles j = Some c -> T < Candle.timestamp c) ->
    lastCloseAtOrBefore candles T = option_map Candle.close (index candles best).
Proof.
  induction candles as [| c rest IH]; intros best Hb Hbelow Habove.
  - unfold len in Hb; simpl in Hb.
    assert (best = -1) by lia. subst best. reflexivity.
  - assert (Hlen : len (c :: rest) = len rest + 1).
    { unfold len. simpl length. lia. }
    simpl.
    destruct (Z.eq_dec best (-1)) as [-> | Hnn].
    + rewrite (IH (-1)).
      * assert (Hc : T < Candle.timestamp c) by (apply (Habove 0 c); [lia | reflexivity]).
        simpl. destruct (Z.leb_spec (Candle.timestamp c) T); [lia | reflexivity].
      * unfold len. lia.
      * intros j c' Hj Hc'. unfold index in Hc'.
        destruct (Z.ltb_spec j 0); [discriminate | lia].
      * intros j c' Hj Hc'.
        assert (0 <= j) by (unfold index in Hc'; destruct (Z.ltb_spec j 0); [discriminate | lia]).
        apply (Habove (j + 1) c'); [lia |].
        rewrite index_cons by lia. replace (j + 1 - 1) with j by lia. exact Hc'.
    + rewrite (IH (best - 1)).
      * destruct (Z.eq_dec best 0) as [-> | Hpos].
        -- assert (Hc : Candle.timestamp c <= T) by (apply (Hbelow 0 c); [lia | reflexivity]).
           simpl. destruct (Z.leb_spec (Candle.timestamp c) T); [reflexivity | lia].
        -- rewrite (index_cons c rest best) by lia.
           destruct (index_in_range rest (best - 1)) as [c' Hc']; [lia |].
           rewrite Hc'. reflexivity.
      * lia.
      * intros j c' Hj Hc'.
        assert (0 <= j) by (unfold index in Hc'; destruct (Z.ltb_spec j 0); [discriminate | lia]).
        apply (Hbelow (j + 1) c'); [lia |].
        rewrite index_cons by lia. replace (j + 1 - 1) with j by lia. exact Hc'.
      * intros j c' Hj Hc'.
        assert (0 <= j) by (unfold index in Hc'; destruct (Z.ltb_spec j 0); [discriminate | lia]).
        apply (Habove (j + 1) c'); [lia |].
        rewrite index_cons by lia. replace (j + 1 - 1) with j by lia. exact Hc'.
Qed.

(** On a sorted array the binary search finds what a scan from the end
    finds. *)
Lemma findCloseAtOrBefore_last (candles : list Candle) (T : Z) :
  ascending candles ->
  findCloseAtOrBefore candles T = Value (lastCloseAtOrBefore candles T).
Proof.
  intros Hsorted.
  destruct (findCloseAtOrBefore_cut candles T Hsorted)
    as [best [Hrun [Hb [Hbelow Habove]]]].
  rewrite Hrun. f_equal. symmetry.
  apply lastCloseAtOrBefore_cut; assumption.
Qed.

Lemma positive_iff (x : Q) : positive x = true <-> (0 < x)%Q.
Proof.
  unfold positive. rewrite negb_true_iff. split.
  - intros Hle. apply Qnot_le_lt. intros Hx.
    apply Qle_bool_iff in Hx. congruence.
  - intros Hlt. destruct (Qle_bool x 0) eqn:E; [| reflexivity].
    apply Qle_bool_iff in E. apply Qle_not_lt in E. contradiction.
Qed.

Lemma positive_Qeq (x y : Q) : (x == y)%Q -> positive x = positive y.
Proof.
  intros Heq.
  destruct (positive x) eqn:Ex, (positive y) eqn:Ey; try reflexivity.
  - apply positive_iff in Ex. rewrite Heq in Ex. apply positive_iff in Ex. congruence.
  - apply positive_iff in Ey. rewrite <- Heq in Ey. apply positive_iff in Ey. congruence.
Qed.

Lemma accumulate_sums (markets : list SeatMarket) (T : Z) :
  Forall (fun m => ascending (SeatMarket.candles m)) markets ->
  forall weighted totalProb,
  exists weighted' totalProb',
    accumulate markets T weighted totalProb = Value (weighted', totalProb') /\
    (weighted' == weighted + sumOfWeightedSeats markets T)%Q /\
    (totalProb' == totalProb + sumOfPrices markets T)%Q.
Proof.
  induction 1 as [| m markets Hm Hrest IH]; intros weighted totalProb.
  - exists weighted, totalProb. split; [reflexivity |].
    unfold sumOfWeightedSeats, sumOfPrices; simpl. split; lra.
  - simpl. rewrite (findCloseAtOrBefore_last _ T Hm). simpl.
    unfold sumOfWeightedSeats, sumOfPrices; simpl. unfold priceAt at 1 3.
    destruct (lastCloseAtOrBefore (SeatMarket.candles m) T) as [p |].
    + destruct (IH (weighted + SeatMarket.seats m * p)%Q (totalProb + p)%Q)
        as [w' [t' [Hrun [Hw Ht]]]].
      exists w', t'. split; [exact Hrun |].
      unfold sumOfWeightedSeats, sumOfPrices in Hw, Ht.
      split; [rewrite Hw | rewrite Ht]; ring.
    + destruct (IH weighted totalProb) as [w' [t' [Hrun [Hw Ht]]]].
      exists w', t'. split; [exact Hrun |].
      unfold sumOfWeightedSeats, sumOfPrices in Hw, Ht.
      split; [rewrite Hw | rewrite Ht]; ring.
Qed.

Lemma projectionLoop_points (markets : list SeatMarket) :
  Forall (fun m => ascending (SeatMarket.candles m)) markets ->
  forall (timestamps : list Z) (points : list ProjectionPoint),
  exists pushed,
    projectionLoop markets timestamps points = Value (points ++ pushed) /\
    map ProjectionPoint.timestamp pushed
      = filter (fun T => positive (sumOfPrices markets T)) timestamps /\
    Forall (fun pt =>
              (ProjectionPoint.value pt ==
               sumOfWeightedSeats markets (ProjectionPoint.timestamp pt)
               / sumOfPrices markets (ProjectionPoint.timestamp pt))%Q) pushed.
Proof.
  intros Hsorted.
  induction timestamps as [| ts rest IH]; intros points.
  - exists []. rewrite app_nil_r. repeat split; constructor.
  - simpl.
    destruct (accumulate_sums markets ts Hsorted 0%Q 0%Q) as [w [t [Hrun [Hw Ht]]]].
    rewrite Hrun; simpl.
    assert (Ht' : (t == sumOfPrices markets ts)%Q) by (rewrite Ht; ring).
    assert (Hw' : (w == sumOfWeightedSeats markets ts)%Q) by (rewrite Hw; ring).
    rewrite <- (positive_Qeq _ _ Ht').
    destruct (positive t) eqn:Hpos.
    + destruct (IH (points ++ [ProjectionPoint.mk ts (w / t)%Q]))
        as [pushed [Hloop [Hts Hvals]]].
      exists (ProjectionPoint.mk ts (w / t)%Q :: pushed).
      split; [rewrite Hloop, <- app_assoc; reflexivity |].
      split; [simpl; f_equal; exact Hts |].
      constructor; [| exact Hvals].
      simpl. rewrite Hw', Ht'. reflexivity.
    + destruct (IH points) as [pushed [Hloop [Hts Hvals]]].
      exists pushed. repeat split; assumption.
Qed.

(** ** The stable sort by timestamp *)

Lemma insertByTimestamp_perm {T : Type} `{Timestamped T} (x : T) (l : list T) :
  Permutation (insertByTimestamp x l) (x :: l).
Proof.
  induction l as [| y l IH]; simpl.
  - apply Permutation_refl.
  - destruct (timestamp x <=? timestamp y).
    + apply Permutation_refl.
    + eapply perm_trans; [apply perm_skip; exact IH | apply perm_swap].
Qed.

Lemma sortByTimestamp_perm {T : Type} `{Timestamped T} (l : list T) :
  Permutation (sortByTimestamp l) l.
Proof.
  induction l as [| x l IH]; simpl.
  - apply perm_nil.
  - eapply perm_trans; [apply insertByTimestamp_perm | apply perm_skip; exact IH].
Qed.

Lemma insertByTimestamp_ascending {T : Type} `{Timestamped T} (x : T) (l : list T) :
  ascending l -> ascending (insertByTimestamp x l).
Proof.
  unfold ascending.
  induction 1 as [| y l Hs IH Hall]; simpl.
  - repeat constructor.
  - destruct (Z.leb_spec (timestamp x) (timestamp y)) as [Hle | Hgt].
    + constructor; [constructor; assumption |].
      constructor; [exact Hle |].
      eapply Forall_impl; [| exact Hall]. simpl; intros; lia.
    + constructor; [exact IH |].
      apply (Permutation_Forall (Permutation_sym (insertByTimestamp_perm x l))).
      constructor; [lia | exact Hall].
Qed.

Lemma sortByTimestamp_ascending {T : Type} `{Timestamped T} (l : list T) :
  ascending (sortByTimestamp l).
Proof.
  induction l as [| x l IH]; simpl.
  - constructor.
  - apply insertByTimestamp_ascending. exact IH.
Qed.

Lemma ascending_NoDup_strict {T : Type} `{Timestamped T} (l : list T) :
  ascending l -> NoDup (map timestamp l) -> strictly_ascending l.
Proof.
  unfold ascending, strictly_ascending.
  induction 1 as [| x l Hs IH Hall]; intros Hnd; simpl in Hnd.
  - constructor.
  - inversion Hnd as [| ? ? Hnotin Hnd']; subst.
    constructor; [apply IH; exact Hnd' |].
    rewrite Forall_forall in *. intros y Hy.
    specialize (Hall y Hy).
    assert (timestamp x <> timestamp y).
    { intros Heq. apply Hnotin. rewrite Heq. apply in_map. exact Hy. }
    lia.
Qed.

(** ** The reference timestamps of the seat projection *)

Lemma uniqueInOrder_from (xs : list Z) :
  forall seen : list Z,
    NoDup seen ->
    NoDup (fold_left (fun seen x => if existsb (Z.eqb x) seen then seen else seen ++ [x])
                     xs seen) /\
    forall x,
      In x (fold_left (fun seen x => if existsb (Z.eqb x) seen then seen else seen ++ [x])
                      xs seen)
      <-> In x seen \/ In x xs.
Proof.
  induction xs as [| a xs IH]; intros seen Hnd; simpl.
  - split; [exact Hnd | intros x; tauto].
  - destruct (existsb (Z.eqb a) seen) eqn:E.
    + destruct (IH seen Hnd) as [H1 H2]. split; [exact H1 |].
      intros x. rewrite H2.
      apply existsb_exists in E. destruct E as [y [Hy Heq]].
      apply Z.eqb_eq in Heq. subst y.
      split; [tauto | intros [H | [H | H]]; [tauto | subst; tauto | tauto]].
    + assert (Hnotin : ~ In a seen).
      { intros Hin.
        assert (existsb (Z.eqb a) seen = true)
          by (apply existsb_exists; exists a; split; [exact Hin | apply Z.eqb_refl]).
        congruence. }
      assert (Hnd' : NoDup (seen ++ [a])).
      { apply (Permutation_NoDup (Permutation_cons_append seen a)).
        constructor; assumption. }
      destruct (IH (seen ++ [a]) Hnd') as [H1 H2]. split; [exact H1 |].
      intros x. rewrite H2, in_app_iff. simpl. tauto.
Qed.

Lemma uniqueInOrder_NoDup (xs : list Z) : NoDup (uniqueInOrder xs).
Proof. apply (uniqueInOrder_from xs []). constructor. Qed.

Lemma uniqueInOrder_In (xs : list Z) (x : Z) : In x (uniqueInOrder xs) <-> In x xs.
Proof.
  unfold uniqueInOrder.
  destruct (uniqueInOrder_from xs [] (NoDup_nil Z)) as [_ Hin].
  rewrite Hin. simpl. tauto.
Qed.

(** Without reference timestamps the projection runs over the distinct
    candle timestamps of the basket, in ascending order. *)
Lemma baseTimestamps_derived (referenceTimestamps : option (list Z))
    (markets : list SeatMarket) :
  referenceTimestamps = None \/ referenceTimestamps = Some [] ->
  strictly_ascending (baseTimestamps referenceTimestamps markets) /\
  forall T,
    In T (baseTimestamps referenceTimestamps markets) <->
    exists m c, In m markets /\ In c (SeatMarket.candles m) /\ Candle.timestamp c = T.
Proof.
  intros Href.
  assert (Hbase : baseTimestamps referenceTimestamps markets
                  = sortByTimestamp
                      (uniqueInOrder
                         (flat_map (fun r => map Candle.timestamp (SeatMarket.candles r))
                                   markets)))
    by (destruct Href; subst; reflexivity).
  rewrite Hbase. clear Hbase Href.
  remember (flat_map (fun r => map Candle.timestamp (SeatMarket.candles r)) markets)
    as all eqn:Hall.
  split.
  - apply ascending_NoDup_strict; [apply sortByTimestamp_ascending |].
    unfold timestamp, Timestamped_number. rewrite map_id.
    apply (Permutation_NoDup (Permutation_sym (sortByTimestamp_perm _))).
    apply uniqueInOrder_NoDup.
  - intros T. split.
    + intros H. apply (Permutation_in _ (sortByTimestamp_perm _)) in H.
      apply (proj1 (uniqueInOrder_In _ _)) in H. subst all.
      apply in_flat_map in H. destruct H as [m [Hm Hc]].
      apply in_map_iff in Hc. destruct Hc as [c [Hc1 Hc2]].
      exists m, c. tauto.
    + intros [m [c [Hm [Hc Heq]]]].
      apply (Permutation_in _ (Permutation_sym (sortByTimestamp_perm _))).
      apply (proj2 (uniqueInOrder_In _ _)). subst all.
      apply in_flat_map. exists m. split; [exact Hm |].
      apply in_map_iff. exists c. tauto.
Qed.

(** ** The seat projection *)

(** C3, as the specification words it, fails: it speaks of every basket
    with fetched candle histories, and the search that reads a market's
    price assumes a history sorted by timestamp, which nothing in
    [fetchExpectedSeatsProjection] establishes.  On a history holding a
    candle at 2000 before a candle at 1000, both closing at 0.5, the
    search for 1000 looks at the candle at 2000 first, moves left and
    finds nothing: the sum of the last closes at or before 1000 is 0.5,
    strictly positive, and no point is emitted at 1000. *)
Lemma expectedSeats_unsorted_history_fails :
  expectedSeatsPoints sampleUnsortedBasket (Some [1000]) = Value [] /\
  (0 < sumOfPrices sampleUnsortedBasket 1000)%Q /\
  ~ (forall (markets : list SeatMarket) (referenceTimestamps : option (list Z)) (T : Z),
       In T (baseTimestamps referenceTimestamps markets) ->
       exists points,
         expectedSeatsPoints markets referenceTimestamps = Value points /\
         ((exists pt, In pt points /\ ProjectionPoint.timestamp pt = T) <->
          (0 < sumOfPrices markets T)%Q)).
Proof.
  assert (Hrun : expectedSeatsPoints sampleUnsortedBasket (Some [1000]) = Value [])
    by (vm_compute; reflexivity).
  assert (Hpos : (0 < sumOfPrices sampleUnsortedBasket 1000)%Q)
    by (vm_compute; reflexivity).
  split; [exact Hrun |]. split; [exact Hpos |].
  intros Hclaim.
  destruct (Hclaim sampleUnsortedBasket (Some [1000]) 1000) as [points [Hpoints Hiff]].
  - simpl. tauto.
  - rewrite Hrun in Hpoints. injection Hpoints as <-.
    destruct (proj2 Hiff Hpos) as [pt [Hin _]].
    exact Hin.
Qed.

(** C3 (amended). The reference timestamps are the caller's when it
    passes a non-empty list; otherwise they are the distinct candle
    timestamps of the basket, in strictly ascending order.  For seat
    markets whose candle histories are each sorted ascending by timestamp,
    the projection emits, in the order of the reference timestamps, one
    point for each timestamp [T] at which the sum over the markets of the
    last close at or before [T] is strictly positive, and no other point;
    the value of the point at [T] is the sum of [seats * p] divided by the
    sum of [p], a market without a candle at or before [T] contributing
    nothing.  With prices 0.3 and 0.7 for 10 and 20 seats the value is 17. *)
Theorem expectedSeats_weighted_average
    (markets : list SeatMarket) (referenceTimestamps : option (list Z)) :
  ((forall t rest, referenceTimestamps = Some (t :: rest) ->
      baseTimestamps referenceTimestamps markets = t :: rest) /\
   (referenceTimestamps = None \/ referenceTimestamps = Some [] ->
      strictly_ascending (baseTimestamps referenceTimestamps markets) /\
      forall T,
        In T (baseTimestamps referenceTimestamps markets) <->
        exists m c,
          In m markets /\ In c (SeatMarket.candles m) /\ Candle.timestamp c = T)) /\
  (Forall (fun m => ascending (SeatMarket.candles m)) markets ->
   exists points,
     expectedSeatsPoints markets referenceTimestamps = Value points /\
     map ProjectionPoint.timestamp points
       = filter (fun T => positive (sumOfPrices markets T))
                (baseTimestamps referenceTimestamps markets) /\
     (forall T, In T (baseTimestamps referenceTimestamps markets) ->
        ((exists pt, In pt points /\ ProjectionPoint.timestamp pt = T) <->
         (0 < sumOfPrices markets T)%Q)) /\
     (forall pt, In pt points ->
        (ProjectionPoint.value pt ==
         sumOfWeightedSeats markets (ProjectionPoint.timestamp pt)
         / sumOfPrices markets (ProjectionPoint.timestamp pt))%Q)) /\
  (exists v, expectedSeatsPoints sampleBasket (Some [1000])
               = Value [ProjectionPoint.mk 1000 v] /\ (v == 17)%Q).
Proof.
  split; [| split].
  - split.
    + intros t rest ->. reflexivity.
    + apply baseTimestamps_derived.
  - intros Hsorted. unfold expectedSeatsPoints.
    destruct (projectionLoop_points markets Hsorted
                (baseTimestamps referenceTimestamps markets) [])
      as [points [Hrun [Hts Hvals]]].
    exists points. split; [exact Hrun |]. split; [exact Hts |]. split.
    + intros T HT. split.
      * intros [pt [Hin <-]].
        apply (in_map ProjectionPoint.timestamp) in Hin.
        rewrite Hts in Hin. apply filter_In in Hin.
        apply positive_iff. tauto.
      * intros Hpos.
        assert (Hin : In T (map ProjectionPoint.timestamp points)).
        { rewrite Hts. apply filter_In. split; [exact HT |].
          apply positive_iff. exact Hpos. }
        apply in_map_iff in Hin. destruct Hin as [pt [Heq Hin]].
        exists pt. tauto.
    + rewrite Forall_forall in Hvals. exact Hvals.
  - eexists. split; [reflexivity | reflexivity].
Qed.

Lemma expectedSeats_weighted_average_witness :
  (exists points,
     expectedSeatsPoints sampleBasket (Some [500; 1000; 1500]) = Value points /\
     map ProjectionPoint.timestamp points = [1000; 1500] /\
     forall pt, In pt points ->
       (ProjectionPoint.value pt ==
        sumOfWeightedSeats sampleBasket (ProjectionPoint.timestamp pt)
        / sumOfPrices sampleBasket (ProjectionPoint.timestamp pt))%Q) /\
  strictly_ascending (baseTimestamps None sampleBasket) /\
  In 1000 (baseTimestamps None sampleBasket).
Proof.
  assert (Hsorted : Forall (fun m => ascending (SeatMarket.candles m)) sampleBasket).
  { unfold sampleBasket, ascending. repeat constructor. }
  destruct (expectedSeats_weighted_average sampleBasket (Some [500; 1000; 1500]))
    as [_ [Hpoints _]].
  destruct (Hpoints Hsorted) as [points [Hrun [Hts [_ Hvals]]]].
  destruct (expectedSeats_weighted_average sampleBasket None) as [[_ Hderived] _].
  destruct (Hderived (or_introl eq_refl)) as [Hstrict Hmem].
  split.
  - exists points. split; [exact Hrun |]. split; [exact Hts | exact Hvals].
  - split; [exact Hstrict |].
    apply Hmem.
    exists (SeatMarket.mk "SEATS-10" 10 [sampleCandle 1000 (3 # 10)]),
           (sampleCandle 1000 (3 # 10)).
    simpl. tauto.
Defined.

(** ** Smoothing of the daily approval values *)

Lemma Qle_bool_spec (x y : Q) : reflect (x <= y)%Q (Qle_bool x y).
Proof.
  destruct (Qle_bool x y) eqn:E; constructor.
  - apply Qle_bool_iff. exact E.
  - intros Hle. apply Qle_bool_iff in Hle. congruence.
Qed.

Lemma clamp_max_min (x : Q) : (Qmax 0 (Qmin 100 x) == clamp x)%Q.
Proof.
  unfold clamp.
  destruct (Q.max_spec 0 (Qmin 100 x)) as [[Hlt Hmax] | [Hle Hmax]];
    destruct (Q.min_spec 100 x) as [[Hlt' Hmin] | [Hle' Hmin]];
    rewrite Hmax; rewrite Hmin in *;
    destruct (Qle_bool_spec x 0); destruct (Qle_bool_spec 100 x); lra.
Qed.

Lemma clamp_Qeq (x y : Q) : (x == y)%Q -> (clamp x == clamp y)%Q.
Proof.
  intros Heq. unfold clamp.
  destruct (Qle_bool_spec x 0); destruct (Qle_bool_spec y 0);
    destruct (Qle_bool_spec 100 x); destruct (Qle_bool_spec 100 y); lra.
Qed.

Lemma smoothLoop_emaFrom (daily : list ProjectionPoint) :
  forall (ema ema' : Q) (smoothed : list ProjectionPoint),
    (ema == ema')%Q ->
    exists pushed,
      smoothLoop daily ema smoothed = smoothed ++ pushed /\
      map ProjectionPoint.timestamp pushed = map ProjectionPoint.timestamp daily /\
      Forall2 Qeq (map ProjectionPoint.value pushed)
                  (emaFrom ema' (map ProjectionPoint.value daily)).
Proof.
  induction daily as [| p rest IH]; intros ema ema' smoothed Heq; simpl.
  - exists []. rewrite app_nil_r. repeat split. constructor.
  - set (next := (alpha * ProjectionPoint.value p + (1 - alpha) * ema)%Q).
    set (next' := ((35 # 100) * ProjectionPoint.value p + (65 # 100) * ema')%Q).
    assert (Hnext : (next == next')%Q).
    { unfold next, next', alpha. rewrite Heq. ring. }
    destruct (IH next next'
                (smoothed ++ [ProjectionPoint.mk (ProjectionPoint.timestamp p)
                                (Qmax 0 (Qmin 100 next))]) Hnext)
      as [pushed [Hrun [Hts Hvals]]].
    exists (ProjectionPoint.mk (ProjectionPoint.timestamp p) (Qmax 0 (Qmin 100 next))
            :: pushed).
    split; [rewrite Hrun, <- app_assoc; reflexivity |].
    split; [simpl; f_equal; exact Hts |].
    simpl. constructor; [| exact Hvals].
    rewrite clamp_max_min. apply clamp_Qeq. exact Hnext.
Qed.

(** C4. A daily sequence of at most two points is returned as it is.  A
    longer one is returned with the same timestamps and with the values
    of the smoothing the specification describes: the accumulator starts
    at the first daily value, each step sets it to
    [0.35 * daily_i + 0.65 * ema], and each emitted value is the
    accumulator clamped to [[0, 100]].  Run on the daily values
    [[50; 60]], the smoothing loop yields [[50; 53.5]]. *)
Theorem smoothDaily_spec (daily : list ProjectionPoint) :
  (len daily <= 2 -> smoothDaily daily = Value daily) /\
  (2 < len daily ->
   exists smoothed,
     smoothDaily daily = Value smoothed /\
     map ProjectionPoint.timestamp smoothed = map ProjectionPoint.timestamp daily /\
     Forall2 Qeq (map ProjectionPoint.value smoothed)
                 (emaSpec (map ProjectionPoint.value daily))) /\
  (forall t0 t1,
     Forall2 Qeq
       (map ProjectionPoint.value
          (smoothLoop [ProjectionPoint.mk t0 50; ProjectionPoint.mk t1 60] 50 []))
       [50; 535 # 10]%Q /\
     Forall2 Qeq (emaSpec [50; 60]%Q) [50; 535 # 10]%Q).
Proof.
  split; [| split].
  - intros Hshort. unfold smoothDaily.
    destruct (Z.leb_spec (len daily) 2); [reflexivity | lia].
  - intros Hlong. unfold smoothDaily.
    destruct (Z.leb_spec (len daily) 2); [lia |].
    destruct daily as [| first rest]; [unfold len in Hlong; simpl in Hlong; lia |].
    unfold element. change (index (first :: rest) 0) with (Some first).
    cbn [bind].
    destruct (smoothLoop_emaFrom (first :: rest) (ProjectionPoint.value first)
                (ProjectionPoint.value first) [] (Qeq_refl _))
      as [pushed [Hrun [Hts Hvals]]].
    exists pushed. split; [rewrite Hrun; reflexivity |].
    split; [exact Hts | exact Hvals].
  - intros t0 t1. split; simpl; repeat constructor; reflexivity.
Qed.

Lemma smoothDaily_spec_witness :
  exists smoothed,
    smoothDaily [ProjectionPoint.mk 0 50; ProjectionPoint.mk 86400000 60;
                 ProjectionPoint.mk 172800000 (-400)] = Value smoothed /\
    map ProjectionPoint.timestamp smoothed = [0; 86400000; 172800000] /\
    Forall2 Qeq (map ProjectionPoint.value smoothed) (emaSpec [50; 60; -400]%Q).
Proof.
  destruct (smoothDaily_spec [ProjectionPoint.mk 0 50; ProjectionPoint.mk 86400000 60;
                              ProjectionPoint.mk 172800000 (-400)])
    as [_ [Hlong _]].
  destruct (Hlong ltac:(unfold len; simpl; lia)) as [smoothed [Hrun [Hts Hvals]]].
  exists smoothed. split; [exact Hrun |]. split; [exact Hts |].
  exact Hvals.
Defined.

Lemma strictly_ascending_map {A B : Type} `{Timestamped A} `{Timestamped B}
    (xs : list A) (ys : list B) :
  map timestamp xs = map timestamp ys ->
  strictly_ascending xs -> strictly_ascending ys.
Proof.
  unfold strictly_ascending. intros Heq Hs. revert ys Heq.
  induction Hs as [| x xs Hs IH Hall]; intros [| y ys] Heq;
    simpl in Heq; try discriminate.
  - constructor.
  - injection Heq as Hx Hrest.
    constructor; [apply IH; exact Hrest |].
    rewrite Forall_forall in *. intros z Hz.
    apply (in_map timestamp) in Hz. rewrite <- Hrest in Hz.
    apply in_map_iff in Hz. destruct Hz as [w [Hw Hin]].
    specialize (Hall w Hin). lia.
Qed.

Lemma strictly_ascending_NoDup {T : Type} `{Timestamped T} (f : Z -> Z) (l : list T) :
  (forall a b, In a l -> In b l -> f (timestamp a) = f (timestamp b) ->
               timestamp a = timestamp b) ->
  strictly_ascending l -> NoDup (map (fun p => f (timestamp p)) l).
Proof.
  unfold strictly_ascending. intros Hinj Hs.
  induction Hs as [| x l Hs IH Hall]; simpl.
  - constructor.
  - constructor.
    + intros Hin. apply in_map_iff in Hin. destruct Hin as [y [Hy Hin]].
      rewrite Forall_forall in Hall. specialize (Hall y Hin).
      assert (timestamp y = timestamp x)
        by (apply Hinj; [right; exact Hin | left; reflexivity | exact Hy]).
      lia.
    + apply IH. intros a b Ha Hb. apply Hinj; right; assumption.
Qed.

(** ** Day buckets *)

Lemma Map_set_keys {V : Type} (m : list (Z * V)) (key : Z) (v : V) (k : Z) :
  In k (map fst (Map_set m key v)) <-> k = key \/ In k (map fst m).
Proof.
  induction m as [| e m IH]; simpl.
  - intuition.
  - destruct (Z.eqb_spec (fst e) key) as [Heq | Hne]; simpl.
    + rewrite Heq. intuition.
    + rewrite IH. intuition.
Qed.

Lemma Map_set_NoDup {V : Type} (m : list (Z * V)) (key : Z) (v : V) :
  NoDup (map fst m) -> NoDup (map fst (Map_set m key v)).
Proof.
  induction m as [| e m IH]; simpl; intros Hnd.
  - constructor; [intros [] | constructor].
  - inversion Hnd as [| ? ? Hnotin Hnd']; subst.
    destruct (Z.eqb_spec (fst e) key) as [Heq | Hne]; simpl.
    + rewrite <- Heq. constructor; assumption.
    + constructor; [| apply IH; exact Hnd'].
      intros Hin. apply Map_set_keys in Hin. destruct Hin; [congruence | contradiction].
Qed.

Lemma dayTsOf_midnight (p : ProjectionPoint) : dayTsOf p mod msPerDay = 0.
Proof. unfold dayTsOf, Date_UTC. apply Z.mod_mul. discriminate. Qed.

Lemma midnight_Day_inj (x y : Z) :
  x mod msPerDay = 0 -> y mod msPerDay = 0 -> Day x = Day y -> x = y.
Proof.
  unfold Day. intros Hx Hy Hday.
  rewrite (Z.div_mod x msPerDay), (Z.div_mod y msPerDay) by discriminate.
  rewrite Hx, Hy, Hday. reflexivity.
Qed.

(** The keys of the buckets: pairwise distinct, and exactly the midnights
    of the days of the polls put in. *)
Lemma fold_addToBucket_keys (raw : list ProjectionPoint) :
  forall dayBuckets,
    NoDup (map fst dayBuckets) ->
    NoDup (map fst (fold_left addToBucket raw dayBuckets)) /\
    forall k, In k (map fst (fold_left addToBucket raw dayBuckets)) <->
              In k (map fst dayBuckets) \/ In k (map dayTsOf raw).
Proof.
  induction raw as [| p raw IH]; intros dayBuckets Hnd; simpl.
  - split; [exact Hnd | intuition].
  - destruct (IH (addToBucket dayBuckets p)) as [Hnd' Hkeys].
    + apply Map_set_NoDup. exact Hnd.
    + split; [exact Hnd' |].
      intros k. rewrite Hkeys. unfold addToBucket at 1.
      rewrite Map_set_keys. intuition.
Qed.

Lemma dailyOf_timestamps (raw : list ProjectionPoint) :
  Permutation (map ProjectionPoint.timestamp (dailyOf raw))
              (map fst (dayBucketsOf raw)).
Proof.
  unfold dailyOf.
  eapply perm_trans; [apply Permutation_map, sortByTimestamp_perm |].
  rewrite map_map. simpl. apply Permutation_refl.
Qed.

Lemma dailyOf_days (raw : list ProjectionPoint) :
  strictly_ascending (dailyOf raw) /\
  forall T, In T (map ProjectionPoint.timestamp (dailyOf raw)) <->
            In T (map dayTsOf raw).
Proof.
  destruct (fold_addToBucket_keys raw [] (NoDup_nil _)) as [Hnd Hkeys].
  pose proof (dailyOf_timestamps raw) as Hperm.
  split.
  - apply ascending_NoDup_strict.
    + apply sortByTimestamp_ascending.
    + apply (Permutation_NoDup (Permutation_sym Hperm)). exact Hnd.
  - intros T. split.
    + intros Hin. apply (Permutation_in _ Hperm) in Hin.
      apply Hkeys in Hin. destruct Hin as [[] | Hin]. exact Hin.
    + intros Hin. apply (Permutation_in _ (Permutation_sym Hperm)).
      apply Hkeys. right. exact Hin.
Qed.

Lemma smoothDaily_timestamps (daily : list ProjectionPoint) :
  exists points,
    smoothDaily daily = Value points /\
    map ProjectionPoint.timestamp points = map ProjectionPoint.timestamp daily.
Proof.
  unfold smoothDaily. destruct (Z.leb_spec (len daily) 2) as [Hshort | Hlong].
  - exists daily. split; reflexivity.
  - destruct daily as [| first rest]; [unfold len in Hlong; simpl in Hlong; lia |].
    unfold element. change (index (first :: rest) 0) with (Some first).
    cbn [bind].
    destruct (smoothLoop_emaFrom (first :: rest) (ProjectionPoint.value first)
                (ProjectionPoint.value first) [] (Qeq_refl _))
      as [pushed [Hrun [Hts _]]].
    exists pushed. split; [rewrite Hrun; reflexivity | exact Hts].
Qed.

(** C10. Whatever polls come in, the points the approval aggregator
    returns, smoothed or not, have strictly increasing timestamps, each a
    UTC midnight, and no two of them fall on the same UTC day; the
    timestamps are the midnights computed for the polls. *)
Theorem approvalPoints_one_per_day (raw : list ProjectionPoint) :
  exists points,
    approvalPoints raw = Value points /\
    strictly_ascending points /\
    Forall (fun p => ProjectionPoint.timestamp p mod msPerDay = 0) points /\
    NoDup (map (fun p => Day (ProjectionPoint.timestamp p)) points) /\
    forall T, In T (map ProjectionPoint.timestamp points) <-> In T (map dayTsOf raw).
Proof.
  destruct (dailyOf_days raw) as [Hstrict Hdays].
  destruct (smoothDaily_timestamps (dailyOf raw)) as [points [Hrun Hts]].
  assert (Hmid : Forall (fun p => ProjectionPoint.timestamp p mod msPerDay = 0) points).
  { apply Forall_forall. intros p Hp.
    apply (in_map ProjectionPoint.timestamp) in Hp.
    rewrite Hts in Hp. apply Hdays in Hp.
    apply in_map_iff in Hp. destruct Hp as [q [Hq _]].
    rewrite <- Hq. apply dayTsOf_midnight. }
  assert (Hstrict' : strictly_ascending points).
  { apply (strictly_ascending_map (dailyOf raw) points); [| exact Hstrict].
    symmetry. exact Hts. }
  exists points. split; [exact Hrun |]. split; [exact Hstrict' |].
  split; [exact Hmid |]. split.
  - apply (strictly_ascending_NoDup Day points); [| exact Hstrict'].
    rewrite Forall_forall in Hmid.
    intros a b Ha Hb Hday.
    pose proof (Hmid a Ha) as Hma. pose proof (Hmid b Hb) as Hmb.
    apply midnight_Day_inj; assumption.
  - intros T. rewrite Hts. apply Hdays.
Qed.

(** ** nearestPointByTimestamp against nearestIndexByTimestamp *)

Lemma index_map {A B : Type} (f : A -> B) (xs : list A) (i : Z) :
  index (map f xs) i = option_map f (index xs i).
Proof.
  unfold index. destruct (i <? 0); [reflexivity |]. apply nth_error_map.
Qed.

Lemma nearestPoint_loop_index (points : list ProjectionPoint) (targetTs : Z) :
  forall (fuel : nat) (lo hi : Z),
    0 <= lo -> hi < len points ->
    nearestPoint_loop fuel points targetTs lo hi
    = nearestIndex_loop fuel (map ProjectionPoint.timestamp points) targetTs lo hi.
Proof.
  induction fuel as [| fuel IH]; intros lo hi Hlo Hhi; simpl.
  - reflexivity.
  - destruct (Z.leb_spec lo hi) as [Hle | Hgt]; [| reflexivity].
    assert (Hmid : lo <= (lo + hi) / 2 <= hi).
    { split; [apply Z.div_le_lower_bound | apply Z.div_le_upper_bound]; lia. }
    rewrite index_map.
    destruct (index_in_range points ((lo + hi) / 2)) as [p Hp]; [lia |].
    rewrite Hp; simpl.
    destruct (ProjectionPoint.timestamp p =? targetTs); [reflexivity |].
    destruct (ProjectionPoint.timestamp p <? targetTs); apply IH; lia.
Qed.

(** The point search returns the element at the index the index search
    returns on the timestamps. *)
Lemma nearestPointByTimestamp_index (points : list ProjectionPoint) (targetTs : Z) :
  points <> [] ->
  nearestPointByTimestamp points targetTs
  = (i <- nearestIndexByTimestamp (map ProjectionPoint.timestamp points) targetTs ;;
     Value (index points i)).
Proof.
  intros Hne.
  assert (Hlen : 0 < len points).
  { unfold len. destruct points; [congruence | simpl; lia]. }
  assert (Hmap : len (map ProjectionPoint.timestamp points) = len points).
  { unfold len. rewrite length_map. reflexivity. }
  unfold nearestPointByTimestamp, nearestIndexByTimestamp.
  rewrite Hmap, length_map.
  destruct (Z.eqb_spec (len points) 0); [lia |].
  rewrite nearestPoint_loop_index by lia.
  destruct (nearestIndex_loop_runs (map ProjectionPoint.timestamp points) targetTs
              (length points) 0 (len points - 1)) as [o [Ho Hb]];
    try (rewrite ?Hmap; unfold len in *; lia).
  rewrite Ho; simpl.
  destruct o as [mid | lo hi]; [reflexivity |].
  destruct (Z.leb_spec lo 0); [reflexivity |].
  destruct (Z.geb_spec lo (len points)); [reflexivity |].
  rewrite !index_map.
  destruct (index_in_range points lo) as [a Ha]; [lia |].
  destruct (index_in_range points (lo - 1)) as [b Hb']; [lia |].
  unfold element. rewrite Ha, Hb'; simpl.
  destruct (Z.abs (ProjectionPoint.timestamp a - targetTs)
            <? Z.abs (ProjectionPoint.timestamp b - targetTs));
    simpl; rewrite ?Ha, ?Hb'; reflexivity.
Qed.

(** ** Examples from the specification *)

Example tie_returns_earlier_index :
  nearestIndexByTimestamp [0; 2] 1 = Value 0.
Proof. reflexivity. Qed.

Example tie_returns_earlier_point :
  nearestPointByTimestamp [ProjectionPoint.mk 0 1; ProjectionPoint.mk 2 5] 1
  = Value (Some (ProjectionPoint.mk 0 1)).
Proof. reflexivity. Qed.

Example same_day_polls_collapse :
  approvalPoints [ProjectionPoint.mk 1709210096000 40;
                  ProjectionPoint.mk 1709220000000 42;
                  ProjectionPoint.mk 1709230000000 44]
  = Value [ProjectionPoint.mk 1709164800000 (126 # 3)] /\ (126 # 3 == 42)%Q.
Proof. split; [vm_compute; reflexivity | reflexivity]. Qed.

Example leap_day : (getUTCFullYear 1709210096000, getUTCMonth 1709210096000,
                    getUTCDate 1709210096000) = (2024, 1, 29).
Proof. reflexivity. Qed.

(* ================================================================== *)
(** * Part III: further properties of the searches *)
(* ================================================================== *)

Lemma ascending_map_timestamp {T : Type} `{Timestamped T} (xs : list T) :
  ascending xs -> ascending (map timestamp xs).
Proof.
  unfold ascending. induction 1 as [| x xs Hs IH Hall]; simpl.
  - constructor.
  - constructor; [exact IH |].
    apply Forall_forall. intros t Ht. apply in_map_iff in Ht.
    destruct Ht as [y [<- Hy]]. rewrite Forall_forall in Hall.
    exact (Hall y Hy).
Qed.

Lemma nonempty_len {A : Type} (xs : list A) : xs <> [] -> 0 < len xs.
Proof. unfold len. destruct xs; [congruence | simpl; lia]. Qed.

(** The index search on a sorted array, at the level of indices: the
    element returned is at minimal distance. *)
Lemma nearestIndex_minimal_distance (timestamps : list Z) (target : Z) :
  timestamps <> [] ->
  ascending timestamps ->
  exists i x,
    nearestIndexByTimestamp timestamps target = Value i /\
    index timestamps i = Some x /\
    forall j y, index timestamps j = Some y ->
                Z.abs (x - target) <= Z.abs (y - target).
Proof.
  intros Hne Hsorted.
  destruct (nearestIndex_search timestamps target Hsorted Hne) as [o [Ho Hpost]].
  pose proof (nonempty_len timestamps Hne) as Hlen.
  pose proof (ascending_index timestamps Hsorted) as Hord.
  unfold timestamp, Timestamped_number in Hord.
  unfold nearestIndexByTimestamp.
  destruct (Z.eqb_spec (len timestamps) 0); [lia |].
  rewrite Ho; simpl.
  destruct o as [mid | lo hi].
  - exists mid, target. repeat split; auto. intros j y _. lia.
  - destruct Hpost as [Hlo [Hbelow Habove]].
    assert (Hsplit : forall j y, index timestamps j = Some y ->
              (j < lo /\ y < target) \/ (lo <= j /\ target < y)).
    { intros j y Hy. destruct (Z.lt_ge_cases j lo); [left | right]; split; auto.
      - apply (Hbelow j); auto.
      - apply (Habove j); auto. }
    destruct (Z.leb_spec lo 0) as [Hz | Hpos].
    + destruct (index_in_range timestamps 0) as [x Hx]; [lia |].
      exists 0, x. repeat split; auto. intros j y Hy.
      assert (0 <= j < len timestamps) by (apply index_Some_iff; eauto).
      pose proof (Habove 0 x ltac:(lia) Hx).
      pose proof (Hord 0 j x y ltac:(lia) Hx Hy). lia.
    + destruct (Z.geb_spec lo (len timestamps)) as [Hend | Hmiddle].
      * destruct (index_in_range timestamps (len timestamps - 1)) as [x Hx]; [lia |].
        exists (len timestamps - 1), x. repeat split; auto. intros j y Hy.
        assert (0 <= j < len timestamps) by (apply index_Some_iff; eauto).
        pose proof (Hbelow (len timestamps - 1) x ltac:(lia) Hx).
        pose proof (Hord j (len timestamps - 1) y x ltac:(lia) Hy Hx). lia.
      * destruct (index_in_range timestamps lo) as [a Ha]; [lia |].
        destruct (index_in_range timestamps (lo - 1)) as [b Hb]; [lia |].
        rewrite Ha, Hb; simpl.
        pose proof (Habove lo a ltac:(lia) Ha).
        pose proof (Hbelow (lo - 1) b ltac:(lia) Hb).
        destruct (Z.ltb_spec (Z.abs (a - target)) (Z.abs (b - target))).
        -- exists lo, a. repeat split; auto. intros j y Hy.
           destruct (Hsplit j y Hy) as [[Hj Hyt] | [Hj Hyt]].
           ++ pose proof (Hord j (lo - 1) y b ltac:(lia) Hy Hb). lia.
           ++ pose proof (Hord lo j a y ltac:(lia) Ha Hy). lia.
        -- exists (lo - 1), b. repeat split; auto. intros j y Hy.
           destruct (Hsplit j y Hy) as [[Hj Hyt] | [Hj Hyt]].
           ++ pose proof (Hord j (lo - 1) y b ltac:(lia) Hy Hb). lia.
           ++ pose proof (Hord lo j a y ltac:(lia) Ha Hy). lia.
Qed.

(** X1. On points sorted ascending by timestamp, [nearestPointByTimestamp]
    returns a point of the array and no point of the array is strictly
    closer to the target. *)
Theorem nearestPointByTimestamp_nearest
    (points : list ProjectionPoint) (targetTs : Z) :
  points <> [] ->
  ascending points ->
  exists p,
    nearestPointByTimestamp points targetTs = Value (Some p) /\
    In p points /\
    forall q, In q points ->
      Z.abs (ProjectionPoint.timestamp p - targetTs)
      <= Z.abs (ProjectionPoint.timestamp q - targetTs).
Proof.
  intros Hne Hsorted.
  assert (Hne' : map ProjectionPoint.timestamp points <> []).
  { destruct points; [congruence | discriminate]. }
  destruct (nearestIndex_minimal_distance (map ProjectionPoint.timestamp points)
              targetTs Hne' (ascending_map_timestamp points Hsorted))
    as [i [x [Hrun [Hx Hmin]]]].
  rewrite (nearestPointByTimestamp_index points targetTs Hne), Hrun. simpl.
  rewrite index_map in Hx.
  destruct (index points i) as [p |] eqn:Hp; [| discriminate].
  simpl in Hx. injection Hx as <-.
  exists p. split; [reflexivity |]. split; [eapply index_In; eauto |].
  intros q Hq. destruct (In_index points q Hq) as [j Hj].
  apply (Hmin j). rewrite index_map, Hj. reflexivity.
Qed.

Lemma nearestPointByTimestamp_nearest_witness :
  exists p,
    nearestPointByTimestamp
      [ProjectionPoint.mk 10 1; ProjectionPoint.mk 20 2; ProjectionPoint.mk 40 3] 31
    = Value (Some p) /\
    In p [ProjectionPoint.mk 10 1; ProjectionPoint.mk 20 2; ProjectionPoint.mk 40 3] /\
    forall q,
      In q [ProjectionPoint.mk 10 1; ProjectionPoint.mk 20 2; ProjectionPoint.mk 40 3] ->
      Z.abs (ProjectionPoint.timestamp p - 31)
      <= Z.abs (ProjectionPoint.timestamp q - 31).
Proof.
  apply (nearestPointByTimestamp_nearest
           [ProjectionPoint.mk 10 1; ProjectionPoint.mk 20 2; ProjectionPoint.mk 40 3] 31).
  - discriminate.
  - unfold ascending, timestamp, Timestamped_ProjectionPoint.
    repeat constructor; simpl; lia.
Defined.

(** X2. Whatever the order of the points, [nearestPointByTimestamp] ends
    without reading outside the array; it returns [null] exactly on the
    empty array and otherwise one of the points. *)
Theorem nearestPointByTimestamp_member
    (points : list ProjectionPoint) (targetTs : Z) :
  exists r,
    nearestPointByTimestamp points targetTs = Value r /\
    (r = None <-> points = []) /\
    (forall p, r = Some p -> In p points).
Proof.
  destruct points as [| p0 rest].
  - exists None. split; [reflexivity |]. split; [tauto | discriminate].
  - assert (Hne : p0 :: rest <> []) by discriminate.
    remember (p0 :: rest) as points eqn:Hpoints.
    assert (Hne' : map ProjectionPoint.timestamp points <> [])
      by (subst points; discriminate).
    pose proof (nonempty_len _ Hne') as Hlen.
    assert (Hmap : len (map ProjectionPoint.timestamp points) = len points).
    { unfold len. rewrite length_map. reflexivity. }
    rewrite (nearestPointByTimestamp_index points targetTs Hne).
    destruct (nearestIndex_loop_runs (map ProjectionPoint.timestamp points) targetTs
                (length (map ProjectionPoint.timestamp points)) 0
                (len (map ProjectionPoint.timestamp points) - 1)) as [o [Ho Hb]];
      try (unfold len in *; lia).
    assert (Hin : forall i, 0 <= i < len points ->
              exists r, Value (index points i) = Value r /\
                (r = None <-> points = []) /\ (forall p, r = Some p -> In p points)).
    { intros i Hi. destruct (index_in_range points i Hi) as [p Hp].
      exists (Some p). rewrite Hp. split; [reflexivity |].
      split; [split; [discriminate | intros; congruence] |].
      intros q Hq. injection Hq as <-. eapply index_In; eauto. }
    unfold nearestIndexByTimestamp.
    destruct (Z.eqb_spec (len (map ProjectionPoint.timestamp points)) 0); [lia |].
    rewrite Ho; cbn [bind].
    destruct o as [mid | lo hi].
    + apply Hin. lia.
    + destruct (Z.leb_spec lo 0); [apply Hin; lia |].
      destruct (Z.geb_spec lo (len (map ProjectionPoint.timestamp points)));
        [apply Hin; lia |].
      destruct (dist_less _ _); apply Hin; lia.
Qed.

(** The array is left unsorted here: the loop still ends, and [best] is
    only ever set to an index whose candle is at or before the target. *)
Lemma findClose_loop_sound (candles : list Candle) (targetTs : Z) :
  forall (fuel : nat) (lo hi best : Z),
    hi + 1 - lo <= Z.of_nat fuel ->
    0 <= lo -> hi < len candles ->
    (best = -1 \/
     exists c, index candles best = Some c /\ Candle.timestamp c <= targetTs) ->
    exists best',
      findClose_loop fuel candles targetTs lo hi best = Value best' /\
      (best' = -1 \/
       exists c, index candles best' = Some c /\ Candle.timestamp c <= targetTs).
Proof.
  induction fuel as [| fuel IH]; intros lo hi best Hfuel Hlo Hhi Hbest; simpl;
    destruct (Z.leb_spec lo hi) as [Hle | Hgt]; try lia;
    try (exists best; split; [reflexivity | exact Hbest]).
  assert (Hmid : lo <= (lo + hi) / 2 <= hi).
  { split; [apply Z.div_le_lower_bound | apply Z.div_le_upper_bound]; lia. }
  set (mid := (lo + hi) / 2) in *.
  destruct (index_in_range candles mid) as [c Hc]; [lia |].
  unfold element. rewrite Hc; simpl.
  destruct (Z.leb_spec (Candle.timestamp c) targetTs) as [Hin | Hout].
  - apply IH; try lia. right. exists c. split; assumption.
  - apply IH; try lia. exact Hbest.
Qed.

(** X3. Whatever the order of the candles, [findCloseAtOrBefore] ends
    without an error, and a close it returns belongs to a candle whose
    timestamp is at or before the target: it never reports a later
    price. *)
Theorem findCloseAtOrBefore_never_later (candles : list Candle) (targetTs : Z) :
  exists r,
    findCloseAtOrBefore candles targetTs = Value r /\
    forall q, r = Some q ->
      exists c, In c candles /\ Candle.timestamp c <= targetTs /\ Candle.close c = q.
Proof.
  unfold findCloseAtOrBefore.
  destruct (Z.eqb_spec (len candles) 0) as [Hempty | Hne].
  - exists None. split; [reflexivity | discriminate].
  - assert (Hlen : 0 < len candles) by (unfold len in *; lia).
    destruct (findClose_loop_sound candles targetTs (length candles)
                0 (len candles - 1) (-1)) as [best [Hrun Hbest]];
      try (unfold len in *; lia).
    rewrite Hrun; simpl.
    destruct (Z.ltb_spec best 0) as [Hneg | Hpos].
    + exists None. split; [reflexivity | discriminate].
    + destruct Hbest as [-> | [c [Hc Hts]]]; [lia |].
      unfold element. rewrite Hc; simpl.
      exists (Some (Candle.close c)). split; [reflexivity |].
      intros q Hq. injection Hq as <-.
      exists c. repeat split; [eapply index_In; eauto | exact Hts].
Qed.

(** X4. On a sorted array the index search clamps at the ends and hits
    exact matches: a target before the first element gives index 0, a
    target after the last gives the last index, and a target present in
    the array gives an index holding it. *)
Theorem nearestIndexByTimestamp_ends_and_hits (timestamps : list Z) (target : Z) :
  timestamps <> [] ->
  ascending timestamps ->
  ((forall x, index timestamps 0 = Some x -> target < x) ->
     nearestIndexByTimestamp timestamps target = Value 0) /\
  ((forall x, index timestamps (len timestamps - 1) = Some x -> x < target) ->
     nearestIndexByTimestamp timestamps target = Value (len timestamps - 1)) /\
  (In target timestamps ->
     exists i, nearestIndexByTimestamp timestamps target = Value i /\
               index timestamps i = Some target).
Proof.
  intros Hne Hsorted.
  destruct (nearestIndex_search timestamps target Hsorted Hne) as [o [Ho Hpost]].
  pose proof (nonempty_len timestamps Hne) as Hlen.
  pose proof (ascending_index timestamps Hsorted) as Hord.
  unfold timestamp, Timestamped_number in Hord.
  destruct (index_in_range timestamps 0) as [first Hfirst]; [lia |].
  destruct (index_in_range timestamps (len timestamps - 1)) as [last Hlast]; [lia |].
  unfold nearestIndexByTimestamp.
  destruct (Z.eqb_spec (len timestamps) 0); [lia |].
  rewrite Ho; simpl.
  split; [| split].
  - intros Hbefore. specialize (Hbefore first Hfirst).
    destruct o as [mid | lo hi].
    + exfalso.
      assert (0 <= mid < len timestamps) by (apply index_Some_iff; eauto).
      pose proof (Hord 0 mid first target ltac:(lia) Hfirst Hpost). lia.
    + destruct Hpost as [Hlo [Hbelow _]].
      destruct (Z.leb_spec lo 0); [reflexivity |].
      pose proof (Hbelow 0 first ltac:(lia) Hfirst). lia.
  - intros Hafter. specialize (Hafter last Hlast).
    destruct o as [mid | lo hi].
    + exfalso.
      assert (0 <= mid < len timestamps) by (apply index_Some_iff; eauto).
      pose proof (Hord mid (len timestamps - 1) target last ltac:(lia) Hpost Hlast). lia.
    + destruct Hpost as [Hlo [_ Habove]].
      destruct (Z.leb_spec lo 0) as [Hz | Hpos].
      * pose proof (Habove (len timestamps - 1) last ltac:(lia) Hlast). lia.
      * destruct (Z.geb_spec lo (len timestamps)); [reflexivity |].
        pose proof (Habove (len timestamps - 1) last ltac:(lia) Hlast). lia.
  - intros Hin. destruct (In_index timestamps target Hin) as [j Hj].
    destruct o as [mid | lo hi].
    + exists mid. split; [reflexivity | exact Hpost].
    + exfalso. destruct Hpost as [_ [Hbelow Habove]].
      destruct (Z.lt_ge_cases j lo).
      * pose proof (Hbelow j target ltac:(lia) Hj). lia.
      * pose proof (Habove j target ltac:(lia) Hj). lia.
Qed.

Lemma nearestIndexByTimestamp_ends_and_hits_witness :
  nearestIndexByTimestamp [10; 20; 40] 5 = Value 0 /\
  exists i, nearestIndexByTimestamp [10; 20; 40] 20 = Value i /\
            index [10; 20; 40] i = Some 20.
Proof.
  assert (Hs : ascending [10; 20; 40]).
  { unfold ascending, timestamp, Timestamped_number. repeat constructor; lia. }
  split.
  - destruct (nearestIndexByTimestamp_ends_and_hits [10; 20; 40] 5 ltac:(discriminate) Hs)
      as [Hfirst _].
    apply Hfirst. intros x Hx. injection Hx as <-. lia.
  - destruct (nearestIndexByTimestamp_ends_and_hits [10; 20; 40] 20 ltac:(discriminate) Hs)
      as [_ [_ Hhit]].
    apply Hhit. simpl. tauto.
Defined.

(** X5. On candles sorted strictly ascending, looking up the timestamp of
    a candle of the array returns the close of that very candle. *)
Theorem findCloseAtOrBefore_own_timestamp (candles : list Candle) (c : Candle) :
  strictly_ascending candles ->
  In c candles ->
  findCloseAtOrBefore candles (Candle.timestamp c) = Value (Some (Candle.close c)).
Proof.
  intros Hstrict Hin.
  pose proof (strictly_ascending_ascending candles Hstrict) as Hsorted.
  destruct (findCloseAtOrBefore_cut candles (Candle.timestamp c) Hsorted)
    as [best [Hrun [Hb [Hbelow Habove]]]].
  destruct (In_index candles c Hin) as [j Hj].
  assert (Hjb : j = best).
  { destruct (Z.lt_trichotomy j best) as [Hlt | [Heq | Hgt]]; [| exact Heq |].
    - exfalso.
      destruct (index_in_range candles best) as [c' Hc'].
      { assert (0 <= j < len candles) by (apply index_Some_iff; eauto). lia. }
      pose proof (sorted_index _ candles Hstrict j best c c' Hlt Hj Hc') as Hord.
      unfold timestamp, Timestamped_Candle in Hord.
      pose proof (Hbelow best c' ltac:(lia) Hc'). lia.
    - exfalso. pose proof (Habove j c ltac:(lia) Hj). lia. }
  subst j. rewrite Hrun, Hj. reflexivity.
Qed.

Lemma findCloseAtOrBefore_own_timestamp_witness :
  findCloseAtOrBefore
    [sampleCandle 1000 (3 # 10); sampleCandle 2000 (4 # 10); sampleCandle 3000 (6 # 10)]
    2000 = Value (Some (4 # 10)).
Proof.
  apply (findCloseAtOrBefore_own_timestamp
           [sampleCandle 1000 (3 # 10); sampleCandle 2000 (4 # 10);
            sampleCandle 3000 (6 # 10)] (sampleCandle 2000 (4 # 10))).
  - unfold strictly_ascending, timestamp, Timestamped_Candle.
    repeat constructor; simpl; lia.
  - simpl. tauto.
Defined.

(* ================================================================== *)
(** * Part IV: clipping and the range of the primary series *)
(* ================================================================== *)

Lemma StronglySorted_filter {A : Type} (R : A -> A -> Prop) (f : A -> bool)
    (l : list A) :
  StronglySorted R l -> StronglySorted R (filter f l).
Proof.
  induction 1 as [| x l Hs IH Hall]; simpl.
  - constructor.
  - destruct (f x); [| exact IH].
    constructor; [exact IH |].
    rewrite Forall_forall in *. intros y Hy.
    apply filter_In in Hy. apply Hall. tauto.
Qed.

(** X6. Clipping keeps a series sorted: a sequence sorted ascending (or
    strictly ascending) by timestamp is still so after
    [clipPointsToRange], whatever the range, so the searches may be used
    on clipped series. *)
Theorem clipPointsToRange_keeps_order {T : Type} `{Timestamped T}
    (points : list T) (range : option TimeRange) :
  (ascending points -> ascending (clipPointsToRange points range)) /\
  (strictly_ascending points -> strictly_ascending (clipPointsToRange points range)).
Proof.
  unfold ascending, strictly_ascending.
  destruct range as [r |]; simpl; [| tauto].
  split; apply StronglySorted_filter.
Qed.

Lemma clipPointsToRange_keeps_order_witness :
  ascending (clipPointsToRange [10; 20; 40] (Some (mkRange 15 50))).
Proof.
  destruct (clipPointsToRange_keeps_order [10; 20; 40] (Some (mkRange 15 50)))
    as [Hasc _].
  apply Hasc. unfold ascending, timestamp, Timestamped_number.
  repeat constructor; lia.
Defined.

(** X7. Clipping twice is clipping once to the intersection of the two
    ranges; in particular the order of two clips does not matter and
    clipping again to the same range changes nothing. *)
Theorem clipPointsToRange_twice {T : Type} `{Timestamped T}
    (points : list T) (r1 r2 : TimeRange) :
  clipPointsToRange (clipPointsToRange points (Some r1)) (Some r2)
  = clipPointsToRange points
      (Some (mkRange (Z.max (startMs r1) (startMs r2))
                     (Z.min (endMs r1) (endMs r2)))) /\
  clipPointsToRange (clipPointsToRange points (Some r1)) (Some r2)
  = clipPointsToRange (clipPointsToRange points (Some r2)) (Some r1) /\
  clipPointsToRange (clipPointsToRange points (Some r1)) (Some r1)
  = clipPointsToRange points (Some r1).
Proof.
  assert (Hboth : forall a b,
            filter (in_range b) (filter (in_range a) points)
            = filter (fun p => in_range a p && in_range b p) points).
  { intros a b. induction points as [| p l IH]; simpl; [reflexivity |].
    destruct (in_range a p); simpl; [| exact IH].
    destruct (in_range b p); simpl; rewrite IH; reflexivity. }
  simpl. rewrite !Hboth. repeat split.
  - apply filter_ext. intros p. unfold in_range; simpl.
    destruct (Z.geb_spec (timestamp p) (startMs r1));
      destruct (Z.geb_spec (timestamp p) (startMs r2));
      destruct (Z.leb_spec (timestamp p) (endMs r1));
      destruct (Z.leb_spec (timestamp p) (endMs r2));
      destruct (Z.geb_spec (timestamp p) (Z.max (startMs r1) (startMs r2)));
      destruct (Z.leb_spec (timestamp p) (Z.min (endMs r1) (endMs r2)));
      simpl; try reflexivity; lia.
  - apply filter_ext. intros p. apply andb_comm.
  - apply filter_ext. intros p. destruct (in_range r1 p); reflexivity.
Qed.

Lemma filter_all {A : Type} (f : A -> bool) (l : list A) :
  Forall (fun x => f x = true) l -> filter f l = l.
Proof.
  induction 1 as [| x l Hx Hl IH]; simpl; [reflexivity |].
  rewrite Hx, IH. reflexivity.
Qed.

(** On sorted candles the range of the series spans every candle. *)
Lemma marketRange_spans (candles : list Candle) (r : TimeRange) :
  ascending candles ->
  marketRange candles = Value (Some r) ->
  forall c, In c candles -> startMs r <= Candle.timestamp c <= endMs r.
Proof.
  intros Hsorted Hrange c Hin.
  unfold marketRange in Hrange.
  destruct (Z.eqb_spec (len candles) 0); [discriminate |].
  unfold element in Hrange.
  destruct (index candles 0) as [first |] eqn:Hfirst; [| discriminate].
  destruct (index candles (len candles - 1)) as [last |] eqn:Hlast; [| discriminate].
  simpl in Hrange. injection Hrange as <-. simpl.
  destruct (In_index candles c Hin) as [j Hj].
  assert (0 <= j < len candles) by (apply index_Some_iff; eauto).
  pose proof (ascending_index candles Hsorted) as Hord.
  unfold timestamp, Timestamped_Candle in Hord.
  split.
  - apply (Hord 0 j first c); auto; lia.
  - apply (Hord j (len candles - 1) c last); auto; lia.
Qed.

Lemma projectionLoop_timestamps (markets : list SeatMarket) :
  forall (timestamps : list Z) (points out : list ProjectionPoint),
    projectionLoop markets timestamps points = Value out ->
    forall p, In p out ->
      In p points \/ In (ProjectionPoint.timestamp p) timestamps.
Proof.
  induction timestamps as [| ts rest IH]; intros points out Hrun p Hp; simpl in Hrun.
  - injection Hrun as <-. left. exact Hp.
  - destruct (accumulate markets ts 0%Q 0%Q) as [[w t] | |]; try discriminate.
    simpl in Hrun. destruct (positive t).
    + destruct (IH _ _ Hrun p Hp) as [Hacc | Hrest].
      * apply in_app_or in Hacc. destruct Hacc as [Hacc | [<- | []]].
        -- left. exact Hacc.
        -- right. left. reflexivity.
      * right. right. exact Hrest.
    + destruct (IH _ _ Hrun p Hp) as [Hacc | Hrest]; [left | right; right]; assumption.
Qed.

(** X8. When the seat projection is computed on the timestamps of the
    primary candles, as the component does, and those candles are sorted,
    clipping the projection to the range of the primary series removes
    no point. *)
Theorem projection_survives_clipping
    (candles : list Candle) (markets : list SeatMarket)
    (points : list ProjectionPoint) (range : option TimeRange) :
  ascending candles ->
  expectedSeatsPoints markets (Some (map Candle.timestamp candles)) = Value points ->
  marketRange candles = Value range ->
  clipPointsToRange points range = points.
Proof.
  intros Hsorted Hpoints Hrange.
  destruct range as [r |]; [| reflexivity].
  simpl. apply filter_all. apply Forall_forall. intros p Hp.
  apply in_range_iff.
  assert (Hne : candles <> []).
  { intros ->. discriminate Hrange. }
  unfold expectedSeatsPoints, baseTimestamps in Hpoints.
  destruct candles as [| c0 rest]; [congruence |].
  change (map Candle.timestamp (c0 :: rest))
    with (Candle.timestamp c0 :: map Candle.timestamp rest) in Hpoints.
  destruct (projectionLoop_timestamps markets _ _ _ Hpoints p Hp) as [[] | Hin].
  change (Candle.timestamp c0 :: map Candle.timestamp rest)
    with (map Candle.timestamp (c0 :: rest)) in Hin.
  apply in_map_iff in Hin. destruct Hin as [c [Hc Hin]].
  unfold timestamp, Timestamped_ProjectionPoint. rewrite <- Hc.
  apply (marketRange_spans (c0 :: rest) r Hsorted Hrange c Hin).
Qed.

Lemma projection_survives_clipping_witness :
  exists points,
    expectedSeatsPoints sampleBasket
      (Some (map Candle.timestamp
               [sampleCandle 500 (1 # 2); sampleCandle 1000 (1 # 2);
                sampleCandle 1500 (1 # 2)])) = Value points /\
    clipPointsToRange points (Some (mkRange 500 1500)) = points.
Proof.
  eexists. split; [reflexivity |].
  apply (projection_survives_clipping
           [sampleCandle 500 (1 # 2); sampleCandle 1000 (1 # 2);
            sampleCandle 1500 (1 # 2)] sampleBasket).
  - unfold ascending, timestamp, Timestamped_Candle. repeat constructor; simpl; lia.
  - reflexivity.
  - reflexivity.
Defined.

(* ================================================================== *)
(** * Part V: time windows *)
(* ================================================================== *)

(** X9. The sampling interval inferred for a custom range is 1, 60 or
    1440 minutes, never gets finer when the range gets longer, is 1 for an
    empty or reversed range, and, unless it is the daily one, covers the
    range with at most 2160 periods. *)
Theorem inferCustomPeriodInterval_granularity (s e s' e' : Z) :
  (inferCustomPeriodInterval s e = 1 \/ inferCustomPeriodInterval s e = 60 \/
   inferCustomPeriodInterval s e = 1440) /\
  (e - s <= e' - s' ->
     inferCustomPeriodInterval s e <= inferCustomPeriodInterval s' e') /\
  (e <= s -> inferCustomPeriodInterval s e = 1) /\
  (inferCustomPeriodInterval s e <> 1440 ->
     e - s <= 2160 * (inferCustomPeriodInterval s e * 60 * 1000)).
Proof.
  unfold inferCustomPeriodInterval.
  destruct (Z.leb_spec (Z.max 0 (e - s)) (36 * 60 * 60 * 1000));
    destruct (Z.leb_spec (Z.max 0 (e - s)) (21 * 24 * 60 * 60 * 1000));
    destruct (Z.leb_spec (Z.max 0 (e' - s')) (36 * 60 * 60 * 1000));
    destruct (Z.leb_spec (Z.max 0 (e' - s')) (21 * 24 * 60 * 60 * 1000));
    repeat split; try tauto; try lia.
Qed.

Lemma inferCustomPeriodInterval_granularity_witness :
  inferCustomPeriodInterval 0 (3 * 24 * 60 * 60 * 1000)
  <= inferCustomPeriodInterval 0 (40 * 24 * 60 * 60 * 1000) /\
  inferCustomPeriodInterval 5000 1000 = 1.
Proof.
  destruct (inferCustomPeriodInterval_granularity
              0 (3 * 24 * 60 * 60 * 1000) 0 (40 * 24 * 60 * 60 * 1000))
    as [_ [Hmono _]].
  destruct (inferCustomPeriodInterval_granularity 5000 1000 0 0)
    as [_ [_ [Hrev _]]].
  split; [apply Hmono; lia | apply Hrev; lia].
Defined.

(** X10. The named windows all end at [now] and are nested: at any time
    at least 30 days after the epoch, the 1D window lies in the 7D window,
    that in the 30D window, and that in the ALL window, whatever custom
    range is passed along; ALL starts at the epoch. *)
Theorem getTimeWindow_nested (now : Z) (customRange : option TimeRange) :
  30 * 24 * 60 * 60 * 1000 <= now ->
  let w := fun timeframe => getTimeWindow now timeframe customRange in
  (endMs (w D1) = now /\ endMs (w D7) = now /\ endMs (w D30) = now /\
   endMs (w ALL) = now) /\
  startMs (w ALL) = 0 /\
  startMs (w ALL) <= startMs (w D30) /\
  startMs (w D30) <= startMs (w D7) /\
  startMs (w D7) <= startMs (w D1) /\
  startMs (w D1) <= now.
Proof.
  intros Hnow. simpl. unfold getTimeWindow, lookback; simpl.
  destruct customRange; simpl; lia.
Qed.

Lemma getTimeWindow_nested_witness :
  startMs (getTimeWindow 1700000000000 D30 None)
  <= startMs (getTimeWindow 1700000000000 D7 None) /\
  startMs (getTimeWindow 1700000000000 ALL (Some (mkRange 5 6))) = 0.
Proof.
  destruct (getTimeWindow_nested 1700000000000 None ltac:(lia))
    as [_ [_ [_ [H30 _]]]].
  destruct (getTimeWindow_nested 1700000000000 (Some (mkRange 5 6)) ltac:(lia))
    as [_ [Hall _]].
  split; [exact H30 | exact Hall].
Defined.

(** X11. The candlestick request and the overlay window agree on every
    timeframe but ALL: the request asks for the window of [getTimeWindow]
    in whole seconds.  On ALL the request reaches back 365 days while the
    overlay window starts at the epoch. *)
Theorem candlestickQuery_window (now : Z) (timeframe : Timeframe)
    (customRange : option TimeRange) :
  CandlestickQuery.end_ts (candlestickQuery now timeframe customRange)
  = endMs (getTimeWindow now timeframe customRange) / 1000 /\
  (timeframe <> ALL ->
     CandlestickQuery.start_ts (candlestickQuery now timeframe customRange)
     = startMs (getTimeWindow now timeframe customRange) / 1000) /\
  (timeframe = ALL ->
     CandlestickQuery.start_ts (candlestickQuery now timeframe customRange)
     = (now - 365 * 24 * 60 * 60 * 1000) / 1000 /\
     startMs (getTimeWindow now timeframe customRange) = 0).
Proof.
  unfold candlestickQuery, getTimeWindow.
  destruct timeframe, customRange; simpl; repeat split; try congruence;
    intros; try discriminate; reflexivity.
Qed.

Lemma candlestickQuery_window_witness :
  CandlestickQuery.start_ts (candlestickQuery 1700000000123 D7 None)
  = startMs (getTimeWindow 1700000000123 D7 None) / 1000.
Proof.
  destruct (candlestickQuery_window 1700000000123 D7 None) as [_ [Hstart _]].
  apply Hstart. discriminate.
Defined.

(** X12. On the named timeframes the candlestick request spans a whole
    number of sampling periods whatever the clock shows: 24 for 1D, 168
    for 7D, 30 for 30D and 365 for ALL, a custom range being ignored. *)
Theorem candlestickQuery_period_count (now : Z) (timeframe : Timeframe)
    (customRange : option TimeRange) :
  timeframe <> CUSTOM ->
  let q := candlestickQuery now timeframe customRange in
  let periods :=
    match timeframe with
    | D1 => 24
    | D7 => 168
    | D30 => 30
    | _ => 365
    end in
  CandlestickQuery.end_ts q - CandlestickQuery.start_ts q
  = periods * (CandlestickQuery.period_interval q * 60) /\
  periods <= 365.
Proof.
  intros Hnamed.
  unfold candlestickQuery.
  destruct timeframe; try congruence; destruct customRange; simpl;
    unfold lookback; simpl; split; try lia;
    Z.to_euclidean_division_equations; lia.
Qed.

Lemma candlestickQuery_period_count_witness :
  CandlestickQuery.end_ts (candlestickQuery 1700000000123 D7 None)
  - CandlestickQuery.start_ts (candlestickQuery 1700000000123 D7 None)
  = 168 * (CandlestickQuery.period_interval (candlestickQuery 1700000000123 D7 None) * 60).
Proof.
  destruct (candlestickQuery_period_count 1700000000123 D7 None ltac:(discriminate))
    as [Hcount _].
  exact Hcount.
Defined.

(* ================================================================== *)
(** * Part VI: series tickers and comparison overlays *)
(* ================================================================== *)

Local Open Scope string_scope.

Lemma indexOf_lower (s : string) (c : ascii) : -1 <= indexOf s c.
Proof.
  induction s as [| a s IH]; simpl; [lia |].
  destruct (Ascii.eqb a c); [lia |].
  destruct (Z.ltb_spec (indexOf s c) 0); lia.
Qed.

Lemma indexOf_split (s : string) (c : ascii) :
  0 <= indexOf s c ->
  exists pre rest,
    s = pre ++ String c rest /\ indexOf pre c = -1 /\
    indexOf s c = Z.of_nat (String.length pre) /\
    substring 0 (String.length pre) s = pre.
Proof.
  induction s as [| a s IH]; simpl; [lia |].
  destruct (Ascii.eqb_spec a c) as [-> | Hne].
  - intros _. exists "", s. repeat split.
  - destruct (Z.ltb_spec (indexOf s c) 0) as [Hneg | Hpos]; [lia |].
    intros _. destruct (IH Hpos) as [pre [rest [Hs [Hpre [Hidx Hsub]]]]].
    exists (String a pre), rest. simpl.
    destruct (Ascii.eqb_spec a c); [congruence |].
    rewrite Hpre; simpl. rewrite Hsub. repeat split; [congruence | lia].
Qed.

Lemma indexOf_append (pre rest : string) (c : ascii) :
  indexOf pre c = -1 ->
  indexOf (pre ++ String c rest) c = Z.of_nat (String.length pre) /\
  substring 0 (String.length pre) (pre ++ String c rest) = pre.
Proof.
  induction pre as [| a pre IH]; simpl.
  - intros _. rewrite Ascii.eqb_refl. split; reflexivity.
  - destruct (Ascii.eqb a c); [lia |].
    destruct (Z.ltb_spec (indexOf pre c) 0) as [Hneg | Hpos]; [| lia].
    intros _. pose proof (indexOf_lower pre c).
    destruct (IH ltac:(lia)) as [Hidx Hsub].
    rewrite Hidx, Hsub.
    destruct (Z.ltb_spec (Z.of_nat (String.length pre)) 0); [lia |].
    split; [lia | reflexivity].
Qed.

(** X13. [inferSeriesTicker] returns [s] exactly when the market id is
    [s], then a dash, then anything, with [s] non-empty and free of
    dashes; it returns [null] exactly when the id has no dash or begins
    with one. *)
Theorem inferSeriesTicker_spec (marketId s : string) :
  (inferSeriesTicker marketId = Some s <->
     s <> "" /\ indexOf s "-" = -1 /\ exists rest, marketId = s ++ "-" ++ rest) /\
  (inferSeriesTicker marketId = None <->
     indexOf marketId "-" = -1 \/ exists rest, marketId = "-" ++ rest).
Proof.
  unfold inferSeriesTicker, sliceTo. split.
  - split.
    + destruct (Z.leb_spec (indexOf marketId "-") 0) as [Hle | Hgt]; [discriminate |].
      intros Heq. injection Heq as <-.
      destruct (indexOf_split marketId "-" ltac:(lia))
        as [pre [rest [Hs [Hpre [Hidx Hsub]]]]].
      rewrite Hidx, Nat2Z.id, Hsub.
      repeat split; [| exact Hpre | exists rest; exact Hs].
      intros ->. simpl in Hidx. lia.
    + intros [Hne [Hfree [rest ->]]].
      destruct (indexOf_append s rest "-" Hfree) as [Hidx Hsub].
      change (s ++ "-" ++ rest) with (s ++ String "-" rest).
      rewrite Hidx.
      destruct (Z.leb_spec (Z.of_nat (String.length s)) 0) as [Hle | Hgt].
      * destruct s; [congruence | simpl in Hle; lia].
      * rewrite Nat2Z.id, Hsub. reflexivity.
  - pose proof (indexOf_lower marketId "-") as Hlow.
    split.
    + destruct (Z.leb_spec (indexOf marketId "-") 0) as [Hle | Hgt]; [| discriminate].
      intros _.
      destruct (Z.eq_dec (indexOf marketId "-") (-1)) as [Hnone | Hsome]; [left; exact Hnone |].
      right. destruct (indexOf_split marketId "-" ltac:(lia))
        as [pre [rest [Hs [_ [Hidx _]]]]].
      assert (pre = "") by (destruct pre; [reflexivity | simpl in Hidx; lia]).
      subst pre. exists rest. exact Hs.
    + intros [Hnone | [rest ->]].
      * rewrite Hnone. reflexivity.
      * reflexivity.
Qed.

(** ** The overlay list *)

Lemma NoDup_map_filter {A B : Type} (f : A -> B) (g : A -> bool) (l : list A) :
  NoDup (map f l) -> NoDup (map f (filter g l)).
Proof.
  induction l as [| x l IH]; simpl; intros Hnd; [constructor |].
  inversion Hnd as [| ? ? Hnotin Hnd']; subst.
  destruct (g x); simpl; [| apply IH; exact Hnd'].
  constructor; [| apply IH; exact Hnd'].
  intros Hin. apply Hnotin. apply in_map_iff in Hin.
  destruct Hin as [y [Hy Hin]]. apply filter_In in Hin.
  apply in_map_iff. exists y. tauto.
Qed.

Lemma palette_index (n : Z) :
  0 <= n ->
  exists color, element CUSTOM_OVERLAY_COLORS (n mod len CUSTOM_OVERLAY_COLORS)
                = Value color /\ In color CUSTOM_OVERLAY_COLORS.
Proof.
  intros Hn.
  assert (Hr : 0 <= n mod len CUSTOM_OVERLAY_COLORS < len CUSTOM_OVERLAY_COLORS).
  { apply Z.mod_pos_bound. reflexivity. }
  destruct (index_in_range CUSTOM_OVERLAY_COLORS _ Hr) as [color Hc].
  exists color. unfold element. rewrite Hc. split; [reflexivity |].
  eapply index_In; eauto.
Qed.

Lemma compareStep_invariant (trim toUpperCase : string -> string)
    (st : CompareState) (e : CompareEvent) :
  compareInvariant st ->
  exists st', compareStep trim toUpperCase st e = Value st' /\ compareInvariant st'.
Proof.
  intros [Hnd Hwf]. destruct e as [value | | overlayId checked | overlayId]; simpl.
  - eexists. split; [reflexivity |]. split; assumption.
  - unfold addCustomCompareMarket.
    set (ticker := toUpperCase (trim (CompareState.compareTickerInput st))).
    destruct (String.eqb ticker "");
      [eexists; split; [reflexivity |]; split; assumption |].
    destruct (existsb _ (CompareState.customCompareMarkets st)) eqn:Hdup;
      [eexists; split; [reflexivity |]; split; assumption |].
    destruct (inferSeriesTicker ticker) as [derived |] eqn:Hseries;
      [| eexists; split; [reflexivity |]; split; assumption].
    destruct (String.eqb_spec derived "") as [Hempty | Hnonempty];
      [eexists; split; [reflexivity |]; split; assumption |].
    destruct (palette_index (len (CompareState.customCompareMarkets st)))
      as [[top bottom] [Hcolor Hin]]; [unfold len; lia |].
    rewrite Hcolor; simpl.
    eexists. split; [reflexivity |]. split; simpl.
    + rewrite map_app; simpl.
      apply NoDup_app; [exact Hnd | constructor; [intros [] | constructor] |].
      intros x Hx [<- | []].
      apply in_map_iff in Hx. destruct Hx as [m [Hm Hmin]].
      rewrite Forall_forall in Hwf. destruct (Hwf m Hmin) as [Hid _].
      assert (Hex : existsb (fun m0 => String.eqb (CustomCompareMarket.ticker m0) ticker)
                      (CompareState.customCompareMarkets st) = true).
      { apply existsb_exists. exists m. split; [exact Hmin |].
        apply String.eqb_eq. congruence. }
      congruence.
    + apply Forall_app. split; [exact Hwf |].
      constructor; [| constructor].
      unfold wellFormedOverlay; simpl. repeat split; assumption.
  - eexists. split; [reflexivity |]. split; simpl.
    + rewrite map_map.
      erewrite map_ext; [exact Hnd |].
      intros m. simpl. destruct (String.eqb _ _); reflexivity.
    + apply Forall_forall. intros m Hm. apply in_map_iff in Hm.
      destruct Hm as [m0 [Hm0 Hin]]. rewrite Forall_forall in Hwf.
      specialize (Hwf m0 Hin).
      destruct (String.eqb _ _); subst m; exact Hwf.
  - eexists. split; [reflexivity |]. split; simpl.
    + apply NoDup_map_filter. exact Hnd.
    + apply Forall_forall. intros m Hm. apply filter_In in Hm.
      rewrite Forall_forall in Hwf. apply Hwf. tauto.
Qed.

Lemma compareRun_invariant (trim toUpperCase : string -> string)
    (events : list CompareEvent) :
  forall st, compareInvariant st ->
    exists st', compareRun trim toUpperCase st events = Value st' /\ compareInvariant st'.
Proof.
  induction events as [| e events IH]; intros st Hinv; simpl.
  - exists st. split; [reflexivity | exact Hinv].
  - destruct (compareStep_invariant trim toUpperCase st e Hinv) as [st1 [Hstep Hinv1]].
    rewrite Hstep; simpl. apply IH. exact Hinv1.
Qed.

Lemma initialCompareState_invariant : compareInvariant initialCompareState.
Proof. split; simpl; constructor. Qed.

(** X14. Whatever the user types, adds, toggles and removes, and whatever
    [trim] and [toUpperCase] do, the handlers never fail and the overlay
    list never holds the same id twice; every overlay has its ticker as
    id, the prefix of the ticker before its first dash as series, the
    label "<ticker> Market" and a colour pair of the palette. *)
Theorem compare_overlays_stay_distinct (trim toUpperCase : string -> string)
    (events : list CompareEvent) :
  exists st,
    compareRun trim toUpperCase initialCompareState events = Value st /\
    NoDup (map CustomCompareMarket.id (CompareState.customCompareMarkets st)) /\
    Forall wellFormedOverlay (CompareState.customCompareMarkets st).
Proof.
  destruct (compareRun_invariant trim toUpperCase events initialCompareState
              initialCompareState_invariant) as [st [Hrun [Hnd Hwf]]].
  exists st. repeat split; assumption.
Qed.

(** X15. A candlestick request for an overlay of the list takes the
    Kalshi branch whatever the base URL is and never fails for want of a
    series: the series it uses is the overlay's own, which is the one
    [inferSeriesTicker] derives from the ticker. *)
Theorem overlay_request_has_series (trim toUpperCase : string -> string)
    (events : list CompareEvent) (st : CompareState)
    (m : CustomCompareMarket) (normalizedBase : string) :
  compareRun trim toUpperCase initialCompareState events = Value st ->
  In m (CompareState.customCompareMarkets st) ->
  isKalshi (Some (CustomCompareMarket.seriesTicker m)) normalizedBase = true /\
  resolvedSeries (Some (CustomCompareMarket.seriesTicker m)) (CustomCompareMarket.ticker m)
    = Some (CustomCompareMarket.seriesTicker m) /\
  resolvedSeries None (CustomCompareMarket.ticker m)
    = Some (CustomCompareMarket.seriesTicker m).
Proof.
  intros Hrun Hin.
  destruct (compareRun_invariant trim toUpperCase events initialCompareState
              initialCompareState_invariant) as [st' [Hrun' [_ Hwf]]].
  rewrite Hrun in Hrun'. injection Hrun' as <-.
  rewrite Forall_forall in Hwf.
  destruct (Hwf m Hin) as [_ [Hseries [Hne _]]].
  assert (Htruthy : truthy (Some (CustomCompareMarket.seriesTicker m)) = true).
  { simpl. destruct (String.eqb_spec (CustomCompareMarket.seriesTicker m) "");
      [contradiction | reflexivity]. }
  unfold isKalshi, resolvedSeries. rewrite Htruthy, Hseries. simpl.
  destruct (String.eqb_spec (CustomCompareMarket.seriesTicker m) "");
    [contradiction |].
  repeat split.
Qed.

Lemma overlay_request_has_series_witness :
  exists st m,
    compareRun (fun s => s) (fun s => s) initialCompareState
      [TypeTicker "CONTROLS-2026-D"; AddMarket; TypeTicker "CONTROLS-2026-D"; AddMarket]
    = Value st /\
    CompareState.customCompareMarkets st = [m] /\
    CustomCompareMarket.seriesTicker m = "CONTROLS" /\
    resolvedSeries None (CustomCompareMarket.ticker m)
      = Some (CustomCompareMarket.seriesTicker m).
Proof.
  eexists. eexists.
  split; [reflexivity |].
  split; [reflexivity |].
  split; [reflexivity |].
  eapply (overlay_request_has_series (fun s => s) (fun s => s)
            [TypeTicker "CONTROLS-2026-D"; AddMarket;
             TypeTicker "CONTROLS-2026-D"; AddMarket] _ _ "https://example.org").
  - reflexivity.
  - simpl. left. reflexivity.
Defined.

Local Close Scope string_scope.

(* ================================================================== *)
(** * Part VII: days and daily averages of the approval polls *)
(* ================================================================== *)

Lemma civilRoundTripFrom_at (n : nat) :
  forall start,
    civilRoundTripFrom n start = true ->
    forall doe, start <= doe < start + Z.of_nat n -> civilRoundTripAt doe = true.
Proof.
  induction n as [| k IH]; simpl; intros start Hall doe Hdoe; [lia |].
  apply andb_true_iff in Hall. destruct Hall as [Hk Hrest].
  destruct (Z.eq_dec doe start) as [-> | Hne]; [exact Hk |].
  apply (IH (start + 1)); [exact Hrest | lia].
Qed.

Lemma civilRoundTrip_era : civilRoundTripFrom (Z.to_nat 146097) 0 = true.
Proof. vm_compute. reflexivity. Qed.

Lemma civilFromDays_era (days : Z) :
  let era := (days + 719468) / 146097 in
  0 <= days - era * 146097 + 719468 < 146097 /\
  civilFromDays days
  = (let '(y, m, d) := civilFromDays (days - era * 146097) in (y + era * 400, m, d)).
Proof.
  intros era.
  assert (Hdoe : 0 <= days - era * 146097 + 719468 < 146097).
  { unfold era. Z.to_euclidean_division_equations. lia. }
  split; [exact Hdoe |].
  unfold civilFromDays.
  replace ((days - era * 146097 + 719468) / 146097) with 0
    by (symmetry; apply Z.div_small; exact Hdoe).
  fold era.
  replace (days - era * 146097 + 719468 - 0 * 146097)
    with (days + 719468 - era * 146097) by lia.
  set (doe := days + 719468 - era * 146097).
  cbv zeta.
  set (yoe := (doe - doe / 1460 + doe / 36524 - doe / 146096) / 365).
  set (doy := doe - (365 * yoe + yoe / 4 - yoe / 100)).
  set (mp := (5 * doy + 2) / 153).
  destruct (mp <? 10); destruct (_ <=? 2); f_equal; f_equal; lia.
Qed.

Lemma daysFromCivil_era (y m d k : Z) :
  daysFromCivil (y + k * 400) m d = daysFromCivil y m d + k * 146097.
Proof.
  unfold daysFromCivil.
  destruct (m <=? 2).
  - replace (y + k * 400 - 1) with (y - 1 + k * 400) by lia.
    rewrite Z.div_add by lia. cbv zeta.
    set (q := (y - 1) / 400).
    replace (y - 1 + k * 400 - (q + k) * 400) with (y - 1 - q * 400) by lia.
    lia.
  - rewrite Z.div_add by lia. cbv zeta.
    set (q := y / 400).
    replace (y + k * 400 - (q + k) * 400) with (y - q * 400) by lia.
    lia.
Qed.

(** Every day number converts to a date with a month in [1 .. 12] and a
    day in [1 .. 31], and that date converts back to the day number. *)
Lemma civil_round_trip (days : Z) :
  exists y m d,
    civilFromDays days = (y, m, d) /\ 1 <= m <= 12 /\ 1 <= d <= 31 /\
    daysFromCivil y m d = days.
Proof.
  destruct (civilFromDays_era days) as [Hdoe Hera].
  set (era := (days + 719468) / 146097) in *.
  pose proof (civilRoundTripFrom_at (Z.to_nat 146097) 0 civilRoundTrip_era
                (days - era * 146097 + 719468) ltac:(lia)) as Hat.
  unfold civilRoundTripAt in Hat.
  replace (days - era * 146097 + 719468 - 719468) with (days - era * 146097) in Hat by lia.
  destruct (civilFromDays (days - era * 146097)) as [[y m] d].
  rewrite !andb_true_iff in Hat.
  destruct Hat as [[[[Hm1 Hm2] Hd1] Hd2] Hback].
  apply Z.leb_le in Hm1, Hm2, Hd1, Hd2. apply Z.eqb_eq in Hback.
  exists (y + era * 400), m, d.
  split; [exact Hera |]. repeat split; try lia.
  rewrite daysFromCivil_era. lia.
Qed.

Lemma daysFromCivil_day (y m d : Z) :
  daysFromCivil y m 1 + d - 1 = daysFromCivil y m d.
Proof. unfold daysFromCivil. cbv zeta. lia. Qed.

Lemma dayTsOf_day_start (p : ProjectionPoint) :
  let t := ProjectionPoint.timestamp p in
  (0 <= t -> 99 < getUTCFullYear t) /\
  (getUTCFullYear t < 0 \/ 99 < getUTCFullYear t ->
   dayTsOf p = Day t * msPerDay /\
   dayTsOf p <= t < dayTsOf p + msPerDay).
Proof.
  intros t. split.
  - intros Ht. unfold getUTCFullYear.
    destruct (civilFromDays_era (Day t)) as [Hdoe Hera].
    assert (Hera4 : 4 <= (Day t + 719468) / 146097).
    { assert (0 <= Day t) by (unfold Day, msPerDay; apply Z.div_pos; lia).
      apply Z.div_le_lower_bound; lia. }
    set (era := (Day t + 719468) / 146097) in *.
    rewrite Hera.
    assert (Hy : 0 <= fst (fst (civilFromDays (Day t - era * 146097)))).
    { unfold civilFromDays.
      replace ((Day t - era * 146097 + 719468) / 146097) with 0
        by (symmetry; apply Z.div_small; exact Hdoe).
      cbv zeta.
      set (doe := Day t - era * 146097 + 719468 - 0 * 146097).
      assert (0 <= doe < 146097) by (unfold doe; lia).
      assert (0 <= (doe - doe / 1460 + doe / 36524 - doe / 146096) / 365).
      { apply Z.div_pos; [| lia]. Z.to_euclidean_division_equations. lia. }
      destruct (_ <=? 2); simpl; lia. }
    destruct (civilFromDays (Day t - era * 146097)) as [[y m] d].
    simpl in *. lia.
  - intros Hyear.
    assert (Hstart : dayTsOf p = Day t * msPerDay).
    { unfold dayTsOf, Date_UTC. fold t.
      unfold getUTCFullYear, getUTCMonth, getUTCDate in *.
      destruct (civil_round_trip (Day t)) as [y [m [d [Hc [Hm [Hd Hback]]]]]].
      rewrite Hc in *. simpl in *.
      assert (Hq : ((0 <=? y) && (y <=? 99)) = false).
      { apply andb_false_iff.
        destruct Hyear; [left; apply Z.leb_gt | right; apply Z.leb_gt]; lia. }
      rewrite Hq.
      replace ((m - 1) / 12) with 0 by (symmetry; apply Z.div_small; lia).
      replace ((m - 1) mod 12) with (m - 1) by (symmetry; apply Z.mod_small; lia).
      replace (y + 0) with y by lia. replace (m - 1 + 1) with m by lia.
      rewrite daysFromCivil_day, Hback. reflexivity. }
    split; [exact Hstart |].
    rewrite Hstart. unfold Day, msPerDay.
    Z.to_euclidean_division_equations. lia.
Qed.

(** X16. For a time whose UTC year is outside [0 .. 99], and so for every
    time from 1970 on, rebuilding the date with [Date.UTC] from the UTC
    year, month and day of the month gives the midnight that starts the
    UTC day of that time: the day key of a poll is the start of its own
    day. *)
Theorem dayTsOf_starts_the_day (p : ProjectionPoint) :
  let t := ProjectionPoint.timestamp p in
  (0 <= t -> 99 < getUTCFullYear t) /\
  (getUTCFullYear t < 0 \/ 99 < getUTCFullYear t ->
   dayTsOf p = Day t * msPerDay /\
   dayTsOf p <= t < dayTsOf p + msPerDay).
Proof. exact (dayTsOf_day_start p). Qed.

Lemma dayTsOf_starts_the_day_witness :
  dayTsOf (ProjectionPoint.mk 1709210096000 40) = Day 1709210096000 * msPerDay.
Proof.
  destruct (dayTsOf_starts_the_day (ProjectionPoint.mk 1709210096000 40))
    as [Hyear Hstart].
  apply Hstart. right. apply Hyear. simpl. lia.
Defined.

(** ** Daily averages *)

Lemma Map_get_set {V : Type} (m : list (Z * V)) (key : Z) (v : V) (k : Z) :
  Map_get (Map_set m key v) k = if k =? key then Some v else Map_get m k.
Proof.
  unfold Map_get. induction m as [| e m IH]; simpl.
  - rewrite (Z.eqb_sym key k). destruct (k =? key); reflexivity.
  - destruct (Z.eqb_spec (fst e) key) as [Heq | Hne]; simpl.
    + rewrite (Z.eqb_sym key k). rewrite Heq.
      destruct (Z.eqb_spec k key); [reflexivity |].
      destruct (Z.eqb_spec key k); [congruence | reflexivity].
    + destruct (Z.eqb_spec (fst e) k) as [Hk | Hnk].
      * destruct (Z.eqb_spec k key); [congruence | reflexivity].
      * exact IH.
Qed.

Lemma Map_get_In {V : Type} (m : list (Z * V)) (k : Z) (v : V) :
  NoDup (map fst m) -> In (k, v) m -> Map_get m k = Some v.
Proof.
  unfold Map_get. induction m as [| e m IH]; simpl; intros Hnd Hin; [contradiction |].
  inversion Hnd as [| ? ? Hnotin Hnd']; subst.
  destruct Hin as [-> | Hin]; simpl.
  - rewrite Z.eqb_refl. reflexivity.
  - destruct (Z.eqb_spec (fst e) k) as [Heq | Hne].
    + exfalso. apply Hnotin. rewrite Heq.
      apply (in_map fst) in Hin. exact Hin.
    + apply IH; assumption.
Qed.

Lemma sumQ_app (xs ys : list Q) : (sumQ (xs ++ ys) == sumQ xs + sumQ ys)%Q.
Proof.
  induction xs as [| x xs IH]; simpl; [ring | rewrite IH; ring].
Qed.

Lemma pollsOfDay_snoc (raw : list ProjectionPoint) (p : ProjectionPoint) (k : Z) :
  pollsOfDay (raw ++ [p]) k
  = pollsOfDay raw k ++ (if dayTsOf p =? k then [p] else []).
Proof. unfold pollsOfDay. rewrite filter_app. reflexivity. Qed.

Lemma addToBucket_matches (dayBuckets : list (Z * Bucket))
    (raw : list ProjectionPoint) (p : ProjectionPoint) :
  bucketsMatch dayBuckets raw ->
  bucketsMatch (addToBucket dayBuckets p) (raw ++ [p]).
Proof.
  intros Hinv k. unfold addToBucket. rewrite Map_get_set.
  unfold daySum, dayCount. rewrite pollsOfDay_snoc.
  pose proof (Hinv k) as Hk. pose proof (Hinv (dayTsOf p)) as Hp.
  unfold daySum, dayCount in Hk, Hp.
  rewrite (Z.eqb_sym (dayTsOf p) k).
  destruct (Z.eqb_spec k (dayTsOf p)) as [-> | Hne].
  - rewrite map_app, sumQ_app. unfold len in *. rewrite length_app. simpl.
    destruct (Map_get dayBuckets (dayTsOf p)) as [b |]; simpl.
    + destruct Hp as [Hsum [Hcount Hpos]].
      split; [rewrite Hsum; ring |]. split; lia.
    + destruct (pollsOfDay raw (dayTsOf p)) as [| q l]; [| simpl in Hp; lia].
      simpl. split; [ring |]. split; lia.
  - rewrite app_nil_r. exact Hk.
Qed.

Lemma dayBucketsOf_matches (raw : list ProjectionPoint) :
  bucketsMatch (dayBucketsOf raw) raw.
Proof.
  unfold dayBucketsOf.
  induction raw as [| p raw IH] using rev_ind.
  - intros k. reflexivity.
  - rewrite fold_left_app. simpl. apply addToBucket_matches. exact IH.
Qed.

(** X17. Every point of the daily sequence is the arithmetic mean of the
    polls that share its day key: its value is their sum divided by their
    number, and there is at least one of them. *)
Theorem dailyOf_is_the_mean (raw : list ProjectionPoint) (p : ProjectionPoint) :
  In p (dailyOf raw) ->
  0 < dayCount raw (ProjectionPoint.timestamp p) /\
  (ProjectionPoint.value p ==
   daySum raw (ProjectionPoint.timestamp p)
   / inject_Z (dayCount raw (ProjectionPoint.timestamp p)))%Q.
Proof.
  intros Hin. unfold dailyOf in Hin.
  apply (Permutation_in _ (sortByTimestamp_perm _)) in Hin.
  apply in_map_iff in Hin. destruct Hin as [[k b] [<- Hkb]]. simpl.
  destruct (fold_addToBucket_keys raw [] (NoDup_nil _)) as [Hnd _].
  pose proof (Map_get_In (dayBucketsOf raw) k b Hnd Hkb) as Hget.
  pose proof (dayBucketsOf_matches raw k) as Hmatch.
  rewrite Hget in Hmatch. destruct Hmatch as [Hsum [Hcount Hpos]].
  split; [lia |]. rewrite Hsum, Hcount. reflexivity.
Qed.

Lemma dailyOf_is_the_mean_witness :
  0 < dayCount
        [ProjectionPoint.mk 1709210096000 40; ProjectionPoint.mk 1709220000000 42;
         ProjectionPoint.mk 1709300000000 50; ProjectionPoint.mk 1709230000000 44]
        1709164800000 /\
  (126 # 3 ==
   daySum
     [ProjectionPoint.mk 1709210096000 40; ProjectionPoint.mk 1709220000000 42;
      ProjectionPoint.mk 1709300000000 50; ProjectionPoint.mk 1709230000000 44]
     1709164800000
   / inject_Z
       (dayCount
          [ProjectionPoint.mk 1709210096000 40; ProjectionPoint.mk 1709220000000 42;
           ProjectionPoint.mk 1709300000000 50; ProjectionPoint.mk 1709230000000 44]
          1709164800000))%Q.
Proof.
  apply (dailyOf_is_the_mean
           [ProjectionPoint.mk 1709210096000 40; ProjectionPoint.mk 1709220000000 42;
            ProjectionPoint.mk 1709300000000 50; ProjectionPoint.mk 1709230000000 44]
           (ProjectionPoint.mk 1709164800000 (126 # 3))).
  vm_compute. left. reflexivity.
Defined.

(* ================================================================== *)
(** * Part VIII: drag selection *)
(* ================================================================== *)

Lemma getIndexFromClientX_in_bounds (timestamps : list Z) (pointer : option Z) :
  exists r,
    getIndexFromClientX timestamps pointer = Value r /\
    forall i, r = Some i -> 0 <= i < len timestamps.
Proof.
  unfold getIndexFromClientX.
  destruct (Z.eqb_spec (len timestamps) 0) as [Hempty | Hne].
  - exists None. split; [reflexivity | discriminate].
  - destruct pointer as [ts |]; [| exists None; split; [reflexivity | discriminate]].
    assert (Hlen : 0 < len timestamps) by (unfold len in *; lia).
    destruct (nearestIndex_loop_runs timestamps ts (length timestamps)
                0 (len timestamps - 1)) as [o [Ho Hb]]; try (unfold len in *; lia).
    unfold nearestIndexByTimestamp.
    destruct (Z.eqb_spec (len timestamps) 0); [lia |].
    rewrite Ho. cbn [bind].
    assert (Hok : forall i, 0 <= i < len timestamps ->
              exists r, (j <- Value i ;; Value (Some j)) = Value r /\
                        forall k, r = Some k -> 0 <= k < len timestamps).
    { intros i Hi. exists (Some i). split; [reflexivity |].
      intros k Hk. injection Hk as <-. exact Hi. }
    destruct o as [mid | lo hi].
    + apply Hok. lia.
    + destruct (Z.leb_spec lo 0); [apply Hok; lia |].
      destruct (Z.geb_spec lo (len timestamps)); [apply Hok; lia |].
      destruct (dist_less _ _); apply Hok; lia.
Qed.

Lemma dragStep_invariant (timestamps : list Z) (st : DragState) (e : DragEvent) :
  dragInvariant (len timestamps) st ->
  exists st', dragStep timestamps st e = Value st' /\
              dragInvariant (len timestamps) st'.
Proof.
  intros Hinv. destruct e as [pointer | pointer |]; simpl.
  - unfold startDrag.
    destruct (getIndexFromClientX_in_bounds timestamps pointer) as [r [Hr Hb]].
    rewrite Hr; simpl. destruct r as [i |].
    + eexists. split; [reflexivity |]. unfold dragInvariant; simpl.
      specialize (Hb i eq_refl). lia.
    + exists st. split; [reflexivity | exact Hinv].
  - unfold moveDrag.
    destruct (DragState.isDragging st) eqn:Hdrag; simpl;
      [| exists st; split; [reflexivity | exact Hinv]].
    destruct (getIndexFromClientX_in_bounds timestamps pointer) as [r [Hr Hb]].
    rewrite Hr; simpl. destruct r as [i |].
    + eexists. split; [reflexivity |].
      unfold dragInvariant in *; simpl.
      destruct (DragState.dragSelection st) as [d |]; simpl; [| congruence].
      specialize (Hb i eq_refl). lia.
    + exists st. split; [reflexivity | exact Hinv].
  - eexists. split; [reflexivity |]. reflexivity.
Qed.

Lemma dragRun_invariant (timestamps : list Z) (events : list DragEvent) :
  forall st, dragInvariant (len timestamps) st ->
    exists st', dragRun timestamps st events = Value st' /\
                dragInvariant (len timestamps) st'.
Proof.
  induction events as [| e events IH]; intros st Hinv; simpl.
  - exists st. split; [reflexivity | exact Hinv].
  - destruct (dragStep_invariant timestamps st e Hinv) as [st1 [Hstep Hinv1]].
    rewrite Hstep; simpl. apply IH. exact Hinv1.
Qed.

(** X18. Whatever sequence of press, move and release events the chart
    receives over a fixed set of candles, the handlers never fail, a
    selection exists exactly while dragging, and its two indices are
    valid candle indices: [selectionRange] then returns the ordered pair
    of them and [selectionSummary] is not [null]. *)
Theorem drag_selection_in_bounds (candles : list Candle) (events : list DragEvent) :
  exists st,
    dragRun (map Candle.timestamp candles) initialDragState events = Value st /\
    (DragState.isDragging st = true <-> DragState.dragSelection st <> None) /\
    forall d, DragState.dragSelection st = Some d ->
      selectionRange (Some d) (len candles)
      = Some (SelectionRange.mk
                (Z.min (DragSelection.startIndex d) (DragSelection.endIndex d))
                (Z.max (DragSelection.startIndex d) (DragSelection.endIndex d))) /\
      selectionSummary (selectionRange (Some d) (len candles)) candles <> None.
Proof.
  destruct (dragRun_invariant (map Candle.timestamp candles) events initialDragState)
    as [st [Hrun Hinv]]; [reflexivity |].
  assert (Hmap : len (map Candle.timestamp candles) = len candles).
  { unfold len. rewrite length_map. reflexivity. }
  rewrite Hmap in Hinv.
  exists st. split; [exact Hrun |].
  unfold dragInvariant in Hinv. split.
  - destruct (DragState.dragSelection st) as [d |].
    + split; [discriminate | tauto].
    + rewrite Hinv. split; [discriminate | congruence].
  - intros d Hd. rewrite Hd in Hinv. destruct Hinv as [_ [Hs He]].
    assert (Hrange : selectionRange (Some d) (len candles)
              = Some (SelectionRange.mk
                        (Z.min (DragSelection.startIndex d) (DragSelection.endIndex d))
                        (Z.max (DragSelection.startIndex d) (DragSelection.endIndex d)))).
    { unfold selectionRange.
      destruct (Z.ltb_spec (Z.min (DragSelection.startIndex d) (DragSelection.endIndex d)) 0);
        [lia |].
      destruct (Z.geb_spec (Z.max (DragSelection.startIndex d) (DragSelection.endIndex d))
                  (len candles)); [lia | reflexivity]. }
    split; [exact Hrange |]. rewrite Hrange. unfold selectionSummary; simpl.
    destruct (index_in_range candles
                (Z.min (DragSelection.startIndex d) (DragSelection.endIndex d)))
      as [c1 Hc1]; [lia |].
    destruct (index_in_range candles
                (Z.max (DragSelection.startIndex d) (DragSelection.endIndex d)))
      as [c2 Hc2]; [lia |].
    rewrite Hc1, Hc2. discriminate.
Qed.

Lemma slice_length {A : Type} (xs : list A) (a b : Z) :
  0 <= a <= b -> b <= len xs -> len (slice xs a b) = b - a.
Proof.
  intros Hab Hb. unfold slice, relativeIndex, len in *.
  destruct (Z.ltb_spec a 0); [lia |]. destruct (Z.ltb_spec b 0); [lia |].
  rewrite length_firstn, length_skipn. lia.
Qed.

(** X19. For a selection with valid indices, taken in either direction,
    the summary counts exactly the candles of the slice it sums over, at
    least one; dragging from right to left gives the same summary as from
    left to right; and on candles sorted by timestamp the duration is the
    difference of the two end timestamps, the clamp at zero never
    acting. *)
Theorem selectionSummary_counts (candles : list Candle) (a b : Z) :
  0 <= a < len candles -> 0 <= b < len candles ->
  exists s,
    selectionSummary (selectionRange (Some (DragSelection.mk a b)) (len candles)) candles
      = Some s /\
    selectionSummary (selectionRange (Some (DragSelection.mk b a)) (len candles)) candles
      = Some s /\
    SelectionSummary.candleCount s = Z.abs (b - a) + 1 /\
    SelectionSummary.candleCount s
      = len (slice candles (Z.min a b) (Z.max a b + 1)) /\
    (ascending candles ->
       SelectionSummary.durationMs s
       = SelectionSummary.endTs s - SelectionSummary.startTs s).
Proof.
  intros Ha Hb.
  assert (Hab : selectionRange (Some (DragSelection.mk a b)) (len candles)
                = Some (SelectionRange.mk (Z.min a b) (Z.max a b))).
  { unfold selectionRange; simpl.
    destruct (Z.ltb_spec (Z.min a b) 0); [lia |].
    destruct (Z.geb_spec (Z.max a b) (len candles)); [lia | reflexivity]. }
  assert (Hba : selectionRange (Some (DragSelection.mk b a)) (len candles)
                = Some (SelectionRange.mk (Z.min a b) (Z.max a b))).
  { unfold selectionRange; simpl.
    rewrite (Z.min_comm b a), (Z.max_comm b a).
    destruct (Z.ltb_spec (Z.min a b) 0); [lia |].
    destruct (Z.geb_spec (Z.max a b) (len candles)); [lia | reflexivity]. }
  rewrite Hab, Hba. unfold selectionSummary; simpl.
  destruct (index_in_range candles (Z.min a b)) as [c1 Hc1]; [lia |].
  destruct (index_in_range candles (Z.max a b)) as [c2 Hc2]; [lia |].
  rewrite Hc1, Hc2.
  eexists. split; [reflexivity |]. split; [reflexivity |]. simpl.
  split; [lia |]. split.
  - rewrite slice_length; lia.
  - intros Hsorted.
    pose proof (ascending_index candles Hsorted (Z.min a b) (Z.max a b) c1 c2
                  ltac:(lia) Hc1 Hc2) as Hord.
    unfold timestamp, Timestamped_Candle in Hord. lia.
Qed.

Lemma selectionSummary_counts_witness :
  exists s,
    selectionSummary
      (selectionRange (Some (DragSelection.mk 2 0)) 3)
      [sampleCandle 1000 (3 # 10); sampleCandle 2000 (4 # 10); sampleCandle 3000 (6 # 10)]
    = Some s /\
    SelectionSummary.candleCount s = 3 /\
    SelectionSummary.durationMs s = 2000.
Proof.
  destruct (selectionSummary_counts
              [sampleCandle 1000 (3 # 10); sampleCandle 2000 (4 # 10);
               sampleCandle 3000 (6 # 10)] 0 2)
    as [s [_ [Hrun [Hcount [_ Hduration]]]]];
    [unfold len; simpl; lia | unfold len; simpl; lia |].
  exists s. split; [exact Hrun |]. split; [exact Hcount |].
  rewrite Hduration.
  - injection Hrun as <-. reflexivity.
  - unfold ascending, timestamp, Timestamped_Candle. repeat constructor; simpl; lia.
Defined.

(* ================================================================== *)
(** * Part IX: axis bounds and the intro animation *)
(* ================================================================== *)

Lemma minOf_le (rest : list Q) :
  forall v, (minOf v rest <= v)%Q /\ forall x, In x rest -> (minOf v rest <= x)%Q.
Proof.
  unfold minOf. induction rest as [| y rest IH]; intros v; simpl.
  - split; [apply Qle_refl | intros x []].
  - destruct (IH (Qmin v y)) as [Hv Hrest].
    pose proof (Q.le_min_l v y). pose proof (Q.le_min_r v y).
    split; [eapply Qle_trans; eauto |].
    intros x [<- | Hx]; [eapply Qle_trans; eauto | apply Hrest; exact Hx].
Qed.

Lemma maxOf_ge (rest : list Q) :
  forall v, (v <= maxOf v rest)%Q /\ forall x, In x rest -> (x <= maxOf v rest)%Q.
Proof.
  unfold maxOf. induction rest as [| y rest IH]; intros v; simpl.
  - split; [apply Qle_refl | intros x []].
  - destruct (IH (Qmax v y)) as [Hv Hrest].
    pose proof (Q.le_max_l v y). pose proof (Q.le_max_r v y).
    split; [eapply Qle_trans; eauto |].
    intros x [<- | Hx]; [eapply Qle_trans; eauto | apply Hrest; exact Hx].
Qed.

Lemma values_between (points : list ProjectionPoint) (v : Q) (rest : list Q) :
  map ProjectionPoint.value points = v :: rest ->
  forall p, In p points ->
    (minOf v rest <= ProjectionPoint.value p <= maxOf v rest)%Q.
Proof.
  intros Hvalues p Hp.
  apply (in_map ProjectionPoint.value) in Hp. rewrite Hvalues in Hp.
  destruct (minOf_le rest v) as [Hmin Hmins].
  destruct (maxOf_ge rest v) as [Hmax Hmaxs].
  destruct Hp as [<- | Hp]; split; auto.
Qed.

Lemma padded_floor_ceiling (lo hi x pad floorPad : Q) :
  (lo <= x <= hi)%Q -> (0 < floorPad)%Q -> (floorPad <= pad)%Q ->
  (inject_Z (Qfloor (lo - pad)) < x)%Q /\ (x < inject_Z (Qceiling (hi + pad)))%Q.
Proof.
  intros Hx Hpos Hpad.
  pose proof (Qfloor_le (lo - pad)). pose proof (Qle_ceiling (hi + pad)).
  split; lra.
Qed.

Lemma shown_with_points (points : list ProjectionPoint) :
  (0 <? len points) = true <-> points <> [].
Proof.
  unfold len. destruct points; simpl; split; intros; try congruence; try lia.
  reflexivity.
Qed.

Lemma projectionBounds_enclose (show : bool) (mode : option ProjectionMode)
    (points : list ProjectionPoint) (b : IntegerBounds.t) (p : ProjectionPoint) :
  projectionBounds show mode points = Some b -> In p points ->
  (inject_Z (IntegerBounds.min b) < ProjectionPoint.value p
   < inject_Z (IntegerBounds.max b))%Q.
Proof.
  unfold projectionBounds. intros Hb Hp.
  destruct (negb _); [discriminate |].
  destruct (map ProjectionPoint.value points) as [| v rest] eqn:Hv; [discriminate |].
  injection Hb as <-. simpl.
  pose proof (values_between points v rest Hv p Hp) as Hx.
  pose proof (Q.le_max_l 1 ((maxOf v rest - minOf v rest) * (12 # 100))).
  apply (padded_floor_ceiling _ _ _ _ 1 Hx); [reflexivity | assumption].
Qed.

Lemma sp500Bounds_enclose (show : bool)
    (points : list ProjectionPoint) (b : IntegerBounds.t) (p : ProjectionPoint) :
  sp500Bounds show points = Some b -> In p points ->
  (inject_Z (IntegerBounds.min b) < ProjectionPoint.value p
   < inject_Z (IntegerBounds.max b))%Q.
Proof.
  unfold sp500Bounds. intros Hb Hp.
  destruct (negb _); [discriminate |].
  destruct (map ProjectionPoint.value points) as [| v rest] eqn:Hv; [discriminate |].
  injection Hb as <-. simpl.
  pose proof (values_between points v rest Hv p Hp) as Hx.
  pose proof (Q.le_max_l 20 ((maxOf v rest - minOf v rest) * (8 # 100))).
  apply (padded_floor_ceiling _ _ _ _ 20 Hx); [reflexivity | assumption].
Qed.

Lemma unemploymentBounds_enclose (show : bool)
    (points : list ProjectionPoint) (b : Bounds.t) :
  unemploymentBounds show points = Some b ->
  (0 <= Bounds.min b)%Q /\
  forall p, In p points ->
    (ProjectionPoint.value p < Bounds.max b)%Q /\
    ((0 <= ProjectionPoint.value p)%Q -> (Bounds.min b <= ProjectionPoint.value p)%Q).
Proof.
  unfold unemploymentBounds. intros Hb.
  destruct (negb _); [discriminate |].
  destruct (map ProjectionPoint.value points) as [| v rest] eqn:Hv; [discriminate |].
  injection Hb as <-. simpl.
  split; [apply Q.le_max_l |].
  intros p Hp.
  pose proof (values_between points v rest Hv p Hp) as Hx.
  pose proof (Q.le_max_l (2 # 10) ((maxOf v rest - minOf v rest) * (18 # 100))).
  split; [lra |]. intros Hnonneg. apply Q.max_lub; lra.
Qed.

(** X20. Whenever the bounds of an overlay axis are computed, every value
    of the series lies strictly inside them: strictly between the integer
    bounds of the seat projection and of the S&P 500 series, and below
    the upper bound of the unemployment series, whose lower bound is
    never negative and is at most every non-negative value.  Bounds are
    computed exactly when the overlay is shown (in seat mode, for the
    projection) and has points. *)
Theorem axis_bounds_enclose (show : bool) (mode : option ProjectionMode)
    (points : list ProjectionPoint) :
  (forall b, projectionBounds show mode points = Some b ->
     forall p, In p points ->
       (inject_Z (IntegerBounds.min b) < ProjectionPoint.value p
        < inject_Z (IntegerBounds.max b))%Q) /\
  (forall b, sp500Bounds show points = Some b ->
     forall p, In p points ->
       (inject_Z (IntegerBounds.min b) < ProjectionPoint.value p
        < inject_Z (IntegerBounds.max b))%Q) /\
  (forall b, unemploymentBounds show points = Some b ->
     (0 <= Bounds.min b)%Q /\
     forall p, In p points ->
       (ProjectionPoint.value p < Bounds.max b)%Q /\
       ((0 <= ProjectionPoint.value p)%Q ->
        (Bounds.min b <= ProjectionPoint.value p)%Q)) /\
  (projectionBounds show mode points <> None <->
     show = true /\ mode = Some ProjectionMode.seats /\ points <> []) /\
  (sp500Bounds show points <> None <-> show = true /\ points <> []) /\
  (unemploymentBounds show points <> None <-> show = true /\ points <> []).
Proof.
  split; [intros b Hb p Hp; exact (projectionBounds_enclose _ _ _ _ _ Hb Hp) |].
  split; [intros b Hb p Hp; exact (sp500Bounds_enclose _ _ _ _ Hb Hp) |].
  split; [intros b Hb; exact (unemploymentBounds_enclose _ _ _ Hb) |].
  pose proof (shown_with_points points) as Hlen.
  unfold projectionBounds, sp500Bounds, unemploymentBounds.
  destruct points as [| p0 rest].
  - assert (Hz : (0 <? len (@nil ProjectionPoint)) = false) by reflexivity.
    rewrite Hz, !andb_false_r. simpl. tauto.
  - assert (Hz : (0 <? len (p0 :: rest)) = true) by (apply Hlen; discriminate).
    rewrite Hz, !andb_true_r.
    destruct show, mode as [[|] |]; simpl; repeat split;
      intros; try congruence; try tauto; try discriminate;
      repeat match goal with H : _ /\ _ |- _ => destruct H end;
      try congruence; try discriminate.
Qed.

Lemma axis_bounds_enclose_witness :
  exists b,
    projectionBounds true (Some ProjectionMode.seats)
      [ProjectionPoint.mk 0 (2155 # 10); ProjectionPoint.mk 1 (2202 # 10)] = Some b /\
    IntegerBounds.min b = 214 /\ IntegerBounds.max b = 222 /\
    (inject_Z (IntegerBounds.min b) < 2155 # 10 < inject_Z (IntegerBounds.max b))%Q.
Proof.
  eexists. split; [reflexivity |]. split; [reflexivity |]. split; [reflexivity |].
  destruct (axis_bounds_enclose true (Some ProjectionMode.seats)
              [ProjectionPoint.mk 0 (2155 # 10); ProjectionPoint.mk 1 (2202 # 10)])
    as [Hproj _].
  apply (Hproj _ eq_refl (ProjectionPoint.mk 0 (2155 # 10))).
  left. reflexivity.
Defined.

Lemma inject_Z_nonneg (z : Z) : 0 <= z -> (0 <= inject_Z z)%Q.
Proof. intros Hz. unfold Qle; simpl. lia. Qed.

Lemma revealedEndIndex_bounds (n : Z) (p : Q) :
  (n <= 1 -> revealedEndIndex n p = n - 1) /\
  (2 <= n -> 1 <= revealedEndIndex n p <= n - 1).
Proof.
  unfold revealedEndIndex. split; intros Hn.
  - destruct (Z.leb_spec n 1); [reflexivity | lia].
  - destruct (Z.leb_spec n 1); [lia |].
    destruct (Qle_bool_spec (995 # 1000) p) as [Hfull | Hpart]; [lia |].
    assert (Hle : (p * inject_Z (n - 1) <= inject_Z (n - 1))%Q).
    { assert (Hp : (p <= 1)%Q) by lra.
      assert (Hpos : (0 <= inject_Z (n - 1))%Q) by (apply inject_Z_nonneg; lia).
      apply (Qmult_le_compat_r _ _ _ Hp) in Hpos. lra. }
    apply Qfloor_resp_le in Hle. rewrite Qfloor_Z in Hle. lia.
Qed.

(** X21. The index up to which the intro animation has revealed the
    price line stays a valid candle index (from 1 to the last index once
    there are two candles), never moves back as the progress grows, and
    is the last index from progress 0.995 on.  While the animation runs
    over a non-empty series its head point is the candle at that index;
    it is [null] exactly when there is no candle or the animation is
    over. *)
Theorem intro_reveal_in_bounds (candles : list Candle) (p p' : Q) :
  (2 <= len candles -> 1 <= revealedEndIndex (len candles) p <= len candles - 1) /\
  ((p <= p')%Q ->
     revealedEndIndex (len candles) p <= revealedEndIndex (len candles) p') /\
  ((995 # 1000 <= p)%Q -> revealedEndIndex (len candles) p = len candles - 1) /\
  (introHeadPoint candles p = None <-> candles = [] \/ showIntroDraw p = false) /\
  (forall h, introHeadPoint candles p = Some h ->
     exists c, index candles (revealedEndIndex (len candles) p) = Some c /\
               h = HeadPoint.mk (Candle.timestamp c) (Candle.close c * 100)%Q).
Proof.
  set (n := len candles).
  assert (Hn : 0 <= n) by (unfold n, len; lia).
  destruct (revealedEndIndex_bounds n p) as [Hsmall Hbig].
  destruct (revealedEndIndex_bounds n p') as [Hsmall' Hbig'].
  split; [exact Hbig |].
  split.
  { intros Hpp. destruct (Z.le_gt_cases n 1) as [H1 | H2].
    - rewrite Hsmall, Hsmall' by lia. lia.
    - specialize (Hbig ltac:(lia)). specialize (Hbig' ltac:(lia)).
      unfold revealedEndIndex in *.
      destruct (Z.leb_spec n 1); [lia |].
      destruct (Qle_bool_spec (995 # 1000) p) as [Hfull | Hpart];
        destruct (Qle_bool_spec (995 # 1000) p') as [Hfull' | Hpart']; try lia.
      + exfalso. apply Hpart'. lra.
      + assert (Hpos : (0 <= inject_Z (n - 1))%Q) by (apply inject_Z_nonneg; lia).
        pose proof (Qmult_le_compat_r _ _ _ Hpp Hpos) as Hle.
        apply Qfloor_resp_le in Hle. lia. }
  split.
  { intros Hfull. unfold revealedEndIndex.
    destruct (Z.leb_spec n 1); [reflexivity |].
    destruct (Qle_bool_spec (995 # 1000) p); [reflexivity | contradiction]. }
  assert (Hidx : candles <> [] ->
            Z.max 0 (Z.min (revealedEndIndex n p) (n - 1)) = revealedEndIndex n p /\
            0 <= revealedEndIndex n p < n).
  { intros Hne. pose proof (nonempty_len candles Hne) as Hpos. fold n in Hpos.
    destruct (Z.le_gt_cases n 1); [rewrite Hsmall by lia; lia |].
    specialize (Hbig ltac:(lia)). lia. }
  unfold introHeadPoint. fold n.
  destruct (Z.eqb_spec n 0) as [Hzero | Hnz].
  - assert (Hempty : candles = []).
    { destruct candles; [reflexivity | unfold n, len in Hzero; simpl in Hzero; lia]. }
    split; [tauto | discriminate].
  - assert (Hne : candles <> []).
    { intros ->. apply Hnz. reflexivity. }
    destruct (Hidx Hne) as [Hclamp Hrange].
    destruct (showIntroDraw p); simpl.
    + rewrite Hclamp.
      destruct (index_in_range candles (revealedEndIndex n p) Hrange) as [c Hcandle].
      rewrite Hcandle. split.
      * split; [discriminate |]. intros [Hempty | Hshow]; congruence.
      * intros h Hh. injection Hh as <-. exists c. split; reflexivity.
    + split; [tauto | discriminate].
Qed.

Lemma intro_reveal_in_bounds_witness :
  1 <= revealedEndIndex 3 (1 # 10) <= 2 /\
  revealedEndIndex 3 (1 # 10) <= revealedEndIndex 3 (9 # 10).
Proof.
  destruct (intro_reveal_in_bounds
              [sampleCandle 1000 (3 # 10); sampleCandle 2000 (4 # 10);
               sampleCandle 3000 (6 # 10)] (1 # 10) (9 # 10))
    as [Hbounds [Hmono _]].
  split; [apply Hbounds; unfold len; simpl; lia | apply Hmono; reflexivity || lra].
Defined.

(* ================================================================== *)
(** * Part X: seat markets, FRED observations and polls *)
(* ================================================================== *)

Lemma nonNull_In {A : Type} (xs : list (option A)) (x : A) :
  In x (nonNull xs) <-> In (Some x) xs.
Proof.
  induction xs as [| [y |] xs IH]; simpl.
  - tauto.
  - rewrite IH. split; intros [H | H]; auto; left; congruence.
  - rewrite IH. split; [auto | intros [H | H]; [discriminate | exact H]].
Qed.

Lemma insertBySeats_perm (x : SeatStrike) (l : list SeatStrike) :
  Permutation (insertBySeats x l) (x :: l).
Proof.
  induction l as [| y l IH]; simpl.
  - apply Permutation_refl.
  - destruct (Qle_bool _ _).
    + apply Permutation_refl.
    + eapply perm_trans; [apply perm_skip; exact IH | apply perm_swap].
Qed.

Lemma sortBySeats_perm (l : list SeatStrike) : Permutation (sortBySeats l) l.
Proof.
  induction l as [| x l IH]; simpl.
  - apply perm_nil.
  - eapply perm_trans; [apply insertBySeats_perm | apply perm_skip; exact IH].
Qed.

Lemma insertBySeats_sorted (x : SeatStrike) (l : list SeatStrike) :
  StronglySorted (fun a b => (SeatStrike.seats a <= SeatStrike.seats b)%Q) l ->
  StronglySorted (fun a b => (SeatStrike.seats a <= SeatStrike.seats b)%Q)
                 (insertBySeats x l).
Proof.
  induction 1 as [| y l Hs IH Hall]; simpl.
  - repeat constructor.
  - destruct (Qle_bool_spec (SeatStrike.seats x) (SeatStrike.seats y)) as [Hle | Hgt].
    + constructor; [constructor; assumption |].
      constructor; [exact Hle |].
      eapply Forall_impl; [| exact Hall]. simpl; intros; lra.
    + constructor; [exact IH |].
      apply (Permutation_Forall (Permutation_sym (insertBySeats_perm x l))).
      constructor; [lra | exact Hall].
Qed.

Lemma sortBySeats_sorted (l : list SeatStrike) :
  StronglySorted (fun a b => (SeatStrike.seats a <= SeatStrike.seats b)%Q)
                 (sortBySeats l).
Proof.
  induction l as [| x l IH]; simpl.
  - constructor.
  - apply insertBySeats_sorted. exact IH.
Qed.

(** X22. The seat markets of an event are the markets whose strike, read
    under the key "Seats" or, only when that key is absent, under
    "seats", converts to a finite number; they come out sorted by seat
    count, and the step fails exactly when no market qualifies.  A
    malformed "Seats" entry disqualifies a market even when it also has a
    valid "seats" entry. *)
Theorem seatMarkets_spec (markets : list KalshiEventMarket) :
  (seatMarkets (Some markets) = None <->
     forall m, In m markets -> seatStrikeOf m = None) /\
  (forall l, seatMarkets (Some markets) = Some l ->
     l <> [] /\
     StronglySorted (fun a b => (SeatStrike.seats a <= SeatStrike.seats b)%Q) l /\
     Permutation l (nonNull (map seatStrikeOf markets)) /\
     forall s, In s l <->
       exists m raw,
         In m markets /\ seatRawOf m = Some raw /\
         Number raw = Finite (SeatStrike.seats s) /\
         SeatStrike.ticker s = KalshiEventMarket.ticker m) /\
  (forall m strike raw,
     KalshiEventMarket.custom_strike m = Some strike ->
     property strike "Seats" = Some raw ->
     isFinite (Number raw) = false ->
     seatStrikeOf m = None).
Proof.
  assert (Hstrike : forall m s,
            seatStrikeOf m = Some s <->
            exists raw, seatRawOf m = Some raw /\
                        Number raw = Finite (SeatStrike.seats s) /\
                        SeatStrike.ticker s = KalshiEventMarket.ticker m).
  { intros m s. unfold seatStrikeOf. split.
    - destruct (seatRawOf m) as [raw |]; [| discriminate].
      destruct (Number raw) as [| neg | q] eqn:Hn; try discriminate.
      intros Hs. injection Hs as <-. exists raw. repeat split. exact Hn.
    - intros [raw [Hraw [Hn Ht]]]. rewrite Hraw, Hn.
      destruct s as [t q]. simpl in *. congruence. }
  pose proof (sortBySeats_perm (nonNull (map seatStrikeOf markets))) as Hperm.
  unfold seatMarkets.
  set (sorted := sortBySeats (nonNull (map seatStrikeOf markets))) in *.
  split; [| split].
  - split.
    + destruct (Z.eqb_spec (len sorted) 0) as [Hempty | Hne]; [| discriminate].
      intros _ m Hm.
      destruct (seatStrikeOf m) as [s |] eqn:Hs; [| reflexivity].
      exfalso.
      assert (Hin : In s sorted).
      { apply (Permutation_in _ (Permutation_sym Hperm)).
        apply nonNull_In. rewrite <- Hs. apply in_map. exact Hm. }
      destruct sorted; [contradiction | unfold len in Hempty; simpl in Hempty; lia].
    + intros Hnone.
      destruct sorted as [| s rest] eqn:Hsorted; [reflexivity |].
      exfalso.
      assert (Hin : In s (nonNull (map seatStrikeOf markets))).
      { apply (Permutation_in _ Hperm). left. reflexivity. }
      apply nonNull_In in Hin. apply in_map_iff in Hin.
      destruct Hin as [m [Hm Hin]]. rewrite (Hnone m Hin) in Hm. discriminate.
  - intros l Hl.
    destruct (Z.eqb_spec (len sorted) 0) as [Hempty | Hne]; [discriminate |].
    injection Hl as <-.
    split; [intros Heq; rewrite Heq in Hne; apply Hne; reflexivity |].
    split; [apply sortBySeats_sorted |].
    split; [exact Hperm |].
    intros s. split.
    + intros Hin. apply (Permutation_in _ Hperm) in Hin.
      apply nonNull_In in Hin. apply in_map_iff in Hin.
      destruct Hin as [m [Hm Hin]]. apply Hstrike in Hm.
      destruct Hm as [raw Hraw]. exists m, raw. tauto.
    + intros [m [raw [Hin Hraw]]].
      apply (Permutation_in _ (Permutation_sym Hperm)).
      apply nonNull_In. apply in_map_iff. exists m. split; [| exact Hin].
      apply Hstrike. exists raw. exact Hraw.
  - intros m strike raw Hstrikes Hraw Hbad.
    unfold seatStrikeOf, seatRawOf. rewrite Hstrikes, Hraw. simpl.
    destruct (Number raw); [reflexivity | reflexivity | discriminate].
Qed.

Lemma seatMarkets_spec_witness :
  seatStrikeOf
    (KalshiEventMarket.mk "KXDHOUSESEATS-27-218"
       (Some [("seats", "218"); ("Seats", "n/a")]%string)) = None.
Proof.
  destruct (seatMarkets_spec []) as [_ [_ Hshadow]].
  apply (Hshadow _ [("seats", "218"); ("Seats", "n/a")]%string "n/a"%string);
    reflexivity.
Defined.

(** X23. The points of a FRED series come out sorted ascending by
    timestamp, one for each observation whose date parses and whose value
    converts to a finite number, and none for any other observation: an
    observation with the value "." yields no point. *)
Theorem fredPoints_spec (Date_parse : string -> option Z)
    (observations : list FredObservation) :
  ascending (fredPoints Date_parse (Some observations)) /\
  Permutation (fredPoints Date_parse (Some observations))
              (nonNull (map (fredPoint Date_parse) observations)) /\
  (forall p, In p (fredPoints Date_parse (Some observations)) <->
     exists o, In o observations /\
       Date_parse (FredObservation.date o ++ "T00:00:00Z")%string
         = Some (ProjectionPoint.timestamp p) /\
       Number (FredObservation.value o) = Finite (ProjectionPoint.value p)) /\
  (forall o, FredObservation.value o = "."%string -> fredPoint Date_parse o = None).
Proof.
  unfold fredPoints.
  pose proof (sortByTimestamp_perm (nonNull (map (fredPoint Date_parse) observations)))
    as Hperm.
  assert (Hpoint : forall o p,
            fredPoint Date_parse o = Some p <->
            Date_parse (FredObservation.date o ++ "T00:00:00Z")%string
              = Some (ProjectionPoint.timestamp p) /\
            Number (FredObservation.value o) = Finite (ProjectionPoint.value p)).
  { intros o p. unfold fredPoint. split.
    - destruct (Date_parse _) as [t |]; [| discriminate].
      destruct (Number _) as [| neg | q]; try discriminate.
      intros Hp. injection Hp as <-. split; reflexivity.
    - intros [Ht Hv]. rewrite Ht, Hv. destruct p; reflexivity. }
  split; [apply sortByTimestamp_ascending |].
  split; [exact Hperm |]. split.
  - intros p. split.
    + intros Hin. apply (Permutation_in _ Hperm) in Hin.
      apply nonNull_In in Hin. apply in_map_iff in Hin.
      destruct Hin as [o [Ho Hin]]. exists o. split; [exact Hin |].
      apply Hpoint. exact Ho.
    + intros [o [Hin Ho]].
      apply (Permutation_in _ (Permutation_sym Hperm)).
      apply nonNull_In. apply in_map_iff. exists o. split; [| exact Hin].
      apply Hpoint. exact Ho.
  - intros o Hdot. unfold fredPoint. rewrite Hdot.
    destruct (Date_parse _); reflexivity.
Qed.

Lemma rawPollPoint_in_window (Date_parse : string -> option Z)
    (toLowerCase : string -> string) (window : TimeRange) (poll : Poll.t)
    (q : ProjectionPoint) :
  rawPollPoint Date_parse toLowerCase window poll = Some q ->
  startMs window <= ProjectionPoint.timestamp q <= endMs window.
Proof.
  unfold rawPollPoint.
  destruct (firstTruthy _ _) as [dateString |]; [| discriminate].
  destruct (Date_parse dateString) as [ts |]; [| discriminate].
  destruct (Z.ltb_spec ts (startMs window)); simpl; [discriminate |].
  destruct (Z.gtb_spec ts (endMs window)); [discriminate |].
  destruct (find _ _) as [approve |]; [| discriminate].
  destruct (PollAnswer.percent approve); [| discriminate].
  intros Hq. injection Hq as <-. simpl. lia.
Qed.

(** X24. From the parsed response to the points returned, the approval
    series stays inside the requested window: when the window starts at
    or after the epoch, every point returned lies at a UTC midnight that
    is no later than the end of the window and no earlier than the
    midnight starting the day of the window's start.  The polls kept
    before the daily averaging lie in the window itself and are sorted. *)
Theorem trumpApprovalPoints_in_window (Date_parse : string -> option Z)
    (toLowerCase : string -> string) (now : Z) (timeframe : Timeframe)
    (customRange : option TimeRange) (polls : option (list Poll.t)) :
  let window := getTimeWindow now timeframe customRange in
  0 <= startMs window ->
  ascending (rawPolls Date_parse toLowerCase window polls) /\
  (forall q, In q (rawPolls Date_parse toLowerCase window polls) ->
     startMs window <= ProjectionPoint.timestamp q <= endMs window) /\
  exists points,
    trumpApprovalPoints Date_parse toLowerCase now timeframe customRange polls
      = Value points /\
    forall p, In p points ->
      Day (startMs window) * msPerDay <= ProjectionPoint.timestamp p <= endMs window.
Proof.
  intros window Hstart.
  set (raw := rawPolls Date_parse toLowerCase window polls).
  assert (Hraw : forall q, In q raw ->
            startMs window <= ProjectionPoint.timestamp q <= endMs window).
  { intros q Hq. unfold raw, rawPolls in Hq.
    apply (Permutation_in _ (sortByTimestamp_perm _)) in Hq.
    apply nonNull_In in Hq. apply in_map_iff in Hq.
    destruct Hq as [poll [Hpoll _]].
    eapply rawPollPoint_in_window; eauto. }
  split; [apply sortByTimestamp_ascending |].
  split; [exact Hraw |].
  unfold trumpApprovalPoints, approvalPoints. fold window. fold raw.
  destruct (dailyOf_days raw) as [_ Hdays].
  destruct (smoothDaily_timestamps (dailyOf raw)) as [points [Hrun Hts]].
  exists points. split; [exact Hrun |].
  intros p Hp.
  apply (in_map ProjectionPoint.timestamp) in Hp. rewrite Hts in Hp.
  apply Hdays in Hp. apply in_map_iff in Hp. destruct Hp as [q [Hq Hin]].
  specialize (Hraw q Hin).
  destruct (dayTsOf_day_start q) as [Hyear Hday].
  destruct (Hday ltac:(right; apply Hyear; lia)) as [Hfloor Hbetween].
  rewrite <- Hq, Hfloor.
  assert (Hmono : Day (startMs window) <= Day (ProjectionPoint.timestamp q)).
  { unfold Day, msPerDay. apply Z.div_le_mono; lia. }
  rewrite Hfloor in Hbetween. unfold msPerDay in *. lia.
Qed.

Lemma trumpApprovalPoints_in_window_witness :
  exists points,
    trumpApprovalPoints (fun _ => Some 1709210096000) (fun s => s)
      1709300000000 ALL None
      (Some [Poll.mk (Some "2024-02-29"%string) None
               (Some [PollAnswer.mk (Some "approve"%string) (Some 42%Q)])])
    = Value points /\
    forall p, In p points ->
      Day 0 * msPerDay <= ProjectionPoint.timestamp p <= 1709300000000.
Proof.
  destruct (trumpApprovalPoints_in_window (fun _ => Some 1709210096000) (fun s => s)
              1709300000000 ALL None
              (Some [Poll.mk (Some "2024-02-29"%string) None
                       (Some [PollAnswer.mk (Some "approve"%string) (Some 42%Q)])]))
    as [_ [_ Hpoints]].
  - simpl. lia.
  - exact Hpoints.
Defined.

(* ================================================================== *)
(** * Part XI: the custom range *)
(* ================================================================== *)

Lemma rangeStep_invariant (now : Z) (st : RangeState) (e : RangeEvent) :
  rangeInvariant st -> rangeInvariant (rangeStep now st e).
Proof.
  intros [Hcustom Hordered]. unfold rangeStep, defaultCustomRange, rangeInvariant.
  destruct e as [tf | start end_]; simpl.
  - destruct tf, (RangeState.customRangeApplied st) as [r |] eqn:Hr; simpl;
      split; intros; try congruence; try discriminate;
      try (apply Hordered; congruence);
      match goal with H : Some _ = Some _ |- _ => injection H as <-; simpl; lia end.
  - unfold applyCustomRange.
    destruct start as [s |], end_ as [e |]; simpl;
      try destruct (Z.geb_spec s e); simpl;
      destruct (RangeState.timeframe st) eqn:Htf,
               (RangeState.customRangeApplied st) as [r |] eqn:Hr; simpl;
      split; intros; try congruence; try discriminate;
      try (apply Hordered; congruence);
      try (exfalso; apply Hcustom; congruence);
      match goal with H : Some _ = Some _ |- _ => injection H as <-; simpl; lia end.
Qed.

Lemma rangeRun_invariant (events : list (Z * RangeEvent)) :
  forall st, rangeInvariant st -> rangeInvariant (rangeRun st events).
Proof.
  induction events as [| [now e] events IH]; intros st Hinv; simpl.
  - exact Hinv.
  - apply IH. apply rangeStep_invariant. exact Hinv.
Qed.

(** X25. Whatever timeframes are selected and whatever ranges are
    applied, once the effect has run a range is applied whenever the
    timeframe is CUSTOM, and an applied range always starts strictly
    before it ends; the window of a CUSTOM chart is then that range and
    its candlestick request has [start_ts <= end_ts]. *)
Theorem custom_range_is_ordered (events : list (Z * RangeEvent)) (now : Z) :
  let st := rangeRun initialRangeState events in
  (forall r, RangeState.customRangeApplied st = Some r -> startMs r < endMs r) /\
  (RangeState.timeframe st = CUSTOM ->
   exists r,
     RangeState.customRangeApplied st = Some r /\
     getTimeWindow now CUSTOM (RangeState.customRangeApplied st) = r /\
     startMs r < endMs r /\
     CandlestickQuery.start_ts
       (candlestickQuery now CUSTOM (RangeState.customRangeApplied st))
     <= CandlestickQuery.end_ts
          (candlestickQuery now CUSTOM (RangeState.customRangeApplied st)) /\
     CandlestickQuery.period_interval
       (candlestickQuery now CUSTOM (RangeState.customRangeApplied st))
     = inferCustomPeriodInterval (startMs r) (endMs r)).
Proof.
  intros st.
  assert (Hinv : rangeInvariant st).
  { apply rangeRun_invariant. split; [discriminate | discriminate]. }
  destruct Hinv as [Hcustom Hordered].
  split; [exact Hordered |].
  intros Htf. specialize (Hcustom Htf).
  destruct (RangeState.customRangeApplied st) as [r |] eqn:Hr; [| congruence].
  exists r. specialize (Hordered r eq_refl).
  repeat split; try assumption.
  unfold candlestickQuery; simpl.
  apply Z.div_le_mono; lia.
Qed.

Lemma custom_range_is_ordered_witness :
  exists r,
    RangeState.customRangeApplied
      (rangeRun initialRangeState
         [(1700000000000, SetTimeframe CUSTOM);
          (1700000005000, ApplyRange (Some 9000) (Some 1000))]) = Some r /\
    startMs r < endMs r.
Proof.
  destruct (custom_range_is_ordered
              [(1700000000000, SetTimeframe CUSTOM);
               (1700000005000, ApplyRange (Some 9000) (Some 1000))] 0)
    as [_ Hcustom].
  destruct (Hcustom eq_refl) as [r [Hr [_ [Hlt _]]]].
  exists r. split; [exact Hr | exact Hlt].
Defined.

(* ================================================================== *)
(** * Part XII: colours *)
(* ================================================================== *)

Lemma land_255_range (x : Z) : 0 <= Z.land x 255 <= 255.
Proof.
  assert (Hmod : Z.land x 255 = x mod 256).
  { change 255 with (Z.ones 8). rewrite Z.land_ones by lia. reflexivity. }
  rewrite Hmod. pose proof (Z.mod_pos_bound x 256 ltac:(lia)). lia.
Qed.

Lemma land_255_mod (x : Z) : Z.land x 255 = x mod 256.
Proof. change 255 with (Z.ones 8). rewrite Z.land_ones by lia. reflexivity. Qed.

Lemma hexDigit_facts (d : Z) :
  0 <= d < 16 ->
  digitValue (hexDigit d) = Some d /\
  isStrWhiteSpaceChar (hexDigit d) = false /\
  isChar (hexDigit d) "-" "-" = false /\
  isChar (hexDigit d) "+" "+" = false /\
  isChar (hexDigit d) "x" "X" = false /\
  Ascii.eqb (hexDigit d) "#" = false.
Proof.
  intros Hd.
  assert (Hcases : d = 0 \/ d = 1 \/ d = 2 \/ d = 3 \/ d = 4 \/ d = 5 \/ d = 6 \/ d = 7 \/
                   d = 8 \/ d = 9 \/ d = 10 \/ d = 11 \/ d = 12 \/ d = 13 \/ d = 14 \/
                   d = 15) by lia.
  repeat (destruct Hcases as [-> | Hcases]; [vm_compute; repeat split |]).
  subst d. vm_compute. repeat split.
Qed.

Lemma readDigits_hexDigit (d : Z) (rest : list ascii) (acc : Z) (count : nat) :
  0 <= d < 16 ->
  readDigits 16 (hexDigit d :: rest) acc count
  = readDigits 16 rest (acc * 16 + d) (S count).
Proof.
  intros Hd. destruct (hexDigit_facts d Hd) as [Hv _].
  cbn [readDigits]. rewrite Hv.
  destruct (Z.ltb_spec d 16); [reflexivity | lia].
Qed.

Lemma roundInteger_small (v : Z) :
  0 <= v < 2 ^ 53 -> roundInteger v = Finite (inject_Z v).
Proof.
  intros Hv. unfold roundInteger.
  rewrite (Z.abs_eq v) by lia.
  assert (He : Z.log2 v <= 52).
  { destruct (Z.eq_dec v 0) as [-> | Hnz]; [simpl; lia |].
    assert (Z.log2 v < 53) by (apply Z.log2_lt_pow2; lia). lia. }
  destruct (Z.leb_spec (Z.log2 v) 52); [| lia].
  destruct (Z.leb_spec (2 ^ 1024) v).
  - exfalso. assert (2 ^ 53 < 2 ^ 1024) by (apply Z.pow_lt_mono_r; lia). lia.
  - f_equal. f_equal. destruct (Z.eq_dec v 0) as [-> | Hnz]; [reflexivity |].
    rewrite Z.sgn_pos by lia. lia.
Qed.

Lemma ToInt32_small (v : Z) :
  0 <= v < 2 ^ 31 -> ToInt32 (Finite (inject_Z v)) = v.
Proof.
  intros Hv. unfold ToInt32.
  assert (Hle : Qle_bool 0 (inject_Z v) = true).
  { apply Qle_bool_iff. apply inject_Z_nonneg. lia. }
  rewrite Hle, Qfloor_Z.
  rewrite Z.mod_small by (split; [lia |];
    assert (2 ^ 31 < 2 ^ 32) by (apply Z.pow_lt_mono_r; lia); lia).
  destruct (Z.leb_spec (2 ^ 31) v); [lia | reflexivity].
Qed.

(** X26. [hexToRgb] always returns three components between 0 and 255,
    and it reads a colour written as "#rrggbb" in lower-case hexadecimal
    back to the three numbers it was written from. *)
Theorem hexToRgb_reads_back (hex : string) (r g b : Z) :
  (let '(r', g', b') := hexToRgb hex in
   0 <= r' <= 255 /\ 0 <= g' <= 255 /\ 0 <= b' <= 255) /\
  (0 <= r <= 255 -> 0 <= g <= 255 -> 0 <= b <= 255 ->
   hexToRgb (cssHex r g b) = (r, g, b)).
Proof.
  split.
  - unfold hexToRgb. destruct (negb _); [lia |].
    repeat split; apply land_255_range.
  - intros Hr Hg Hb.
    assert (Hd : forall n, 0 <= n <= 255 -> 0 <= n / 16 < 16 /\ 0 <= n mod 16 < 16).
    { intros n Hn. Z.to_euclidean_division_equations. lia. }
    destruct (Hd r Hr) as [Hr1 Hr2]. destruct (Hd g Hg) as [Hg1 Hg2].
    destruct (Hd b Hb) as [Hb1 Hb2].
    unfold hexToRgb, cssHex. rewrite list_ascii_of_string_of_list_ascii.
    unfold twoHex. cbn [removeFirst app]. rewrite Ascii.eqb_refl.
    cbn [length Nat.eqb].
    unfold parseInt16.
    destruct (hexDigit_facts (r / 16) Hr1) as [_ [Hws [Hminus [Hplus _]]]].
    destruct (hexDigit_facts (r mod 16) Hr2) as [_ [_ [_ [_ [Hx _]]]]].
    cbn [skipWhiteSpace]. rewrite Hws, Hminus, Hplus, Hx, andb_false_r.
    rewrite !readDigits_hexDigit by assumption.
    cbn [readDigits].
    set (v := (((((0 * 16 + r / 16) * 16 + r mod 16) * 16 + g / 16) * 16 + g mod 16) * 16
               + b / 16) * 16 + b mod 16).
    assert (Hv : v = r * 65536 + g * 256 + b).
    { unfold v. Z.to_euclidean_division_equations. lia. }
    assert (Hrange : 0 <= v < 2 ^ 24).
    { rewrite Hv. change (2 ^ 24) with 16777216. lia. }
    assert (H53 : 2 ^ 24 < 2 ^ 53) by (apply Z.pow_lt_mono_r; lia).
    assert (H31 : 2 ^ 24 < 2 ^ 31) by (apply Z.pow_lt_mono_r; lia).
    replace (1 * v) with v by lia.
    rewrite roundInteger_small by lia.
    cbn [isFinite negb]. rewrite ToInt32_small by lia.
    rewrite !land_255_mod, !Z.shiftr_div_pow2 by lia.
    rewrite Hv. change (2 ^ 16) with 65536. change (2 ^ 8) with 256.
    f_equal; [f_equal |]; Z.to_euclidean_division_equations; lia.
Qed.

Lemma hexToRgb_reads_back_witness :
  cssHex 56 189 248 = "#38bdf8"%string /\ hexToRgb "#38bdf8" = (56, 189, 248).
Proof.
  split; [reflexivity |].
  destruct (hexToRgb_reads_back "" 56 189 248) as [_ Hback].
  apply (Hback ltac:(lia) ltac:(lia) ltac:(lia)).
Defined.

(* ================================================================== *)
(** * Part XIII: the query forwarded by the proxy handlers *)
(* ================================================================== *)

Local Open Scope string_scope.

Lemma searchParams_get_None (params : SearchParams) (name : string) :
  searchParams_get params name = None <-> ~ In name (map fst params).
Proof.
  unfold searchParams_get. induction params as [| e params IH]; simpl.
  - tauto.
  - destruct (String.eqb_spec (fst e) name) as [Heq | Hne].
    + split; [discriminate | intros H; exfalso; apply H; left; exact Heq].
    + rewrite IH. tauto.
Qed.

Lemma searchParams_set_names (params : SearchParams) (name value k : string) :
  In k (map fst (searchParams_set params name value)) <->
  k = name \/ In k (map fst params).
Proof.
  induction params as [| e params IH]; simpl.
  - intuition.
  - destruct (String.eqb_spec (fst e) name) as [Heq | Hne]; simpl.
    + split.
      * intros [H | H]; [left; congruence |].
        apply in_map_iff in H. destruct H as [e' [He' Hin]].
        apply filter_In in Hin. right. right. apply in_map_iff. exists e'. tauto.
      * intros [H | [H | H]]; [left; congruence | left; congruence |].
        destruct (String.eqb_spec k name) as [Hk | Hnk]; [left; congruence |].
        right. apply in_map_iff in H. destruct H as [e' [He' Hin]].
        apply in_map_iff. exists e'. split; [exact He' |].
        apply filter_In. split; [exact Hin |].
        apply negb_true_iff. apply String.eqb_neq. congruence.
    + rewrite IH. intuition.
Qed.

Lemma searchParams_get_set (params : SearchParams) (name value k : string) :
  searchParams_get (searchParams_set params name value) k
  = if String.eqb k name then Some value else searchParams_get params k.
Proof.
  unfold searchParams_get. induction params as [| e params IH]; simpl.
  - rewrite (String.eqb_sym name k). destruct (String.eqb k name); reflexivity.
  - destruct (String.eqb_spec (fst e) name) as [Heq | Hne]; simpl.
    + rewrite (String.eqb_sym name k).
      destruct (String.eqb_spec k name) as [Hk | Hnk]; [reflexivity |].
      destruct (String.eqb_spec (fst e) k) as [Hek | Hnek]; [congruence |].
      clear IH. induction params as [| e' params IH']; simpl; [reflexivity |].
      destruct (String.eqb_spec (fst e') name) as [He' | Hne']; simpl.
      * destruct (String.eqb_spec (fst e') k); [congruence | exact IH'].
      * destruct (String.eqb_spec (fst e') k); [reflexivity | exact IH'].
    + destruct (String.eqb_spec (fst e) k) as [Hek | Hnek].
      * destruct (String.eqb_spec k name); [congruence | reflexivity].
      * exact IH.
Qed.

Lemma searchParams_get_appends (values : list string) :
  forall (params : SearchParams) (key k : string),
    searchParams_get (fold_left (fun ps v => searchParams_append ps key v) values params) k
    = match searchParams_get params k with
      | Some v => Some v
      | None => if String.eqb key k then hd_error values else None
      end.
Proof.
  assert (Hone : forall (params : SearchParams) key v k,
            searchParams_get (searchParams_append params key v) k
            = match searchParams_get params k with
              | Some x => Some x
              | None => if String.eqb key k then Some v else None
              end).
  { intros params key v k. unfold searchParams_get, searchParams_append.
    induction params as [| e params IH]; simpl.
    - destruct (String.eqb key k); reflexivity.
    - destruct (String.eqb (fst e) k); [reflexivity | exact IH]. }
  induction values as [| v values IH]; intros params key k; simpl.
  - destruct (searchParams_get params k); [reflexivity |].
    destruct (String.eqb key k); reflexivity.
  - rewrite IH, Hone.
    destruct (searchParams_get params k); [reflexivity |].
    destruct (String.eqb key k); [reflexivity |].
    reflexivity.
Qed.

Lemma forwardEntry_other (params : SearchParams) (key : string) (value : QueryValue)
    (k : string) :
  key <> k ->
  searchParams_get (forwardEntry params (key, value)) k = searchParams_get params k.
Proof.
  intros Hne. unfold forwardEntry.
  destruct (String.eqb key "path"); [reflexivity |].
  destruct value as [| s | values]; [reflexivity | |].
  - rewrite searchParams_get_set.
    destruct (String.eqb_spec k key); [congruence | reflexivity].
  - rewrite searchParams_get_appends.
    destruct (searchParams_get params k); [reflexivity |].
    destruct (String.eqb_spec key k); [congruence | reflexivity].
Qed.

Lemma forward_others (query : list (string * QueryValue)) (k : string) :
  ~ In k (map fst query) ->
  forall params,
    searchParams_get (fold_left forwardEntry query params) k = searchParams_get params k.
Proof.
  induction query as [| [key value] query IH]; simpl; intros Hnotin params.
  - reflexivity.
  - rewrite IH by tauto. apply forwardEntry_other. tauto.
Qed.

Lemma forward_path (query : list (string * QueryValue)) :
  forall params,
    searchParams_get params "path" = None ->
    searchParams_get (fold_left forwardEntry query params) "path" = None.
Proof.
  induction query as [| [key value] query IH]; simpl; intros params Hnone.
  - exact Hnone.
  - apply IH. unfold forwardEntry.
    destruct (String.eqb_spec key "path") as [Hp | Hnp]; [exact Hnone |].
    rewrite <- Hnone.
    change (searchParams_get
              (match value with
               | QueryNull => params
               | QueryString s => searchParams_set params key s
               | QueryArray values =>
                   fold_left (fun ps v => searchParams_append ps key v) values params
               end) "path" = searchParams_get params "path").
    destruct value as [| s | values]; [reflexivity | |].
    + rewrite searchParams_get_set.
      destruct (String.eqb_spec "path" key); [congruence | reflexivity].
    + rewrite searchParams_get_appends.
      destruct (searchParams_get params "path"); [reflexivity |].
      destruct (String.eqb_spec key "path"); [congruence | reflexivity].
Qed.

Lemma forward_string (query : list (string * QueryValue)) (key s : string) :
  NoDup (map fst query) ->
  In (key, QueryString s) query ->
  key <> "path" ->
  searchParams_get (forwardQuery query) key = Some s.
Proof.
  unfold forwardQuery. intros Hnd Hin Hkey.
  apply in_split in Hin. destruct Hin as [before [after ->]].
  rewrite fold_left_app. simpl.
  rewrite map_app in Hnd. simpl in Hnd.
  apply NoDup_remove_2 in Hnd.
  rewrite forward_others by (intros H; apply Hnd; apply in_or_app; right; exact H).
  unfold forwardEntry.
  destruct (String.eqb_spec key "path"); [congruence |].
  rewrite searchParams_get_set, String.eqb_refl. reflexivity.
Qed.

(** X27. The query a proxy forwards never carries the parameter "path",
    and every other parameter the request gives once as a string is
    forwarded with that value. *)
Theorem forwardQuery_spec (query : list (string * QueryValue)) :
  searchParams_get (forwardQuery query) "path" = None /\
  forall key s,
    NoDup (map fst query) ->
    In (key, QueryString s) query ->
    key <> "path" ->
    searchParams_get (forwardQuery query) key = Some s.
Proof.
  split.
  - apply forward_path. reflexivity.
  - intros key s. apply forward_string.
Qed.

Lemma forwardQuery_spec_witness :
  searchParams_get
    (forwardQuery [("path", QueryArray ["fred"; "series"]);
                   ("series_id", QueryString "SP500")]) "series_id" = Some "SP500".
Proof.
  destruct (forwardQuery_spec [("path", QueryArray ["fred"; "series"]);
                               ("series_id", QueryString "SP500")]) as [_ Hfwd].
  apply Hfwd.
  - repeat constructor; simpl; intuition discriminate.
  - simpl. tauto.
  - discriminate.
Defined.

Lemma searchParams_set_named (params : SearchParams) (name value : string) :
  filter (fun e => String.eqb (fst e) name) (searchParams_set params name value)
  = [(name, value)].
Proof.
  induction params as [| e params IH]; simpl.
  - rewrite String.eqb_refl. reflexivity.
  - destruct (String.eqb_spec (fst e) name) as [Heq | Hne]; simpl.
    + rewrite String.eqb_refl. f_equal.
      clear IH. induction params as [| e' params IH']; simpl; [reflexivity |].
      destruct (String.eqb (fst e') name) eqn:E; simpl; [exact IH' |].
      rewrite E. exact IH'.
    + destruct (String.eqb_spec (fst e) name); [congruence | exact IH].
Qed.

Lemma searchParams_set_others (params : SearchParams) (name value : string) :
  filter (fun e => negb (String.eqb (fst e) name)) (searchParams_set params name value)
  = filter (fun e => negb (String.eqb (fst e) name)) params.
Proof.
  induction params as [| e params IH]; simpl.
  - rewrite String.eqb_refl. reflexivity.
  - destruct (String.eqb (fst e) name) eqn:E; simpl.
    + rewrite String.eqb_refl. simpl.
      clear IH. induction params as [| e' params IH']; simpl; [reflexivity |].
      destruct (String.eqb (fst e') name) eqn:E'; simpl; [exact IH' |].
      rewrite E'. simpl. f_equal. exact IH'.
    + rewrite E. simpl. f_equal. exact IH.
Qed.

(** X28. The FRED proxy adds the server's key only when the first
    "api_key" value of the forwarded query is missing or empty.  When
    that first value is not empty, or when the server holds no key (none
    or an empty one), the forwarded query is sent as it is.  Otherwise
    the server's key becomes the only "api_key" of the query, taking the
    place of every "api_key" value the request brought, and the other
    parameters keep their values and their order.  A request that gives
    a non-empty "api_key" once, as a string, therefore keeps it; a
    request that gives the list of an empty value and a key loses that
    key to the server's.  "path" is never forwarded. *)
Theorem fredQuery_api_key (FRED_API_KEY : option string)
    (query : list (string * QueryValue)) :
  (forall v, searchParams_get (forwardQuery query) "api_key" = Some v -> v <> "" ->
     fredQuery FRED_API_KEY query = forwardQuery query) /\
  (truthy FRED_API_KEY = false -> fredQuery FRED_API_KEY query = forwardQuery query) /\
  (forall key, truthy (searchParams_get (forwardQuery query) "api_key") = false ->
     FRED_API_KEY = Some key -> key <> "" ->
     fredQuery FRED_API_KEY query = searchParams_set (forwardQuery query) "api_key" key /\
     filter (fun e => String.eqb (fst e) "api_key") (fredQuery FRED_API_KEY query)
       = [("api_key", key)] /\
     filter (fun e => negb (String.eqb (fst e) "api_key")) (fredQuery FRED_API_KEY query)
       = filter (fun e => negb (String.eqb (fst e) "api_key")) (forwardQuery query) /\
     searchParams_get (fredQuery FRED_API_KEY query) "api_key" = Some key /\
     forall k, k <> "api_key" ->
       searchParams_get (fredQuery FRED_API_KEY query) k
       = searchParams_get (forwardQuery query) k) /\
  (forall s, NoDup (map fst query) -> In ("api_key", QueryString s) query -> s <> "" ->
     fredQuery FRED_API_KEY query = forwardQuery query /\
     searchParams_get (fredQuery FRED_API_KEY query) "api_key" = Some s) /\
  fredQuery (Some "server-key") [("api_key", QueryArray [""; "k2"])]
    = [("api_key", "server-key")] /\
  searchParams_get (fredQuery FRED_API_KEY query) "path" = None.
Proof.
  assert (Hkept : forall v,
            searchParams_get (forwardQuery query) "api_key" = Some v -> v <> "" ->
            fredQuery FRED_API_KEY query = forwardQuery query).
  { intros v Hget Hv. unfold fredQuery, withServerKey. rewrite Hget. simpl.
    destruct (String.eqb_spec v ""); [contradiction | reflexivity]. }
  split; [exact Hkept |]. split; [| split; [| split; [| split]]].
  - intros Hnokey. unfold fredQuery, withServerKey.
    rewrite Hnokey, andb_false_r. reflexivity.
  - intros key Hnone -> Hkey.
    assert (Hrun : fredQuery (Some key) query
                   = searchParams_set (forwardQuery query) "api_key" key).
    { unfold fredQuery, withServerKey. rewrite Hnone. simpl.
      destruct (String.eqb_spec key ""); [contradiction | reflexivity]. }
    rewrite Hrun. split; [reflexivity |].
    split; [apply searchParams_set_named |].
    split; [apply searchParams_set_others |].
    split.
    + rewrite searchParams_get_set, String.eqb_refl. reflexivity.
    + intros k Hk. rewrite searchParams_get_set.
      destruct (String.eqb_spec k "api_key"); [contradiction | reflexivity].
  - intros s Hnd Hin Hs.
    assert (Hget : searchParams_get (forwardQuery query) "api_key" = Some s)
      by (apply forward_string; [assumption | assumption | discriminate]).
    rewrite (Hkept s Hget Hs). split; [reflexivity | exact Hget].
  - reflexivity.
  - pose proof (forward_path query [] eq_refl) as Hpath.
    fold (forwardQuery query) in Hpath.
    unfold fredQuery, withServerKey.
    destruct (negb _ && _); [| exact Hpath].
    destruct FRED_API_KEY as [key |]; [| exact Hpath].
    rewrite searchParams_get_set. simpl. exact Hpath.
Qed.

Lemma fredQuery_api_key_witness :
  fredQuery (Some "server-key")
    [("series_id", QueryString "SP500"); ("api_key", QueryString "caller-key")]
  = [("series_id", "SP500"); ("api_key", "caller-key")] /\
  fredQuery (Some "server-key")
    [("series_id", QueryString "SP500"); ("api_key", QueryArray [""; "k2"])]
  = [("series_id", "SP500"); ("api_key", "server-key")].
Proof.
  split.
  - destruct (fredQuery_api_key (Some "server-key")
                [("series_id", QueryString "SP500"); ("api_key", QueryString "caller-key")])
      as [Hkept _].
    rewrite (Hkept "caller-key"); [reflexivity | reflexivity | discriminate].
  - destruct (fredQuery_api_key (Some "server-key")
                [("series_id", QueryString "SP500"); ("api_key", QueryArray [""; "k2"])])
      as [_ [_ [Hserver _]]].
    destruct (Hserver "server-key") as [Hrun _];
      [reflexivity | reflexivity | discriminate |].
    rewrite Hrun. reflexivity.
Defined.

Local Close Scope string_scope.

Lemma fredPoints_spec_witness :
  ascending
    (fredPoints (fun _ => Some 1709164800000)
       (Some [FredObservation.mk "2024-02-29" "5096.27"; FredObservation.mk "2024-03-01" "."])) /\
  fredPoint (fun _ => Some 1709251200000) (FredObservation.mk "2024-03-01" ".") = None.
Proof.
  destruct (fredPoints_spec (fun _ => Some 1709164800000)
              [FredObservation.mk "2024-02-29" "5096.27"; FredObservation.mk "2024-03-01" "."])
    as [Hsorted _].
  destruct (fredPoints_spec (fun _ => Some 1709251200000) [])
    as [_ [_ [_ Hdot]]].
  split; [exact Hsorted | apply Hdot; reflexivity].
Defined.
